(** * App process and version-control manager: a shallow embedding

    The development follows the TypeScript services of the repository:

    - [version_service.ts]   : [listVersionsService], [revertVersionService],
                               [checkoutVersionService];
    - [file_service.ts]      : [readAppFileService], [editAppFileService];
    - [app_execution_service.ts] : [runAppService], [stopAppService],
                               [restartAppService];
    - [app_service.ts]       : [deleteAppService], [renameAppService];
    - [app_handlers.ts]      : the handlers that stop an app before
                               deleting or renaming it.

    Every service is an [async] function that reads and mutates ambient
    state (the database, the file system, git repositories, the table of
    running processes) and may throw.  It is embedded as a state
    transformer over one [World] record that returns either a value or the
    message of the thrown [Error]; the world is returned in both cases,
    because nothing is rolled back when a service throws. *)

From Stdlib Require Import Ascii String ZArith List Lia.
From stdpp Require Import gmap strings list fin_maps pretty.

Open Scope string_scope.
Open Scope Z_scope.

(** ** Results and the service monad *)

Inductive result (A : Type) : Type :=
| Ok (a : A)
| Err (message : string).
Arguments Ok {A} a.
Arguments Err {A} message.

(** ** Paths: [node:path] on POSIX *)

Module Path.

Definition slash : ascii := "/"%char.

(** Segments between separators, as [String.split("/")] would give. *)
Fixpoint split_go (acc : string) (s : string) : list string :=
  match s with
  | EmptyString => [String.rev acc]
  | String c rest =>
      if Ascii.eqb c slash then String.rev acc :: split_go EmptyString rest
      else split_go (String c acc) rest
  end.

Definition segments (s : string) : list string := split_go EmptyString s.

Fixpoint concat_with (sep : string) (l : list string) : string :=
  match l with
  | [] => EmptyString
  | [x] => x
  | x :: rest => x +:+ sep +:+ concat_with sep rest
  end.

(** One step of [normalizeString]: [stack] holds the segments kept so
    far, last one first. *)
Definition normalize_step (allowAboveRoot : bool) (stack : list string)
    (seg : string) : list string :=
  if decide (seg = EmptyString ∨ seg = ".") then stack
  else if decide (seg = "..") then
    match stack with
    | last :: rest =>
        if decide (last = "..") then
          (if allowAboveRoot then ".." :: stack else stack)
        else rest
    | [] => if allowAboveRoot then [".."] else []
    end
  else seg :: stack.

Definition normalizeString (path : string) (allowAboveRoot : bool) : string :=
  concat_with "/"
    (rev (fold_left (normalize_step allowAboveRoot) (segments path) [])).

Definition last_is_slash (s : string) : bool :=
  match String.rev s with
  | String c _ => Ascii.eqb c slash
  | EmptyString => false
  end.

Definition isAbsolute (s : string) : bool :=
  match s with
  | String c _ => Ascii.eqb c slash
  | EmptyString => false
  end.

(** [path.normalize] *)
Definition normalize (path : string) : string :=
  if decide (path = EmptyString) then "."
  else
    let isAbs := isAbsolute path in
    let trailingSeparator := last_is_slash path in
    let p := normalizeString path (negb isAbs) in
    if decide (p = EmptyString) then
      (if isAbs then "/" else if trailingSeparator then "./" else ".")
    else
      let p := if trailingSeparator then p +:+ "/" else p in
      if isAbs then "/" +:+ p else p.

(** [path.join(a, b)]: empty arguments are skipped, the rest is glued
    with "/" and normalized. *)
Definition join (a b : string) : string :=
  match decide (a = EmptyString), decide (b = EmptyString) with
  | left _, left _ => "."
  | left _, right _ => normalize b
  | right _, left _ => normalize a
  | right _, right _ => normalize (a +:+ "/" +:+ b)
  end.

(** [path.dirname]: scan from the end, skipping trailing separators,
    down to index 1; [rev_tail] is the path without its first
    character, reversed. *)
Fixpoint dirname_scan (matchedSlash : bool) (rev_tail : string) : option nat :=
  match rev_tail with
  | EmptyString => None
  | String c rest =>
      if Ascii.eqb c slash then
        if matchedSlash then dirname_scan true rest
        else Some (S (String.length rest))
      else dirname_scan false rest
  end.

Definition dirname (path : string) : string :=
  match path with
  | EmptyString => "."
  | String c0 tail =>
      let hasRoot := Ascii.eqb c0 slash in
      match dirname_scan true (String.rev tail) with
      | None => if hasRoot then "/" else "."
      | Some e =>
          if hasRoot && (e =? 1)%nat then "//"
          else String.substring 0 e path
      end
  end.

(** [String.prototype.startsWith] *)
Definition startsWith (s pre : string) : bool := String.prefix pre s.

End Path.


(** ** Data model *)

(** Rows of the [apps] and [messages] tables, with the columns the
    services read. *)
Record App := mkApp {
  app_id : Z;
  app_name : string;
  app_path : string;
}.

Record Message := mkMessage {
  msg_id : Z;
  msg_chatId : Z;
  msg_commitHash : option string;
  msg_content : string;
}.

Record GitAuthor := mkAuthor {
  author_name : string;
  author_email : string;
}.

(** A commit object.  Git objects are immutable and content-addressed, so
    the identifier of a parent denotes one fixed commit for ever; the
    embedding stores that parent itself.  History is linear (at most one
    parent), as the application only ever commits on top of a head. *)
#[local] Unset Elimination Schemes.
Inductive commit : Type := mkCommit {
  c_oid : string;
  c_message : string;
  c_author : GitAuthor;
  c_timestamp : Z;
  c_tree : gmap string string;
  c_parent : option commit;
}.
#[local] Set Elimination Schemes.

(** [HEAD] is either a symbolic reference to a branch or a detached
    commit. *)
Inductive head_ref : Type :=
| Symbolic (branch : string)
| Detached (c : commit).

(** The contents of a [.git] directory: object store, branch heads,
    [HEAD] and the index (staging area), the latter keyed by path
    relative to the working directory. *)
Record Repo := mkRepo {
  objects : gmap string commit;
  branches : gmap string commit;
  head : head_ref;
  index : gmap string string;
}.

(** The [Version] of [ipc_types]. *)
Record Version := mkVersion {
  oid : string;
  message : string;
  timestamp : Z;
}.

(** What the services answer: [{ success, message? }]. *)
Record ServiceResult := mkResult {
  success : bool;
  result_message : option string;
}.

(** A child process as the operating system sees it; the registry refers
    to it through a handle, so that an exit recorded by the system is
    visible through every reference. *)
Record ChildProcess := mkProc {
  pid : option Z;
  exitCode : option Z;
  signalCode : option string;
  (** what the process writes on stderr before its first event *)
  early_stderr : string;
  (** [Some msg] when a request to terminate the process fails with [msg]. *)
  kill_error : option string;
  (** The app whose close and error listeners are attached, if any. *)
  listeners : option Z;
}.

Record RunningAppEntry := mkEntry {
  process : nat;
  processId : Z;
}.

Inductive OutputType := stdout | stderr | info | client_error.

Record OutputEvent := mkOutput {
  ev_type : OutputType;
  ev_message : string;
  ev_appId : Z;
  ev_timestamp : Z;
}.

(** What the next call of [spawn] will produce: the pid (absent when the
    process could not be started), what the process writes on stderr
    before the error event, and how it will answer a termination
    request. *)
Record SpawnOutcome := mkSpawn {
  so_pid : option Z;
  so_stderr : string;
  so_kill_error : option string;
}.

Record World := mkWorld {
  db_apps : list App;
  db_messages : list Message;
  (** files and directories under their paths, as [path.join] and
      [path.dirname] give them: a directory is recorded without a
      separator at its end *)
  fs_files : gmap string string;
  fs_dirs : gset string;
  (** git repositories, keyed by the path of their [.git] directory;
      what lies inside a [.git] directory is this record and not files
      of [fs_files] *)
  git_repos : gmap string Repo;
  (** the reading of [Date.now()] *)
  clock : Z;
  runningApps : gmap Z RunningAppEntry;
  processCounter : Z;
  os_procs : gmap nat ChildProcess;
  os_spawn : SpawnOutcome;
  busy_ports : gset Z;
  (** the ["app:output"] events sent to the renderer, oldest first *)
  outputs : list OutputEvent;
}.

Definition set_messages (v : list Message) (w : World) : World :=
  mkWorld (db_apps w) v (fs_files w) (fs_dirs w) (git_repos w) (clock w)
    (runningApps w) (processCounter w) (os_procs w) (os_spawn w)
    (busy_ports w) (outputs w).
Definition set_files (v : gmap string string) (w : World) : World :=
  mkWorld (db_apps w) (db_messages w) v (fs_dirs w) (git_repos w) (clock w)
    (runningApps w) (processCounter w) (os_procs w) (os_spawn w)
    (busy_ports w) (outputs w).
Definition set_dirs (v : gset string) (w : World) : World :=
  mkWorld (db_apps w) (db_messages w) (fs_files w) v (git_repos w) (clock w)
    (runningApps w) (processCounter w) (os_procs w) (os_spawn w)
    (busy_ports w) (outputs w).
Definition set_repos (v : gmap string Repo) (w : World) : World :=
  mkWorld (db_apps w) (db_messages w) (fs_files w) (fs_dirs w) v (clock w)
    (runningApps w) (processCounter w) (os_procs w) (os_spawn w)
    (busy_ports w) (outputs w).
Definition set_runningApps (v : gmap Z RunningAppEntry) (w : World) : World :=
  mkWorld (db_apps w) (db_messages w) (fs_files w) (fs_dirs w) (git_repos w)
    (clock w) v (processCounter w) (os_procs w) (os_spawn w)
    (busy_ports w) (outputs w).
Definition set_processCounter (v : Z) (w : World) : World :=
  mkWorld (db_apps w) (db_messages w) (fs_files w) (fs_dirs w) (git_repos w)
    (clock w) (runningApps w) v (os_procs w) (os_spawn w)
    (busy_ports w) (outputs w).
Definition set_procs (v : gmap nat ChildProcess) (w : World) : World :=
  mkWorld (db_apps w) (db_messages w) (fs_files w) (fs_dirs w) (git_repos w)
    (clock w) (runningApps w) (processCounter w) v (os_spawn w)
    (busy_ports w) (outputs w).
Definition set_busy_ports (v : gset Z) (w : World) : World :=
  mkWorld (db_apps w) (db_messages w) (fs_files w) (fs_dirs w) (git_repos w)
    (clock w) (runningApps w) (processCounter w) (os_procs w) (os_spawn w)
    v (outputs w).
Definition set_outputs (v : list OutputEvent) (w : World) : World :=
  mkWorld (db_apps w) (db_messages w) (fs_files w) (fs_dirs w) (git_repos w)
    (clock w) (runningApps w) (processCounter w) (os_procs w) (os_spawn w)
    (busy_ports w) v.

(** ** The service monad: state passing with thrown errors *)

Definition M (A : Type) : Type := World → result A * World.

Definition ret {A} (a : A) : M A := λ w, (Ok a, w).

Definition bind {A B} (m : M A) (k : A → M B) : M B :=
  λ w, match m w with
       | (Ok a, w') => k a w'
       | (Err e, w') => (Err e, w')
       end.

(** [throw new Error(msg)] *)
Definition throw {A} (msg : string) : M A := λ w, (Err msg, w).

(** [try { m } catch (error) { handler(error.message) }] *)
Definition try_catch {A} (m : M A) (handler : string → M A) : M A :=
  λ w, match m w with
       | (Ok a, w') => (Ok a, w')
       | (Err e, w') => handler e w'
       end.

Definition gets {A} (f : World → A) : M A := λ w, (Ok (f w), w).
Definition modify (f : World → World) : M unit := λ w, (Ok tt, f w).

Notation "'let!' x ':=' m 'in' k" := (bind m (λ x, k))
  (at level 10, x pattern, m at level 100, k at level 200, only parsing).
Notation "m1 '>>' m2" := (bind m1 (λ _, m2))
  (at level 100, m2 at level 200, right associativity, only parsing).

(** [for (const x of l) { await f(x) }] *)
Fixpoint forM_ {A} (f : A → M unit) (l : list A) : M unit :=
  match l with
  | [] => ret tt
  | x :: rest => f x >> forM_ f rest
  end.

(** [cond ? m : nothing] *)
Definition when (b : bool) (m : M unit) : M unit := if b then m else ret tt.

(** ** The environment

    Five collaborators are pure functions of their arguments and are kept
    abstract: the resolution of an app's relative path to its directory
    ([paths/paths.ts]), the author used for commits ([utils/git_author.ts]),
    the hash that names a commit object, the matching of ignore rules and
    the way a process ends when it is terminated. *)

(** How a process ends: with an exit code, or by a signal.  Node reports
    the one and [null] for the other. *)
Inductive Ending :=
| exited (code : Z)
| killed (signal : string).

Definition ending_code (e : Ending) : option Z :=
  match e with exited code => Some code | killed _ => None end.
Definition ending_signal (e : Ending) : option string :=
  match e with exited _ => None | killed signal => Some signal end.

Class Env := mkEnv {
  getDyadAppPath : string → string;
  getGitAuthor : GitAuthor;
  sha1 : string → GitAuthor → Z → gmap string string → option string → string;
  (** [ignores files dir filepath]: whether the ignore rules in force
      under [dir], read from [files] (the [.gitignore] files on the way
      to the path and the repository's exclude file), match [filepath]. *)
  ignores : gmap string string → string → string → bool;
  (** How a process ends once its termination has been escalated as far
      as the process made it necessary: by the signal that killed it, or
      with the code it exits with when it gives way. *)
  termination : ChildProcess → Ending;
}.

(** ** The database: [db.query.*] and [db.delete] *)

Module Db.

(** [db.query.apps.findFirst({ where: eq(apps.id, appId) })] *)
Definition findApp (appId : Z) : M (option App) :=
  gets (λ w, find (λ a, bool_decide (app_id a = appId)) (db_apps w)).

(** [db.query.messages.findFirst({ where: eq(messages.commitHash, h) })] *)
Definition findMessageByCommit (h : string) : M (option Message) :=
  gets (λ w, find (λ m, bool_decide (msg_commitHash m = Some h))
               (db_messages w)).

(** [and(eq(messages.chatId, chatId), gt(messages.id, id))] *)
Definition later_in_chat (chatId id : Z) (m : Message) : bool :=
  bool_decide (msg_chatId m = chatId) && bool_decide (id < msg_id m).

Definition findMessagesAfter (chatId id : Z) : M (list Message) :=
  gets (λ w, filter (λ m, later_in_chat chatId id m = true) (db_messages w)).

Definition deleteMessagesAfter (chatId id : Z) : M unit :=
  modify (λ w, set_messages
    (filter (λ m, later_in_chat chatId id m = false) (db_messages w)) w).

End Db.

(** ** The file system: [node:fs] *)

Module Fs.

(** [dir] and the directories above it, nearest first. *)
Fixpoint ancestors_go (fuel : nat) (dir : string) : list string :=
  match fuel with
  | O => [dir]
  | S n =>
      let up := Path.dirname dir in
      if decide (up = dir) then [dir] else dir :: ancestors_go n up
  end.

Definition ancestors (dir : string) : list string :=
  ancestors_go (String.length dir) dir.

Definition is_file (w : World) (p : string) : bool :=
  bool_decide (is_Some (fs_files w !! p)).

(** [dir] as the start of the paths of what lies in it: with one
    separator at its end, which [dir] may already have. *)
Definition as_dir (dir : string) : string :=
  if Path.last_is_slash dir then dir else dir +:+ "/".

Definition is_dir (w : World) (p : string) : bool :=
  bool_decide (p ∈ fs_dirs w) || bool_decide (p = "/") || bool_decide (p = ".").

(** [fs.existsSync]; a [.git] directory exists when a repository is
    recorded under its path. *)
Definition existsSync (p : string) : M bool :=
  gets (λ w, is_file w p || is_dir w p
             || bool_decide (is_Some (git_repos w !! p))).

(** [fsPromises.mkdir(dir, { recursive: true })]: [dir] and every
    directory above it exist afterwards; a file in the way is an error. *)
Definition mkdir (dir : string) : M unit :=
  λ w, if existsb (is_file w) (ancestors dir)
       then (Err ("EEXIST: file already exists, mkdir '" +:+ dir +:+ "'"), w)
       else (Ok tt, set_dirs (list_to_set (ancestors dir) ∪ fs_dirs w) w).

(** [fsPromises.writeFile(p, content)] *)
Definition writeFile (p content : string) : M unit :=
  λ w, if is_dir w p
       then (Err ("EISDIR: illegal operation on a directory, open '" +:+ p +:+ "'"), w)
       else if is_dir w (Path.dirname p)
       then (Ok tt, set_files (<[p := content]> (fs_files w)) w)
       else (Err ("ENOENT: no such file or directory, open '" +:+ p +:+ "'"), w).

(** [fsPromises.unlink(p)] *)
Definition unlink (p : string) : M unit :=
  λ w, if is_file w p
       then (Ok tt, set_files (delete p (fs_files w)) w)
       else (Err ("ENOENT: no such file or directory, unlink '" +:+ p +:+ "'"), w).

(** [fs.readFileSync(p, "utf-8")] *)
Definition readFileSync (p : string) : M string :=
  λ w, match fs_files w !! p with
       | Some content => (Ok content, w)
       | None => (Err ("ENOENT: no such file or directory, open '" +:+ p +:+ "'"), w)
       end.

End Fs.

(** ** Git: the calls of [isomorphic-git] the services make

    Each call names the working directory [dir]; the repository is the
    one recorded under [path.join(dir, ".git")].  What the ignore rules
    match is the environment's matter, how the calls use the answer is
    embedded here; directories as index entries are left out. *)

Module Git.

Definition is_hex (c : ascii) : bool :=
  let n := nat_of_ascii c in
  ((48 <=? n) && (n <=? 57) || (97 <=? n) && (n <=? 102))%nat.

(** A complete object name: forty digits among [0-9a-f]. *)
Definition is_full_sha (s : string) : bool :=
  (String.length s =? 40)%nat && forallb is_hex (list_ascii_of_string s).

Definition gitdir (dir : string) : string := Path.join dir ".git".

Definition getRepo (dir : string) : M Repo :=
  λ w, match git_repos w !! gitdir dir with
       | Some r => (Ok r, w)
       | None => (Err ("NotFoundError: Could not find " +:+ gitdir dir), w)
       end.

Definition putRepo (dir : string) (r : Repo) : M unit :=
  modify (λ w, set_repos (<[gitdir dir := r]> (git_repos w)) w).

(** The commit a ref denotes: an object name is looked up in the store,
    anything else is a branch name. *)
Definition resolve (r : Repo) (ref : string) : option commit :=
  if is_full_sha ref then objects r !! ref else branches r !! ref.

Definition resolveHead (r : Repo) : option commit :=
  match head r with
  | Symbolic b => branches r !! b
  | Detached c => Some c
  end.

(** The commit and its ancestors, newest first. *)
Fixpoint history (c : commit) : list commit :=
  match c with
  | mkCommit _ _ _ _ _ parent =>
      c :: match parent with
           | Some p => history p
           | None => []
           end
  end.

Fixpoint strip_prefix (pre s : string) : option string :=
  match pre with
  | EmptyString => Some s
  | String a pre' =>
      match s with
      | String b s' => if Ascii.eqb a b then strip_prefix pre' s' else None
      | EmptyString => None
      end
  end.

Definition worktree_entry (dir : string) (e : string * string)
    : option (string * string) :=
  match strip_prefix (Fs.as_dir dir) e.1 with
  | Some rel => if decide (Path.join dir rel = e.1) then Some (rel, e.2) else None
  | None => None
  end.

(** The working tree of [dir]: the files a walk from [dir] reaches,
    under their path relative to [dir]; the file named [rel] is the one
    [path.join(dir, rel)] addresses. *)
Definition worktree (dir : string) (w : World) : gmap string string :=
  list_to_map (omap (worktree_entry dir) (map_to_list (fs_files w))).

(** The last segment of a path. *)
Definition basename (p : string) : string :=
  default EmptyString (last (Path.segments p)).

(** [GitIgnoreManager.isIgnored({ fs, dir, filepath })]: a [.git] folder
    is always ignored and ["."] never is; anything else is ignored when
    the rules match it. *)
Definition isIgnored {env : Env} (w : World) (dir filepath : string) : bool :=
  bool_decide (basename filepath = ".git")
  || negb (bool_decide (filepath = ".")) && ignores (fs_files w) dir filepath.

(** The directories on the way to [filepath], outermost first, then
    [filepath] itself: ["a"], ["a/b"] and ["a/b/c"] for ["a/b/c"]. *)
Fixpoint prefixes_go (seen rest : string) : list string :=
  match rest with
  | EmptyString => [seen]
  | String c rest' =>
      if Ascii.eqb c Path.slash then seen :: prefixes_go (seen +:+ "/") rest'
      else prefixes_go (seen +:+ String c EmptyString) rest'
  end.

Definition prefixes (filepath : string) : list string :=
  prefixes_go EmptyString filepath.

(** [k] is [d] or lies below it. *)
Definition below (d k : string) : bool :=
  bool_decide (k = d) || String.prefix (d +:+ "/") k.

(** A tree has an entry at [d] or below it. *)
Definition reaches (tree : gmap string string) (d : string) : bool :=
  existsb (below d) (elements (dom tree)).

(** The walk of [git.statusMatrix] stops at an entry that neither the
    target nor the index has and that is ignored, and does not go below
    it: a path is left out of the matrix when it is such an entry or
    lies below one. *)
Definition skipped {env : Env} (w : World) (dir : string)
    (tree idx : gmap string string) (filepath : string) : bool :=
  existsb (λ d, negb (reaches tree d) && negb (reaches idx d)
                && isIgnored w dir d)
    (prefixes filepath).

(** [git.add] goes down from ["."] and passes over what is ignored,
    tracked or not: a file is left out when it is ignored or lies below
    an ignored directory. *)
Definition excluded {env : Env} (w : World) (dir filepath : string) : bool :=
  existsb (isIgnored w dir) (prefixes filepath).

(** [git.log({ dir, depth })], from [HEAD]. *)
Definition log (dir : string) (depth : nat) : M (list commit) :=
  let! r := getRepo dir in
  match resolveHead r with
  | Some c => ret (take depth (history c))
  | None => throw "NotFoundError: Could not find HEAD"
  end.

(** Write one file of a tree into the working directory. *)
Definition writeEntry (dir : string) (e : string * string) : M unit :=
  let fullPath := Path.join dir e.1 in
  Fs.mkdir (Path.dirname fullPath) >> Fs.writeFile fullPath e.2.

(** Remove a tracked file that the target tree does not have. *)
Definition dropEntry (dir : string) (tree : gmap string string)
    (e : string * string) : M unit :=
  match tree !! e.1 with
  | Some _ => ret tt
  | None =>
      let fullPath := Path.join dir e.1 in
      let! present := gets (λ w, Fs.is_file w fullPath) in
      when present (Fs.unlink fullPath)
  end.

(** [git.checkout({ dir, ref, force: true })]: tracked files the
    target lacks are removed, the target's files are written over
    whatever is there, the index becomes the target's tree and [HEAD]
    moves: to the branch when [ref] names one, detached otherwise. *)
Definition checkout (dir ref : string) : M unit :=
  let! r := getRepo dir in
  match resolve r ref with
  | None => throw ("NotFoundError: Could not find " +:+ ref)
  | Some c =>
      forM_ (dropEntry dir (c_tree c)) (map_to_list (index r)) >>
      forM_ (writeEntry dir) (map_to_list (c_tree c)) >>
      putRepo dir
        (mkRepo (objects r) (branches r)
           (if is_full_sha ref then Detached c else Symbolic ref)
           (c_tree c))
  end.

(** One row of the status matrix: [entry.map(v => entry.indexOf(v))]
    over [[undefined, head, workdir, stage]], first column dropped. *)
Definition statusRow (tree wt idx : gmap string string) (filepath : string)
    : string * Z * Z * Z :=
  let h := tree !! filepath in
  let wd := wt !! filepath in
  let st := idx !! filepath in
  (filepath,
   match h with None => 0 | Some _ => 1 end,
   match wd with
   | None => 0
   | Some _ => if decide (wd = h) then 1 else 2
   end,
   match st with
   | None => 0
   | Some _ => if decide (st = h) then 1 else if decide (st = wd) then 2 else 3
   end).

(** [git.statusMatrix({ dir, ref })]: one row per path of the tree of
    [ref], the working directory or the index that the walk does not
    leave out. *)
Definition statusMatrix {env : Env} (dir ref : string)
    : M (list (string * Z * Z * Z)) :=
  let! r := getRepo dir in
  match resolve r ref with
  | None => throw ("NotFoundError: Could not find " +:+ ref)
  | Some c =>
      gets (λ w,
        let wt := worktree dir w in
        map (statusRow (c_tree c) wt (index r))
          (filter (λ p, skipped w dir (c_tree c) (index r) p = false)
             (elements (dom (c_tree c) ∪ dom wt ∪ dom (index r)))))
  end.

(** [git.readBlob({ dir, oid, filepath })]: [oid] is an object name,
    peeled to its tree. *)
Definition readBlob (dir oid filepath : string) : M string :=
  let! r := getRepo dir in
  match objects r !! oid with
  | None => throw ("NotFoundError: Could not find " +:+ oid)
  | Some c =>
      match c_tree c !! filepath with
      | Some blob => ret blob
      | None => throw ("NotFoundError: Could not find file or directory found at "
                       +:+ oid +:+ ":" +:+ filepath)
      end
  end.

(** [git.remove({ dir, filepath })] *)
Definition remove (dir filepath : string) : M unit :=
  let! r := getRepo dir in
  putRepo dir (mkRepo (objects r) (branches r) (head r) (delete filepath (index r))).

(** [git.add({ dir, filepath })]: ["."] stages every file of the working
    directory that is not left out; entries of files that are gone stay
    in the index.  A file that is named is staged unless it is ignored,
    in which case nothing is done and nothing is reported. *)
Definition add {env : Env} (dir filepath : string) : M unit :=
  let! r := getRepo dir in
  if decide (filepath = ".") then
    let! staged :=
      gets (λ w, filter (λ e, excluded w dir e.1 = false) (worktree dir w)) in
    putRepo dir (mkRepo (objects r) (branches r) (head r) (staged ∪ index r))
  else
    let! ignored := gets (λ w, isIgnored w dir filepath) in
    if ignored : bool then ret tt
    else
      let! content := gets (λ w, fs_files w !! Path.join dir filepath) in
      match content with
      | Some blob =>
          putRepo dir (mkRepo (objects r) (branches r) (head r)
                         (<[filepath := blob]> (index r)))
      | None => throw ("NotFoundError: Could not find " +:+ filepath)
      end.

(** [git.commit({ dir, message, author })]: the index becomes the tree of
    a new commit on top of [HEAD]; the branch [HEAD] points to (or a
    detached [HEAD] itself) moves to it. *)
Definition commit_ {env : Env} (dir msg : string) (author : GitAuthor) : M string :=
  let! r := getRepo dir in
  let! now := gets (λ w, clock w / 1000) in
  let parent := resolveHead r in
  let c := mkCommit (sha1 msg author now (index r) (c_oid <$> parent))
             msg author now (index r) parent in
  putRepo dir
    (mkRepo (<[c_oid c := c]> (objects r))
       (match head r with
        | Symbolic b => <[b := c]> (branches r)
        | Detached _ => branches r
        end)
       (match head r with
        | Symbolic b => Symbolic b
        | Detached _ => Detached c
        end)
       (index r)) >>
  ret (c_oid c).

End Git.

(** ** [version_service.ts] *)

Section VersionService.
Context {env : Env}.

Definition toVersion (c : commit) : Version :=
  mkVersion (c_oid c) (c_message c) (c_timestamp c).

(** Lists all versions (commits) for a given app. *)
Definition listVersionsService (appId : Z) : M (list Version) :=
  let! app := Db.findApp appId in
  match app with
  | None => throw "App not found"
  | Some app =>
      let appPath := getDyadAppPath (app_path app) in
      let! isRepo := Fs.existsSync (Path.join appPath ".git") in
      if negb isRepo then ret []
      else
        try_catch
          (let! commits := Git.log appPath 1000 in
           ret (map toVersion commits))
          (λ msg, throw ("Failed to list versions: " +:+ msg))
  end.

(** Which arm of the [if / else if / else if] chain a row of the status
    matrix takes. *)
Inductive RevertBranch :=
| RestoreFromTarget
| DeleteFromWorkdir
| RestoreModified
| NoAction.

Definition revertBranch (headStatus workdirStatus : Z) : RevertBranch :=
  if headStatus =? 1 then
    (if negb (workdirStatus =? 1) then RestoreFromTarget else NoAction)
  else if (headStatus =? 0) && negb (workdirStatus =? 0) then DeleteFromWorkdir
  else if (headStatus =? 1) && (workdirStatus =? 2) then RestoreModified
  else NoAction.

(** The body of the loop over the status matrix. *)
Definition revertPath (appPath previousVersionId : string)
    (row : string * Z * Z * Z) : M unit :=
  let '(filepath, headStatus, workdirStatus, stageStatus) := row in
  let fullPath := Path.join appPath filepath in
  match revertBranch headStatus workdirStatus with
  | RestoreFromTarget =>
      let! blob := Git.readBlob appPath previousVersionId filepath in
      Fs.mkdir (Path.dirname fullPath) >>
      Fs.writeFile fullPath blob
  | DeleteFromWorkdir =>
      let! present := Fs.existsSync fullPath in
      when present
        (Fs.unlink fullPath >>
         try_catch (Git.remove appPath filepath) (λ _, ret tt))
  | RestoreModified =>
      let! blob := Git.readBlob appPath previousVersionId filepath in
      Fs.writeFile fullPath blob
  | NoAction => ret tt
  end.

Definition revertLoop (appPath previousVersionId : string)
    (matrix : list (string * Z * Z * Z)) : M unit :=
  forM_ (revertPath appPath previousVersionId) matrix.

(** The loop as the specification words it, with two cases only:
    restore what the target has and the working tree lacks or has
    differently, delete what the target lacks and the working tree has. *)
Definition revertPath_two_branch (appPath previousVersionId : string)
    (row : string * Z * Z * Z) : M unit :=
  let '(filepath, headStatus, workdirStatus, stageStatus) := row in
  let fullPath := Path.join appPath filepath in
  if (headStatus =? 1) && negb (workdirStatus =? 1) then
    let! blob := Git.readBlob appPath previousVersionId filepath in
    Fs.mkdir (Path.dirname fullPath) >>
    Fs.writeFile fullPath blob
  else if (headStatus =? 0) && negb (workdirStatus =? 0) then
    let! present := Fs.existsSync fullPath in
    when present
      (Fs.unlink fullPath >>
       try_catch (Git.remove appPath filepath) (λ _, ret tt))
  else ret tt.

Definition revertLoop_two_branch (appPath previousVersionId : string)
    (matrix : list (string * Z * Z * Z)) : M unit :=
  forM_ (revertPath_two_branch appPath previousVersionId) matrix.

(** The pruning of the conversation after the revert commit. *)
Definition pruneMessages (previousVersionId : string) : M unit :=
  let! messageWithCommit := Db.findMessageByCommit previousVersionId in
  match messageWithCommit with
  | Some messageWithCommit =>
      let chatId := msg_chatId messageWithCommit in
      let! messagesToDelete :=
        Db.findMessagesAfter chatId (msg_id messageWithCommit) in
      when (0 <? Z.of_nat (length messagesToDelete))
        (Db.deleteMessagesAfter chatId (msg_id messageWithCommit))
  | None => ret tt
  end.

Definition revertMessage (previousVersionId : string) : string :=
  "Reverted all changes back to version " +:+ previousVersionId.

(** Reverts the app's codebase to a previous version and cleans up
    subsequent chat messages. *)
Definition revertVersionService (appId : Z) (previousVersionId : string)
    : M ServiceResult :=
  let! app := Db.findApp appId in
  match app with
  | None => throw "App not found"
  | Some app =>
      let appPath := getDyadAppPath (app_path app) in
      try_catch
        (Git.checkout appPath "main" >>
         let! matrix := Git.statusMatrix appPath previousVersionId in
         revertLoop appPath previousVersionId matrix >>
         Git.add appPath "." >>
         let! commitHash :=
           Git.commit_ appPath (revertMessage previousVersionId) getGitAuthor in
         pruneMessages previousVersionId >>
         ret (mkResult true None))
        (λ msg, throw ("Failed to revert version: " +:+ msg))
  end.

(** Checks out a specific version of the app's codebase without
    creating a new commit. *)
Definition checkoutVersionService (appId : Z) (versionId : string)
    : M ServiceResult :=
  let! app := Db.findApp appId in
  match app with
  | None => throw "App not found"
  | Some app =>
      let appPath := getDyadAppPath (app_path app) in
      try_catch
        (Git.checkout appPath versionId >> ret (mkResult true None))
        (λ msg, throw ("Failed to checkout version: " +:+ msg))
  end.

End VersionService.

(** ** [file_service.ts] *)

Section FileService.
Context {env : Env}.

(** Reads the content of a specific file within an app's directory. *)
Definition readAppFileService (appId : Z) (filePath : string) : M string :=
  let! app := Db.findApp appId in
  match app with
  | None => throw "App not found"
  | Some app =>
      let appPath := getDyadAppPath (app_path app) in
      let fullPath := Path.join appPath filePath in
      if negb (Path.startsWith fullPath appPath) then throw "Invalid file path"
      else
        let! present := Fs.existsSync fullPath in
        if negb present then throw "File not found"
        else
          try_catch (Fs.readFileSync fullPath)
            (λ _, throw "Failed to read file")
  end.

(** Writes content to a specific file within an app's directory and
    commits the change. *)
Definition editAppFileService (appId : Z) (filePath content : string)
    : M ServiceResult :=
  let! app := Db.findApp appId in
  match app with
  | None => throw "App not found"
  | Some app =>
      let appPath := getDyadAppPath (app_path app) in
      let fullPath := Path.join appPath filePath in
      if negb (Path.startsWith fullPath appPath) then throw "Invalid file path"
      else
        let dirPath := Path.dirname fullPath in
        Fs.mkdir dirPath >>
        try_catch
          (Fs.writeFile fullPath content >>
           let! isRepo := Fs.existsSync (Path.join appPath ".git") in
           when isRepo
             (Git.add appPath filePath >>
              let! _ := Git.commit_ appPath ("Updated " +:+ filePath) getGitAuthor in
              ret tt) >>
           ret (mkResult true None))
          (λ msg, throw ("Failed to write file: " +:+ msg))
  end.

End FileService.

(** ** [app_execution_service.ts] *)

Section AppExecutionService.
Context {env : Env}.

(** [event.sender.send("app:output", { type, message, appId, timestamp })] *)
Definition sendOutput (type : OutputType) (msg : string) (appId : Z) : M unit :=
  modify (λ w, set_outputs (outputs w ++ [mkOutput type msg appId (clock w)]) w).

(** Modelled from the spec: [withLock] of [utils/lock_utils.ts], which is
    not among the sources.  "Operations submitted for the same key
    execute one at a time, in submission order."  A service call is one
    state transformer here, so calls never interleave and the lock adds
    nothing to the operation it wraps. *)
Definition withLock {A} (key : Z) (operation : M A) : M A := operation.

(** Modelled from the spec: [removeAppIfCurrentProcess] of
    [utils/process_manager.ts], which is not among the sources.  "Removes
    the entry only if the stored handle identity equals the passed
    handle." *)
Definition removeAppIfCurrentProcess (appId : Z) (proc : nat) : M unit :=
  modify (λ w,
    match runningApps w !! appId with
    | Some entry =>
        if decide (process entry = proc)
        then set_runningApps (delete appId (runningApps w)) w
        else w
    | None => w
    end).

(** Modelled from the spec: [processCounter.increment()] of
    [utils/process_manager.ts], which is not among the sources.  "A
    monotonically increasing generation tag", "freshly incremented" at
    each spawn; [processCounter.value] is the field [processCounter]. *)
Definition processCounter_increment : M Z :=
  λ w, (Ok (processCounter w + 1), set_processCounter (processCounter w + 1) w).

(** How a template literal prints [code] and [signal]. *)
Definition show_code (code : option Z) : string :=
  match code with Some n => pretty n | None => "null" end.
Definition show_signal (signal : option string) : string :=
  match signal with Some s => s | None => "null" end.

(** The listener [process.on("close", ...)] attached by
    [executeAppLocalNode]. *)
Definition closeListener (appId : Z) (proc : nat)
    (code : option Z) (signal : option string) : M unit :=
  removeAppIfCurrentProcess appId proc >>
  sendOutput info
    ("App process closed with code " +:+ show_code code +:+ ", signal "
     +:+ show_signal signal +:+ ".") appId.

(** The listener [process.on("error", ...)] attached by
    [executeAppLocalNode]. *)
Definition errorListener (appId : Z) (proc : nat) (msg : string) : M unit :=
  removeAppIfCurrentProcess appId proc >>
  sendOutput client_error ("App process error: " +:+ msg) appId.

(** Modelled from the spec: [killProcess] of [utils/process_manager.ts],
    which is not among the sources.  "Terminate the process (escalating
    signal if needed)"; "termination failure is reported as an error".
    A process that terminates is recorded as ended the way the
    environment has it end, and its close listener, when one is
    attached, runs with that code and signal. *)
Definition killProcess (proc : nat) : M unit :=
  let! p := gets (λ w, os_procs w !! proc) in
  match p with
  | None => throw "process handle is not valid"
  | Some p =>
      match kill_error p with
      | Some msg => throw msg
      | None =>
          let code := ending_code (termination p) in
          let signal := ending_signal (termination p) in
          modify (λ w, set_procs
            (<[proc := mkProc (pid p) code signal
                         (early_stderr p) (kill_error p) (listeners p)]>
               (os_procs w)) w) >>
          match listeners p with
          | Some appId => closeListener appId proc code signal
          | None => ret tt
          end
      end
  end.

(** Helper to kill process on a specific port; whatever [killPort]
    throws is caught and ignored. *)
Definition killProcessOnPort (port : Z) : M unit :=
  modify (λ w, set_busy_ports (busy_ports w ∖ {[port]}) w).

(** [spawn(command, [], { cwd, shell: true, stdio: "pipe" })]: a new
    process object, whether or not a process was started. *)
Definition spawn (command cwd : string) : M nat :=
  λ w, let proc := fresh (dom (os_procs w)) in
       (Ok proc,
        set_procs (<[proc := mkProc (so_pid (os_spawn w)) None None
                               (so_stderr (os_spawn w))
                               (so_kill_error (os_spawn w)) None]>
                     (os_procs w)) w).

(** [!process.pid] *)
Definition no_pid (p : option ChildProcess) : bool :=
  match p ≫= pid with
  | Some n => n =? 0
  | None => true
  end.

Definition dev_command : string :=
  "(pnpm install && pnpm run dev --port 32100) || (npm install && npm run dev -- --port 32100)".

(** Executes the app using local Node.js and pnpm/npm. *)
Definition executeAppLocalNode (appPath : string) (appId : Z) : M unit :=
  let! proc := spawn dev_command appPath in
  let! p := gets (λ w, os_procs w !! proc) in
  if no_pid p then
    let errorOutput := default EmptyString (early_stderr <$> p) in
    throw ("Failed to spawn process for app " +:+ pretty appId +:+ ". Error: "
           +:+ (if decide (errorOutput = EmptyString) then "Unknown spawn error"
                else errorOutput))
  else
    let! currentProcessId := processCounter_increment in
    modify (λ w, set_runningApps
      (<[appId := mkEntry proc currentProcessId]> (runningApps w)) w) >>
    modify (λ w, set_procs
      (alter (λ p, mkProc (pid p) (exitCode p) (signalCode p)
                     (early_stderr p) (kill_error p) (Some appId))
         proc (os_procs w)) w).

(** The cleanup of the [catch] block of [runAppService]. *)
Definition cleanupFailedRun (appId : Z) : M unit :=
  modify (λ w,
    match runningApps w !! appId with
    | Some entry =>
        if decide (processId entry = processCounter w)
        then set_runningApps (delete appId (runningApps w)) w
        else w
    | None => w
    end).

(** Runs a specific app. *)
Definition runAppService (appId : Z) : M ServiceResult :=
  withLock appId
    (let! running := gets (λ w, bool_decide (is_Some (runningApps w !! appId))) in
     if running then
       sendOutput info "App is already running." appId >>
       ret (mkResult true (Some "App already running."))
     else
       let! app := Db.findApp appId in
       match app with
       | None => throw "App not found"
       | Some app =>
           let appPath := getDyadAppPath (app_path app) in
           try_catch
             (killProcessOnPort 32100 >>
              executeAppLocalNode appPath appId >>
              ret (mkResult true None))
             (λ msg,
                cleanupFailedRun appId >>
                sendOutput client_error ("Failed to run app: " +:+ msg) appId >>
                throw ("Failed to run app " +:+ pretty appId +:+ ": " +:+ msg))
       end).

(** [process.exitCode !== null || process.signalCode !== null] *)
Definition has_exited (p : option ChildProcess) : bool :=
  bool_decide (is_Some (p ≫= exitCode)) || bool_decide (is_Some (p ≫= signalCode)).

(** Stops a running app. *)
Definition stopAppService (appId : Z) : M ServiceResult :=
  withLock appId
    (let! appInfo := gets (λ w, runningApps w !! appId) in
     match appInfo with
     | None => ret (mkResult true (Some "App not running."))
     | Some appInfo =>
         let proc := process appInfo in
         let! p := gets (λ w, os_procs w !! proc) in
         if has_exited p then
           modify (λ w, set_runningApps (delete appId (runningApps w)) w) >>
           ret (mkResult true (Some "Process already exited."))
         else
           try_catch
             (killProcess proc >>
              removeAppIfCurrentProcess appId proc >>
              killProcessOnPort 32100 >>
              ret (mkResult true None))
             (λ msg,
                removeAppIfCurrentProcess appId proc >>
                throw ("Failed to stop app " +:+ pretty appId +:+ ": " +:+ msg))
     end).

End AppExecutionService.

(** ** Whole directories: [fsPromises.rm] and [fsPromises.rename]

    Paths are compared as the strings they are: what lies below a
    directory is what starts with its path and a separator, the
    directory being named without a separator at its end. *)

Module FsTree.

(** [q] is [p] or lies below it. *)
Definition under (p q : string) : bool :=
  bool_decide (q = p) || String.prefix (p +:+ "/") q.

(** [fsPromises.rm(p, { recursive: true, force: true })]: whatever is at
    [p] or below it is gone, the [.git] directories included; with
    [force] a missing [p] is no error. *)
Definition rm (p : string) : M unit :=
  modify (λ w,
    set_repos (filter (λ kv, under p kv.1 = false) (git_repos w))
      (set_dirs (filter (λ d, under p d = false) (fs_dirs w))
         (set_files (filter (λ kv, under p kv.1 = false) (fs_files w)) w))).

(** Where [k] ends up when [old] becomes [new]. *)
Definition moved (old new k : string) : string :=
  if decide (k = old) then new
  else match Git.strip_prefix (old +:+ "/") k with
       | Some rest => new +:+ "/" +:+ rest
       | None => k
       end.

(** A map with its keys sent through [f]. *)
Definition rekey {A} (f : string → string) (m : gmap string A) : gmap string A :=
  list_to_map ((λ kv, (f kv.1, kv.2)) <$> map_to_list m).

(** Every path the world knows: files, directories, repositories. *)
Definition entries (w : World) : list string :=
  (map_to_list (fs_files w)).*1 ++ elements (fs_dirs w)
  ++ (map_to_list (git_repos w)).*1.

(** [fsPromises.rename(old, new)], as rename(2): a file replaces a file;
    a directory moves with everything below it, onto nothing or onto an
    empty directory. *)
Definition rename (old new : string) : M unit :=
  λ w,
    if Fs.is_file w old then
      if Fs.is_dir w new then
        (Err ("EISDIR: illegal operation on a directory, rename '" +:+ old
              +:+ "' -> '" +:+ new +:+ "'"), w)
      else if negb (Fs.is_dir w (Path.dirname new)) then
        (Err ("ENOENT: no such file or directory, rename '" +:+ old
              +:+ "' -> '" +:+ new +:+ "'"), w)
      else
        (Ok tt,
         set_files (<[new := default EmptyString (fs_files w !! old)]>
                      (delete old (fs_files w))) w)
    else if bool_decide (old ∈ fs_dirs w) then
      if Fs.is_file w new then
        (Err ("ENOTDIR: not a directory, rename '" +:+ old
              +:+ "' -> '" +:+ new +:+ "'"), w)
      else if under old new && negb (bool_decide (new = old)) then
        (Err ("EINVAL: invalid argument, rename '" +:+ old
              +:+ "' -> '" +:+ new +:+ "'"), w)
      else if existsb (λ k, under new k && negb (bool_decide (k = new)))
                (entries w) then
        (Err ("ENOTEMPTY: directory not empty, rename '" +:+ old
              +:+ "' -> '" +:+ new +:+ "'"), w)
      else if negb (Fs.is_dir w (Path.dirname new)) then
        (Err ("ENOENT: no such file or directory, rename '" +:+ old
              +:+ "' -> '" +:+ new +:+ "'"), w)
      else
        (Ok tt,
         set_repos (rekey (moved old new) (git_repos w))
           (set_dirs (set_map (moved old new) (fs_dirs w))
              (set_files (rekey (moved old new) (fs_files w)) w)))
    else
      (Err ("ENOENT: no such file or directory, rename '" +:+ old
            +:+ "' -> '" +:+ new +:+ "'"), w).

End FsTree.

(** ** The [apps] table: the other queries *)

Module AppsTable.

(** [db.query.apps.findFirst({ where: eq(apps.name, appName) })] *)
Definition findByName (appName : string) : M (option App) :=
  gets (λ w, find (λ a, bool_decide (app_name a = appName)) (db_apps w)).

(** [db.query.apps.findFirst({ where: eq(apps.path, appPath) })] *)
Definition findByPath (appPath : string) : M (option App) :=
  gets (λ w, find (λ a, bool_decide (app_path a = appPath)) (db_apps w)).

Definition set_apps (v : list App) (w : World) : World :=
  mkWorld v (db_messages w) (fs_files w) (fs_dirs w) (git_repos w) (clock w)
    (runningApps w) (processCounter w) (os_procs w) (os_spawn w)
    (busy_ports w) (outputs w).

(** [db.delete(apps).where(eq(apps.id, appId))] *)
Definition delete (appId : Z) : M unit :=
  modify (λ w, set_apps (filter (λ a, app_id a ≠ appId) (db_apps w)) w).

(** The row after [.set({ name, path })]. *)
Definition renamed (appId : Z) (appName appPath : string) (a : App) : App :=
  if decide (app_id a = appId) then mkApp (app_id a) appName appPath else a.

(** [db.update(apps).set({ name, path }).where(eq(apps.id, appId))
    .returning()]: the rows it changed. *)
Definition update (appId : Z) (appName appPath : string) : M (list App) :=
  λ w, (Ok (renamed appId appName appPath
              <$> filter (λ a, app_id a = appId) (db_apps w)),
        set_apps (renamed appId appName appPath <$> db_apps w) w).

End AppsTable.

(** ** [app_service.ts]: deleting and renaming an app *)

Section AppService.
Context {env : Env}.

(** Deletes an app and its files. *)
Definition deleteAppService (appId : Z) : M ServiceResult :=
  let! app := Db.findApp appId in
  match app with
  | None => throw "App not found"
  | Some app =>
      let appPath := getDyadAppPath (app_path app) in
      try_catch
        (let! present := Fs.existsSync appPath in
         when present (FsTree.rm appPath))
        (λ msg, throw ("Failed to delete app files: " +:+ msg)) >>
      try_catch
        (AppsTable.delete appId >> ret (mkResult true None))
        (λ msg, throw ("Failed to delete app from database: " +:+ msg))
  end.

(** What [renameAppService] answers: [{ success, app }]. *)
Record RenameResult := mkRenameResult {
  rename_success : bool;
  rename_app : option App;
}.

(** [conflict && conflict.id !== appId] *)
Definition conflicts (conflict : option App) (appId : Z) : bool :=
  match conflict with
  | Some other => negb (bool_decide (app_id other = appId))
  | None => false
  end.

(** Renames an app (updates name and optionally folder path). *)
Definition renameAppService (appId : Z) (appName appPath : string)
    : M RenameResult :=
  let! app := Db.findApp appId in
  match app with
  | None => throw "App not found"
  | Some app =>
      let! nameConflict := AppsTable.findByName appName in
      let! pathConflict := AppsTable.findByPath appPath in
      if conflicts nameConflict appId then
        throw ("An app with the name '" +:+ appName +:+ "' already exists")
      else if conflicts pathConflict appId then
        throw ("An app with the path '" +:+ appPath +:+ "' already exists")
      else
        let oldAppPath := getDyadAppPath (app_path app) in
        let newAppPath := getDyadAppPath appPath in
        when (negb (bool_decide (newAppPath = oldAppPath)))
          (try_catch
             (let! taken := Fs.existsSync newAppPath in
              (if taken : bool then
                 throw ("Destination path '" +:+ newAppPath +:+ "' already exists")
               else ret tt) >>
              Fs.mkdir (Path.dirname newAppPath) >>
              FsTree.rename oldAppPath newAppPath)
             (λ msg, throw ("Failed to move app files: " +:+ msg))) >>
        try_catch
          (let! updated := AppsTable.update appId appName appPath in
           ret (mkRenameResult true (updated !! 0%nat)))
          (λ msg,
             when (negb (bool_decide (newAppPath = oldAppPath)))
               (try_catch (FsTree.rename newAppPath oldAppPath) (λ _, ret tt)) >>
             throw ("Failed to update app in database: " +:+ msg))
  end.

End AppService.

(** ** [app_execution_service.ts]: restarting *)

Section RestartService.
Context {env : Env}.

(** Restarts a running app, optionally cleaning node_modules. *)
Definition restartAppService (appId : Z) (removeNodeModules : bool)
    : M ServiceResult :=
  withLock appId
    (try_catch
       (let! appInfo := gets (λ w, runningApps w !! appId) in
        match appInfo with
        | Some appInfo =>
            killProcess (process appInfo) >>
            modify (λ w, set_runningApps (delete appId (runningApps w)) w)
        | None => ret tt
        end >>
        killProcessOnPort 32100 >>
        let! app := Db.findApp appId in
        match app with
        | None => throw "App not found"
        | Some app =>
            let appPath := getDyadAppPath (app_path app) in
            when removeNodeModules
              (let nodeModulesPath := Path.join appPath "node_modules" in
               let! present := Fs.existsSync nodeModulesPath in
               when present (FsTree.rm nodeModulesPath)) >>
            executeAppLocalNode appPath appId >>
            ret (mkResult true None)
        end)
       (λ msg,
          sendOutput client_error ("Failed to restart app: " +:+ msg) appId >>
          throw msg)).

End RestartService.

(** ** [app_handlers.ts]: the handlers that stop an app first *)

Section AppHandlers.
Context {env : Env}.

(** [if (runningApps.has(appId)) { try { await stopAppService(appId) }
    catch { warn } }] *)
Definition stopIfRunning (appId : Z) : M unit :=
  let! running := gets (λ w, bool_decide (is_Some (runningApps w !! appId))) in
  when running
    (try_catch (stopAppService appId >> ret tt) (λ _, ret tt)).

(** [ipcMain.handle("delete-app", ...)] *)
Definition deleteAppHandler (appId : Z) : M ServiceResult :=
  stopIfRunning appId >> deleteAppService appId.

(** [ipcMain.handle("rename-app", ...)] *)
Definition renameAppHandler (appId : Z) (appName appPath : string)
    : M RenameResult :=
  stopIfRunning appId >> renameAppService appId appName appPath.

End AppHandlers.

(** ** Vocabulary of the statements *)

(** Everything but the file system and the repositories. *)
Definition rest_of (w : World) :=
  (db_apps w, db_messages w, clock w, runningApps w, processCounter w,
   os_procs w, os_spawn w, busy_ports w, outputs w).

(** What never changes in a repository short of a checkout or a commit. *)
Definition repo_frame (r r' : Repo) : Prop :=
  objects r' = objects r ∧ branches r' = branches r ∧ head r' = head r.

(** [touches g paths w w']: from [w] to [w'] only the files at [paths]
    may differ, directories are only added, and of the repositories only
    the index of the one at [g] may differ, by losing entries. *)
Definition touches (g : string) (paths : list string) (w w' : World) : Prop :=
  rest_of w' = rest_of w
  ∧ (∀ g', g' ≠ g → git_repos w' !! g' = git_repos w !! g')
  ∧ match git_repos w !! g with
    | Some r => ∃ r', git_repos w' !! g = Some r' ∧ repo_frame r r'
                      ∧ index r' ⊆ index r
    | None => git_repos w' !! g = None
    end
  ∧ (∀ q, q ∉ paths → fs_files w' !! q = fs_files w !! q)
  ∧ fs_dirs w ⊆ fs_dirs w'.

(** The blob the target version has at a path, if any. *)
Definition blob_at (w : World) (g oid filepath : string) : option string :=
  r ← git_repos w !! g; c ← objects r !! oid; c_tree c !! filepath.

Definition fullPath_of (appPath : string) (row : string * Z * Z * Z) : string :=
  Path.join appPath row.1.1.1.

(** What one row of the matrix has achieved between [w0] and [w1]. *)
Definition row_done (appPath oid : string) (row : string * Z * Z * Z)
    (w0 w1 : World) : Prop :=
  let '(filepath, h, wd, st) := row in
  let full := Path.join appPath filepath in
  let g := Git.gitdir appPath in
  (h = 1 → wd ≠ 1 →
     ∃ blob, blob_at w0 g oid filepath = Some blob
             ∧ fs_files w1 !! full = Some blob
             ∧ ∀ d, d ∈ Fs.ancestors (Path.dirname full) →
                    Fs.is_dir w1 d = true)
  ∧ (h = 0 → wd ≠ 0 →
     is_Some (fs_files w0 !! full) → is_Some (git_repos w0 !! g) →
     fs_files w1 !! full = None
     ∧ ∃ r1, git_repos w1 !! g = Some r1 ∧ index r1 !! filepath = None).

(** Only the file system differs. *)
Definition fs_only (w w' : World) : Prop :=
  rest_of w' = rest_of w ∧ git_repos w' = git_repos w.

(** The conversation after the pruning for a version. *)
Definition pruned (previousVersionId : string) (msgs : list Message)
    : list Message :=
  match find (λ m, bool_decide (msg_commitHash m = Some previousVersionId))
          msgs with
  | Some tagged =>
      filter (λ m, ¬ (msg_chatId m = msg_chatId tagged
                      ∧ msg_id tagged < msg_id m)) msgs
  | None => msgs
  end.

(** The identifiers a call of [listVersionsService] answered, if it
    answered. *)
Definition listed (x : result (list Version) * World) : option (list string) :=
  match x.1 with
  | Ok versions => Some (map oid versions)
  | Err _ => None
  end.

(** Induction on a commit and its ancestors. *)
Fixpoint commit_history_ind (P : commit → Prop)
    (root : ∀ o m a t tr, P (mkCommit o m a t tr None))
    (child : ∀ o m a t tr p, P p → P (mkCommit o m a t tr (Some p)))
    (c : commit) : P c :=
  match c with
  | mkCommit o m a t tr parent =>
      match parent return P (mkCommit o m a t tr parent) with
      | None => root o m a t tr
      | Some p => child o m a t tr p (commit_history_ind P root child p)
      end
  end.


(** ** Concrete worlds used to exercise the services *)

Module Demo.

(** A forty-digit object name for a number. *)
Definition oid_of_nat (n : nat) : string :=
  let digits := pretty n in
  String.concat EmptyString (replicate (40 - String.length digits) "0")
  +:+ digits.

(** Ignore rules for a [.gitignore] at the top of [dir] that holds one
    plain name: a path is matched when the name is one of its
    segments. *)
Definition one_name_ignored (files : gmap string string) (dir filepath : string)
    : bool :=
  match files !! Path.join dir ".gitignore" with
  | Some name => existsb (String.eqb name) (Path.segments filepath)
  | None => false
  end.

#[local] Instance env : Env :=
  mkEnv (λ p, Path.join "/home/user/dyad-apps" p)
        (mkAuthor "dyad" "git@dyad.sh")
        (λ msg author now tree parent,
           oid_of_nat (1000 + String.length msg + size tree))
        one_name_ignored
        (λ p, killed "SIGTERM").

Definition app1 : App := mkApp 1 "demo" "demo".
Definition appPath1 : string := "/home/user/dyad-apps/demo".

Definition idle : World :=
  mkWorld [app1] [] ∅ ∅ ∅ 1700000000000 ∅ 0 ∅
    (mkSpawn (Some 4242) EmptyString None) ∅ [].

(** App 1 is running as process 0 (generation 1), listeners attached. *)
Definition running : World :=
  mkWorld [app1] [] ∅ ∅ ∅ 1700000000000
    {[ 1 := mkEntry 0%nat 1 ]} 1
    {[ 0%nat := mkProc (Some 4242) None None EmptyString None (Some 1) ]}
    (mkSpawn (Some 4243) EmptyString None) {[ 32100 ]} [].

(** The same, but the process has exited with code 1 and the close
    event has not been handled. *)
Definition exited : World :=
  set_procs
    {[ 0%nat := mkProc (Some 4242) (Some 1) None EmptyString None (Some 1) ]}
    running.

(** The same, but the process refuses to die. *)
Definition stubborn : World :=
  set_procs
    {[ 0%nat := mkProc (Some 4242) None None EmptyString (Some "kill EPERM")
                  (Some 1) ]}
    running.

(** No process can be started. *)
Definition no_spawn : World :=
  mkWorld [app1] [] ∅ ∅ ∅ 1700000000000 ∅ 0 ∅
    (mkSpawn None "sh: not found" None) {[ 32100 ]} [].

(** App 1 under version control: three commits on [main], a
    conversation that produced them, an uncommitted edit of [src/a.ts]
    and an untracked file. *)
Definition author : GitAuthor := mkAuthor "dyad" "git@dyad.sh".

Definition tree1 : gmap string string :=
  {[ "README.md" := "hello"; "src/a.ts" := "A1" ]}.
Definition tree2 : gmap string string :=
  {[ "README.md" := "hello"; "src/a.ts" := "A2"; "src/b.ts" := "B" ]}.
Definition tree3 : gmap string string :=
  {[ "src/a.ts" := "A3"; "src/b.ts" := "B" ]}.

Definition v1 : string := oid_of_nat 1.
Definition v2 : string := oid_of_nat 2.
Definition v3 : string := oid_of_nat 3.

Definition c1 : commit :=
  mkCommit v1 "Init from react vite template" author 1699999000 tree1 None.
Definition c2 : commit :=
  mkCommit v2 "Updated src/b.ts" author 1699999100 tree2 (Some c1).
Definition c3 : commit :=
  mkCommit v3 "Updated src/a.ts" author 1699999200 tree3 (Some c2).

Definition repo1 : Repo :=
  mkRepo {[ v1 := c1; v2 := c2; v3 := c3 ]} {[ "main" := c3 ]}
    (Symbolic "main") tree3.

Definition messages1 : list Message :=
  [ mkMessage 1 10 None "make me an app";
    mkMessage 2 10 (Some v1) "here is the scaffold";
    mkMessage 3 10 None "add b";
    mkMessage 4 10 (Some v2) "added b";
    mkMessage 5 11 None "another chat";
    mkMessage 6 10 (Some v3) "changed a";
    mkMessage 7 11 None "still another chat" ].

Definition files1 : gmap string string :=
  {[ "/home/user/dyad-apps/demo/src/a.ts" := "A3 with local edits";
     "/home/user/dyad-apps/demo/src/b.ts" := "B";
     "/home/user/dyad-apps/demo/scratch.txt" := "tmp" ]}.

Definition dirs1 : gset string :=
  list_to_set (Fs.ancestors "/home/user/dyad-apps/demo/src").

Definition versioned : World :=
  mkWorld [app1] messages1 files1 dirs1
    {[ "/home/user/dyad-apps/demo/.git" := repo1 ]}
    1700000000000 ∅ 0 ∅ (mkSpawn (Some 4242) EmptyString None) ∅ [].

(** The same after a preview of the first version: [HEAD] is detached. *)
Definition previewing : World :=
  (checkoutVersionService 1 v1 versioned).2.

(** The same with a conversation that predates the tagging of
    messages. *)
Definition untracked : World :=
  set_messages
    [ mkMessage 1 10 None "make me an app"; mkMessage 5 11 None "another chat" ]
    versioned.

(** A repository that has just been initialised: [HEAD] names a branch
    that has no commit yet. *)
Definition unborn : World :=
  set_repos
    {[ "/home/user/dyad-apps/demo/.git" := mkRepo ∅ ∅ (Symbolic "main") ∅ ]}
    versioned.

(** A long history: [chain n] has [S n] commits. *)
Fixpoint chain (n : nat) : commit :=
  match n with
  | O => mkCommit (oid_of_nat 0) "commit 0" author 0 tree1 None
  | S k => mkCommit (oid_of_nat n) ("commit " +:+ pretty n) author (Z.of_nat n)
             tree1 (Some (chain k))
  end.

Definition long_lived : World :=
  set_repos
    {[ "/home/user/dyad-apps/demo/.git" :=
         mkRepo (list_to_map ((λ c, (c_oid c, c)) <$> Git.history (chain 999)))
           {[ "main" := chain 999 ]} (Symbolic "main") tree1 ]}
    versioned.









End Demo.

(** ** [app_handlers.ts]: the loop of the [reset-all] handler *)

(** [for (const appId of runningAppIds) { try { await
    stopAppService(appId) } catch { warn } }]: what the handler does
    before it calls [resetAllService].  [runningAppIds] is
    [Array.from(runningApps.keys())], the apps that have an entry, in the
    order in which they were registered. *)
Definition stopAllBeforeReset {env : Env} (runningAppIds : list Z) : M unit :=
  forM_ (λ appId, try_catch (stopAppService appId >> ret tt) (λ _, ret tt))
    runningAppIds.

(** ** Vocabulary of the further statements *)

(** The registry is well formed: every entry refers to an allocated
    process whose listeners were attached for that app, no generation
    exceeds the counter, and no two apps share a generation. *)
Definition registry_ok (w : World) : Prop :=
  (∀ appId entry,
     runningApps w !! appId = Some entry →
     processId entry ≤ processCounter w
     ∧ ∃ p, os_procs w !! process entry = Some p ∧ listeners p = Some appId)
  ∧ (∀ a b ea eb,
       runningApps w !! a = Some ea → runningApps w !! b = Some eb →
       processId ea = processId eb → a = b).

(** From [w] to [w'] the registry only loses entries, the counter does
    not go down and the processes keep their listeners. *)
Definition winds_down (w w' : World) : Prop :=
  processCounter w ≤ processCounter w'
  ∧ (∀ a e, runningApps w' !! a = Some e → runningApps w !! a = Some e)
  ∧ (∀ h p, os_procs w !! h = Some p →
            ∃ p', os_procs w' !! h = Some p' ∧ listeners p' = listeners p).

(** A result that is not an error. *)
Definition is_ok {A} (r : result A) : bool :=
  match r with Ok _ => true | Err _ => false end.

(** From [w] to [v] the tables, the files, the repositories, the clock,
    the counter and the ports are the same. *)
Definition quiet (w v : World) : Prop :=
  (db_apps v, db_messages v, fs_files v, fs_dirs v, git_repos v, clock v,
   processCounter v, os_spawn v, busy_ports v)
  = (db_apps w, db_messages w, fs_files w, fs_dirs w, git_repos w, clock w,
     processCounter w, os_spawn w, busy_ports w).

(** Nothing is at path [q]: no file, no directory, no repository. *)
Definition nothing_at (w : World) (q : string) : Prop :=
  fs_files w !! q = None ∧ (q ∉ fs_dirs w) ∧ git_repos w !! q = None.

(** What is at path [q] is the same in [w] and [w']. *)
Definition same_at (w w' : World) (q : string) : Prop :=
  fs_files w' !! q = fs_files w !! q
  ∧ (q ∈ fs_dirs w' ↔ q ∈ fs_dirs w)
  ∧ git_repos w' !! q = git_repos w !! q.

(** The [apps] table has one row per id, per name and per path. *)
Definition apps_unique (w : World) : Prop :=
  NoDup (app_id <$> db_apps w)
  ∧ NoDup (app_name <$> db_apps w)
  ∧ NoDup (app_path <$> db_apps w).

(** From [w] to [w'] no repository has gained or lost a commit or had a
    branch moved, and none has appeared or disappeared. *)
Definition history_kept (w w' : World) : Prop :=
  ∀ g, match git_repos w !! g with
       | Some r => ∃ r', git_repos w' !! g = Some r'
                         ∧ objects r' = objects r ∧ branches r' = branches r
       | None => git_repos w' !! g = None
       end.

(** Every path of the tree is one that [path.join] leaves as it is
    under [dir]. *)
Definition plain (dir : string) (tree : gmap string string) : Prop :=
  map_Forall (λ p _, Path.join dir p = Fs.as_dir dir +:+ p) tree.

(** ** More worlds: installed dependencies, two apps *)

Module Scenes.

(** App 1 is running, with its dependencies installed and a repository
    of its own. *)
Definition installed : World :=
  mkWorld [Demo.app1] []
    {[ "/home/user/dyad-apps/demo/package.json" := "{}";
       "/home/user/dyad-apps/demo/node_modules/react/index.js" := "module.exports = {}" ]}
    (list_to_set (Fs.ancestors "/home/user/dyad-apps/demo/node_modules/react"))
    {[ "/home/user/dyad-apps/demo/.git" := Demo.repo1 ]}
    1700000000000
    {[ 1 := mkEntry 0%nat 1 ]} 1
    {[ 0%nat := mkProc (Some 4242) None None EmptyString None (Some 1) ]}
    (mkSpawn (Some 4243) EmptyString None) {[ 32100 ]} [].

Definition app2 : App := mkApp 2 "other" "other".

(** The same with a second app in the table. *)
Definition two_apps : World :=
  AppsTable.set_apps [Demo.app1; app2] installed.

End Scenes.

(** * Properties *)

(** ** Paths *)

Example join_plain :
  Path.join "/home/u/dyad-apps/app" "src/App.tsx"
  = "/home/u/dyad-apps/app/src/App.tsx".
Proof. reflexivity. Qed.

Example join_dotdot :
  Path.join "/home/u/dyad-apps/app" "../../.ssh/id_rsa" = "/home/u/.ssh/id_rsa".
Proof. reflexivity. Qed.

Example join_sibling :
  Path.join "/home/u/dyad-apps/app" "../app2/x" = "/home/u/dyad-apps/app2/x".
Proof. reflexivity. Qed.

Example join_root : Path.join "/a" "../../.." = "/".
Proof. reflexivity. Qed.

Example join_rel : Path.join "a" "../../b/" = "../b/".
Proof. reflexivity. Qed.

Example dirname_file :
  Path.dirname "/home/u/app/src/App.tsx" = "/home/u/app/src".
Proof. reflexivity. Qed.

Example dirname_top : Path.dirname "/x" = "/".
Proof. reflexivity. Qed.

Example dirname_rel : Path.dirname "x" = ".".
Proof. reflexivity. Qed.

Example dirname_trailing : Path.dirname "/a/b/" = "/a".
Proof. reflexivity. Qed.

(** ** Running and stopping apps *)

Section AppExecutionFacts.
Context {env : Env}.

Lemma executeAppLocalNode_err appPath appId w msg w1 :
  executeAppLocalNode appPath appId w = (Err msg, w1) →
  runningApps w1 = runningApps w ∧ outputs w1 = outputs w
  ∧ clock w1 = clock w ∧ processCounter w1 = processCounter w.
Proof.
  unfold executeAppLocalNode, spawn, bind, gets, throw, modify,
    processCounter_increment.
  simpl. destruct (no_pid _); intros [= <- <-]; done.
Qed.

(** C4.  Running an app that already has a registry entry answers
    success with the message "App already running."; the only change to
    the world is one informational output event: no process is spawned
    and the registry entry stays as it was. *)
Theorem run_already_running (appId : Z) (w : World) (entry : RunningAppEntry) :
  runningApps w !! appId = Some entry →
  let w' := set_outputs
    (outputs w ++ [mkOutput info "App is already running." appId (clock w)]) w in
  runAppService appId w = (Ok (mkResult true (Some "App already running.")), w')
  ∧ runningApps w' !! appId = Some entry
  ∧ runningApps w' = runningApps w
  ∧ os_procs w' = os_procs w
  ∧ processCounter w' = processCounter w.
Proof.
  intros Hentry w'. split; [|done].
  unfold runAppService, withLock, bind, gets, sendOutput, modify, ret.
  rewrite Hentry. rewrite bool_decide_eq_true_2 by eauto. done.
Qed.

(** C6.  When the set-up of a run fails, the call fails with the wrapped
    message, one client-error output event is emitted, and the registry
    has no entry for the app afterwards; the handler removes the entry
    of the app whenever it carries the current generation. *)
Theorem run_setup_failure (appId : Z) (w w1 : World) (app : App) (msg : string) :
  runningApps w !! appId = None →
  find (λ a, bool_decide (app_id a = appId)) (db_apps w) = Some app →
  (killProcessOnPort 32100 >>
   executeAppLocalNode (getDyadAppPath (app_path app)) appId) w = (Err msg, w1) →
  (∃ w2,
     runAppService appId w
     = (Err ("Failed to run app " +:+ pretty appId +:+ ": " +:+ msg), w2)
     ∧ runningApps w2 !! appId = None
     ∧ outputs w2
       = (outputs w ++ [mkOutput client_error ("Failed to run app: " +:+ msg)
                          appId (clock w)])%list)
  ∧ (∀ (v : World) (entry : RunningAppEntry),
       runningApps v !! appId = Some entry →
       processId entry = processCounter v →
       runningApps (cleanupFailedRun appId v).2 !! appId = None).
Proof.
  intros Hnone Happ Hsetup. split.
  - unfold bind in Hsetup. simpl in Hsetup.
    destruct (executeAppLocalNode _ _ _) as [[[]|e] w1'] eqn:Hexec;
      simplify_eq.
    pose proof (executeAppLocalNode_err _ _ _ _ _ Hexec)
      as (Hreg & Hout & Hclock & _).
    simpl in *.
    eexists. split; [|split].
    + unfold runAppService, withLock, bind at 1, gets. rewrite Hnone.
      rewrite bool_decide_eq_false_2 by (by intros [? ?]).
      unfold bind at 1, Db.findApp, gets. rewrite Happ.
      unfold try_catch, bind at 1. simpl.
      unfold bind at 1. rewrite Hexec.
      unfold bind, cleanupFailedRun, modify, sendOutput, throw. simpl.
      reflexivity.
    + simpl. rewrite Hreg, Hnone. simpl. by rewrite Hreg.
    + simpl. rewrite Hreg, Hnone. simpl. by rewrite Hout, Hclock.
  - intros v entry Hentry Hgen. unfold cleanupFailedRun, modify. simpl.
    rewrite Hentry. rewrite decide_True by done. simpl.
    apply lookup_delete_eq.
Qed.

Lemma removeAppIfCurrentProcess_gone appId proc w entry :
  runningApps w !! appId = None
  ∨ (runningApps w !! appId = Some entry ∧ process entry = proc) →
  runningApps (removeAppIfCurrentProcess appId proc w).2 !! appId = None.
Proof.
  unfold removeAppIfCurrentProcess, modify. simpl.
  intros [Hnone | [Hsome Hproc]].
  - by rewrite Hnone.
  - rewrite Hsome, decide_True by done. simpl. apply lookup_delete_eq.
Qed.

Lemma removeAppIfCurrentProcess_keeps appId' proc' appId w entry :
  runningApps w !! appId = Some entry →
  runningApps (removeAppIfCurrentProcess appId' proc' w).2 !! appId = None
  ∨ runningApps (removeAppIfCurrentProcess appId' proc' w).2 !! appId = Some entry.
Proof.
  unfold removeAppIfCurrentProcess, modify. simpl. intros Hsome.
  destruct (runningApps w !! appId') as [e'|]; [|by right].
  destruct (decide _); [|by right]. simpl.
  destruct (decide (appId' = appId)) as [->|Hne].
  - left. apply lookup_delete_eq.
  - right. by rewrite lookup_delete_ne.
Qed.

Lemma killProcess_registry proc w r w' appId entry :
  killProcess proc w = (r, w') →
  runningApps w !! appId = Some entry →
  runningApps w' !! appId = None ∨ runningApps w' !! appId = Some entry.
Proof.
  unfold killProcess, bind at 1, gets. intros Hkill Hsome.
  destruct (os_procs w !! proc) as [p|]; [|unfold throw in Hkill; simplify_eq; by right].
  destruct (kill_error p); [unfold throw in Hkill; simplify_eq; by right|].
  unfold bind at 1, modify in Hkill.
  destruct (listeners p) as [appId'|].
  - unfold closeListener, bind, sendOutput, modify in Hkill.
    set (v := set_procs _ w) in *.
    destruct (removeAppIfCurrentProcess_keeps appId' proc appId v entry Hsome)
      as [Hr|Hr].
    + left. unfold removeAppIfCurrentProcess, modify in *. simpl in *.
      simplify_eq. exact Hr.
    + right. unfold removeAppIfCurrentProcess, modify in *. simpl in *.
      simplify_eq. exact Hr.
  - unfold ret in Hkill. simplify_eq. by right.
Qed.

Lemma stopAppService_unregisters appId w r w' :
  stopAppService appId w = (r, w') → runningApps w' !! appId = None.
Proof.
  unfold stopAppService, withLock, bind at 1, gets.
  destruct (runningApps w !! appId) as [entry|] eqn:Hentry.
  - unfold bind at 1. destruct (has_exited _).
    + unfold bind, modify, ret. intros [= <- <-]. apply lookup_delete_eq.
    + unfold try_catch, bind at 1.
      destruct (killProcess (process entry) w) as [[[]|e] v] eqn:Hkill.
      * pose proof (killProcess_registry _ _ _ _ _ _ Hkill Hentry) as Hv.
        unfold bind at 1.
        pose proof (removeAppIfCurrentProcess_gone appId (process entry) v entry)
          as Hgone.
        destruct (removeAppIfCurrentProcess appId (process entry) v)
          as [[[]|e] v'] eqn:Hrm; [|unfold removeAppIfCurrentProcess, modify in Hrm; simplify_eq].
        unfold bind, killProcessOnPort, modify, ret. intros [= <- <-].
        simpl in *. apply Hgone. destruct Hv; eauto.
      * pose proof (killProcess_registry _ _ _ _ _ _ Hkill Hentry) as Hv.
        unfold bind at 1.
        pose proof (removeAppIfCurrentProcess_gone appId (process entry) v entry)
          as Hgone.
        destruct (removeAppIfCurrentProcess appId (process entry) v)
          as [[[]|e'] v'] eqn:Hrm; [|unfold removeAppIfCurrentProcess, modify in Hrm; simplify_eq].
        unfold throw. intros [= <- <-].
        simpl in *. apply Hgone. destruct Hv; eauto.
  - unfold ret. by intros [= <- <-].
Qed.

(** C5.  Stopping is idempotent.  With no registry entry the call
    answers success ("App not running.") and leaves the world as it was;
    with an entry whose process has already exited it removes the entry
    and answers success; and whatever a first stop did, a second stop
    right after it answers success and changes nothing. *)
Theorem stop_idempotent (appId : Z) (w : World) :
  (runningApps w !! appId = None →
   stopAppService appId w = (Ok (mkResult true (Some "App not running.")), w))
  ∧ (∀ (entry : RunningAppEntry) (p : ChildProcess),
       runningApps w !! appId = Some entry →
       os_procs w !! process entry = Some p →
       is_Some (exitCode p) ∨ is_Some (signalCode p) →
       stopAppService appId w
       = (Ok (mkResult true (Some "Process already exited.")),
          set_runningApps (delete appId (runningApps w)) w))
  ∧ (∀ (r1 : result ServiceResult) (w1 : World),
       stopAppService appId w = (r1, w1) →
       stopAppService appId w1
       = (Ok (mkResult true (Some "App not running.")), w1)).
Proof.
  assert (Habsent : ∀ v, runningApps v !! appId = None →
    stopAppService appId v = (Ok (mkResult true (Some "App not running.")), v)).
  { intros v Hv. unfold stopAppService, withLock, bind, gets. by rewrite Hv. }
  split; [by apply Habsent|]. split.
  - intros entry p Hentry Hp Hexit.
    unfold stopAppService, withLock, bind at 1, gets. rewrite Hentry.
    unfold bind at 1. rewrite Hp.
    assert (has_exited (Some p) = true) as ->.
    { unfold has_exited. simpl. destruct Hexit as [Hx|Hx].
      - by rewrite (bool_decide_eq_true_2 _ Hx).
      - rewrite (bool_decide_eq_true_2 _ Hx). by rewrite orb_true_r. }
    reflexivity.
  - intros r1 w1 Hstop. apply Habsent. by eapply stopAppService_unregisters.
Qed.

End AppExecutionFacts.

Lemma run_already_running_witness :
  runAppService (env := Demo.env) 1 Demo.running
  = (Ok (mkResult true (Some "App already running.")),
     set_outputs [mkOutput info "App is already running." 1 1700000000000]
       Demo.running).
Proof.
  apply (run_already_running (env := Demo.env) 1 Demo.running (mkEntry 0%nat 1)).
  reflexivity.
Defined.

Lemma stop_idempotent_witness :
  stopAppService (env := Demo.env) 1 Demo.idle
  = (Ok (mkResult true (Some "App not running.")), Demo.idle)
  ∧ stopAppService (env := Demo.env) 1 Demo.exited
    = (Ok (mkResult true (Some "Process already exited.")),
       set_runningApps ∅ Demo.exited)
  ∧ stopAppService (env := Demo.env) 1 (stopAppService (env := Demo.env) 1 Demo.running).2
    = (Ok (mkResult true (Some "App not running.")),
       (stopAppService (env := Demo.env) 1 Demo.running).2)
  ∧ stopAppService (env := Demo.env) 1 (stopAppService (env := Demo.env) 1 Demo.stubborn).2
    = (Ok (mkResult true (Some "App not running.")),
       (stopAppService (env := Demo.env) 1 Demo.stubborn).2).
Proof.
  split; [|split; [|split]].
  - apply (proj1 (stop_idempotent (env := Demo.env) 1 Demo.idle)). reflexivity.
  - apply (proj1 (proj2 (stop_idempotent (env := Demo.env) 1 Demo.exited))
             (mkEntry 0%nat 1)
             (mkProc (Some 4242) (Some 1) None EmptyString None (Some 1)));
      [reflexivity | reflexivity | left; eexists; reflexivity].
  - apply (proj2 (proj2 (stop_idempotent (env := Demo.env) 1 Demo.running))
             (stopAppService (env := Demo.env) 1 Demo.running).1).
    vm_compute. reflexivity.
  - apply (proj2 (proj2 (stop_idempotent (env := Demo.env) 1 Demo.stubborn))
             (stopAppService (env := Demo.env) 1 Demo.stubborn).1).
    vm_compute. reflexivity.
Defined.

Lemma run_setup_failure_witness :
  ∃ w2,
    runAppService (env := Demo.env) 1 Demo.no_spawn
    = (Err "Failed to run app 1: Failed to spawn process for app 1. Error: sh: not found",
       w2)
    ∧ runningApps w2 !! 1 = None
    ∧ outputs w2
      = [mkOutput client_error
           "Failed to run app: Failed to spawn process for app 1. Error: sh: not found"
           1 1700000000000].
Proof.
  apply (proj1 (run_setup_failure (env := Demo.env) 1 Demo.no_spawn
    ((killProcessOnPort 32100 >>
      executeAppLocalNode Demo.appPath1 1) Demo.no_spawn).2
    Demo.app1
    "Failed to spawn process for app 1. Error: sh: not found"
    eq_refl eq_refl eq_refl)).
Defined.

(** What stopping does to a live process: it is killed, its close listener
    unregisters it and reports, and the port is freed. *)
Example stop_running :
  let '(r, w) := stopAppService (env := Demo.env) 1 Demo.running in
  r = Ok (mkResult true None)
  ∧ runningApps w = ∅
  ∧ (signalCode <$> os_procs w !! 0%nat) = Some (Some "SIGTERM")
  ∧ busy_ports w = ∅
  ∧ outputs w = [mkOutput info "App process closed with code null, signal SIGTERM."
                   1 1700000000000].
Proof. vm_compute. repeat split. Qed.

(** A process that cannot be killed: the call fails, the entry is removed
    all the same. *)
Example stop_stubborn :
  let '(r, w) := stopAppService (env := Demo.env) 1 Demo.stubborn in
  r = Err "Failed to stop app 1: kill EPERM" ∧ runningApps w = ∅.
Proof. vm_compute. repeat split. Qed.

(** A fresh run registers the process under the next generation. *)
Example run_idle :
  let '(r, w) := runAppService (env := Demo.env) 1 Demo.idle in
  r = Ok (mkResult true None)
  ∧ runningApps w !! 1 = Some (mkEntry 0%nat 1)
  ∧ processCounter w = 1
  ∧ outputs w = [].
Proof. vm_compute. repeat split. Qed.

(** ** Frames: what an operation leaves alone *)

Lemma repo_frame_refl r : repo_frame r r.
Proof. done. Qed.

Lemma repo_frame_trans r1 r2 r3 :
  repo_frame r1 r2 → repo_frame r2 r3 → repo_frame r1 r3.
Proof. unfold repo_frame. intros (-> & -> & ->) (-> & -> & ->). done. Qed.

Lemma touches_refl g paths w : touches g paths w w.
Proof.
  unfold touches. repeat split; try done.
  destruct (git_repos w !! g) as [r|]; [|done].
  exists r. split; [done|]. split; [apply repo_frame_refl|done].
Qed.

Lemma touches_trans g paths1 paths2 w1 w2 w3 :
  touches g paths1 w1 w2 → touches g paths2 w2 w3 →
  touches g (paths1 ++ paths2) w1 w3.
Proof.
  intros (Hrest1 & Hoth1 & Hrepo1 & Hfiles1 & Hdirs1)
         (Hrest2 & Hoth2 & Hrepo2 & Hfiles2 & Hdirs2).
  unfold touches. split; [congruence|]. split.
  { intros g' Hg'. rewrite Hoth2, Hoth1; done. }
  split.
  { destruct (git_repos w1 !! g) as [r1|].
    - destruct Hrepo1 as (r2 & Hr2 & Hframe1 & Hidx1). rewrite Hr2 in Hrepo2.
      destruct Hrepo2 as (r3 & Hr3 & Hframe2 & Hidx2).
      exists r3. split; [done|]. split; [by eapply repo_frame_trans|].
      by etrans.
    - by rewrite Hrepo1 in Hrepo2. }
  split.
  { intros q Hq. rewrite Hfiles2, Hfiles1; [done|..];
      intros Hin; apply Hq; apply elem_of_app; auto. }
  by etrans.
Qed.

Lemma touches_weaken g paths paths' w w' :
  paths ⊆ paths' → touches g paths w w' → touches g paths' w w'.
Proof.
  intros Hsub (Hrest & Hoth & Hrepo & Hfiles & Hdirs).
  unfold touches. repeat split; try done.
  intros q Hq. apply Hfiles. intros Hin. apply Hq. by apply Hsub.
Qed.

Section FsFacts.

Lemma mkdir_touches g dir w r w' :
  Fs.mkdir dir w = (r, w') → touches g [] w w'.
Proof.
  unfold Fs.mkdir. destruct (existsb _ _); intros [= <- <-].
  - apply touches_refl.
  - unfold touches. simpl. repeat split; try done.
    + destruct (git_repos w !! g) as [r|]; [|done].
      exists r. split; [done|]. split; [apply repo_frame_refl|done].
    + set_solver.
Qed.


(** [mkdir] with [recursive] leaves every directory on the way in
    place. *)
Lemma mkdir_all dir w w' :
  Fs.mkdir dir w = (Ok tt, w') →
  ∀ d, d ∈ Fs.ancestors dir → Fs.is_dir w' d = true.
Proof.
  unfold Fs.mkdir. destruct (existsb _ _); intros [= <-] d Hd.
  unfold Fs.is_dir. simpl.
  rewrite bool_decide_eq_true_2; [done|].
  by apply elem_of_union_l, elem_of_list_to_set.
Qed.

Lemma writeFile_touches g p content w r w' :
  Fs.writeFile p content w = (r, w') → touches g [p] w w'.
Proof.
  unfold Fs.writeFile.
  destruct (Fs.is_dir w p); [intros [= <- <-]; apply touches_refl|].
  destruct (Fs.is_dir w (Path.dirname p)); intros [= <- <-];
    [|apply touches_refl].
  unfold touches. simpl. repeat split; try done.
  - destruct (git_repos w !! g) as [r|]; [|done].
    exists r. split; [done|]. split; [apply repo_frame_refl|done].
  - intros q Hq. apply lookup_insert_ne. set_solver.
Qed.

Lemma writeFile_ok p content w w' :
  Fs.writeFile p content w = (Ok tt, w') →
  fs_files w' !! p = Some content ∧ fs_dirs w' = fs_dirs w.
Proof.
  unfold Fs.writeFile.
  destruct (Fs.is_dir w p); [done|].
  destruct (Fs.is_dir w (Path.dirname p)); intros [= <-]. simpl.
  by rewrite lookup_insert_eq.
Qed.

Lemma unlink_touches g p w r w' :
  Fs.unlink p w = (r, w') → touches g [p] w w'.
Proof.
  unfold Fs.unlink.
  destruct (Fs.is_file w p); intros [= <- <-]; [|apply touches_refl].
  unfold touches. simpl. repeat split; try done.
  - destruct (git_repos w !! g) as [r|]; [|done].
    exists r. split; [done|]. split; [apply repo_frame_refl|done].
  - intros q Hq. apply lookup_delete_ne. set_solver.
Qed.

Lemma unlink_ok p w w' :
  Fs.unlink p w = (Ok tt, w') → fs_files w' !! p = None.
Proof.
  unfold Fs.unlink. destruct (Fs.is_file w p); intros [= <-]. simpl.
  apply lookup_delete_eq.
Qed.

Lemma is_dir_mono w w' d :
  fs_dirs w ⊆ fs_dirs w' → Fs.is_dir w d = true → Fs.is_dir w' d = true.
Proof.
  unfold Fs.is_dir. intros Hsub.
  rewrite !orb_true_iff, !bool_decide_eq_true.
  intros [[Hd| ->]| ->]; auto.
Qed.

End FsFacts.

(** ** Git *)

Section GitFacts.

Lemma string_app_assoc (a b c : string) : a +:+ b +:+ c = (a +:+ b) +:+ c.
Proof.
  induction a as [|x a IH]; [reflexivity|].
  change (String x (a +:+ b +:+ c) = String x ((a +:+ b) +:+ c)).
  by rewrite IH.
Qed.

Lemma app_cancel_l (p r1 r2 : string) : p +:+ r1 = p +:+ r2 → r1 = r2.
Proof.
  induction p as [|a p IH]; [done|].
  change (String a (p +:+ r1) = String a (p +:+ r2) → r1 = r2).
  intros [= Heq]. by apply IH.
Qed.

Lemma prefix_strip (p s : string) :
  String.prefix p s = true ↔ ∃ rest, s = p +:+ rest.
Proof.
  revert s. induction p as [|a p IH]; intros s.
  - destruct s; (split; [intros _; by eexists|done]).
  - destruct s as [|b s]; simpl.
    + split; [done|]. intros [rest Hrest].
      change (String a p +:+ rest) with (String a (p +:+ rest)) in Hrest. done.
    + destruct (Ascii.ascii_dec a b) as [->|Hne].
      * rewrite IH. split; intros [rest Hrest]; exists rest.
        -- change (String b p +:+ rest) with (String b (p +:+ rest)).
           by rewrite Hrest.
        -- change (String b p +:+ rest) with (String b (p +:+ rest)) in Hrest.
           by injection Hrest.
      * split; [done|]. intros [rest Hrest].
        change (String a p +:+ rest) with (String a (p +:+ rest)) in Hrest.
        injection Hrest as Hab _. by destruct Hne.
Qed.

Lemma app_nil_r_string (p : string) : p +:+ EmptyString = p.
Proof.
  induction p as [|a p IH]; [done|].
  change (String a (p +:+ EmptyString) = String a p). by rewrite IH.
Qed.

Lemma strip_prefix_Some pre s rel :
  Git.strip_prefix pre s = Some rel ↔ s = pre +:+ rel.
Proof.
  revert s. induction pre as [|a pre IH]; intros s; simpl.
  - change (EmptyString +:+ rel) with rel. split; [by intros [= ->]|by intros ->].
  - change (String a pre +:+ rel) with (String a (pre +:+ rel)).
    destruct s as [|b s]; [done|].
    destruct (Ascii.eqb_spec a b) as [->|Hne].
    + rewrite IH. split; [by intros ->|by intros [= ->]].
    + split; [done|]. intros [= -> _]. done.
Qed.

(** A file of the working tree is the file that [path.join] addresses. *)
Lemma worktree_sound dir w rel content :
  Git.worktree dir w !! rel = Some content →
  fs_files w !! Path.join dir rel = Some content.
Proof.
  unfold Git.worktree. intros Hin.
  apply elem_of_list_to_map_2 in Hin.
  apply list_elem_of_omap in Hin as ([p c] & Hpc & Hentry).
  apply elem_of_map_to_list in Hpc.
  unfold Git.worktree_entry in Hentry. simpl in Hentry.
  destruct (Git.strip_prefix _ _) as [rel'|]; [|done].
  destruct (decide _) as [Hjoin|]; [|done].
  by simplify_eq.
Qed.

Lemma worktree_keys_NoDup dir w :
  NoDup (omap (Git.worktree_entry dir) (map_to_list (fs_files w))).*1.
Proof.
  pose proof (NoDup_fst_map_to_list (fs_files w)) as Hnd.
  induction (map_to_list (fs_files w)) as [|[p c] l IH]; simpl; [constructor|].
  apply NoDup_cons in Hnd as [Hp Hnd]. specialize (IH Hnd).
  destruct (Git.worktree_entry dir (p, c)) as [[rel c']|] eqn:Hentry; [|done].
  simpl. apply NoDup_cons. split; [|done].
  intros Hin. apply Hp.
  apply list_elem_of_fmap in Hin as ([rel2 c2] & Hrel & Hin). simpl in Hrel.
  subst rel2.
  apply list_elem_of_omap in Hin as ([p2 c2'] & Hin2 & Hentry2).
  unfold Git.worktree_entry in Hentry, Hentry2. simpl in *.
  destruct (Git.strip_prefix _ p) as [r1|]; [|done].
  destruct (decide _) as [Hj1|]; [|done].
  destruct (Git.strip_prefix _ p2) as [r2|]; [|done].
  destruct (decide _) as [Hj2|]; [|done].
  simplify_eq. apply list_elem_of_fmap.
  match goal with
  | Hin2 : (Path.join dir rel, ?c) ∈ _ |- _ => by exists (Path.join dir rel, c)
  end.
Qed.

(** The files of the working tree lie at paths that [path.join] leaves
    as they are. *)
Lemma worktree_plain dir w rel content :
  Git.worktree dir w !! rel = Some content →
  Path.join dir rel = Fs.as_dir dir +:+ rel.
Proof.
  unfold Git.worktree. intros Hin.
  apply elem_of_list_to_map_2 in Hin.
  apply list_elem_of_omap in Hin as ([p c] & Hpc & Hentry).
  unfold Git.worktree_entry in Hentry. simpl in Hentry.
  destruct (Git.strip_prefix _ _) as [rel'|] eqn:Hstrip; [|done].
  destruct (decide _) as [Hjoin|]; [|done].
  apply strip_prefix_Some in Hstrip. simplify_eq. by rewrite Hjoin.
Qed.

(** Conversely, a file at a path that [path.join] leaves as it is
    belongs to the working tree. *)
Lemma worktree_complete dir w rel content :
  Path.join dir rel = Fs.as_dir dir +:+ rel →
  fs_files w !! Path.join dir rel = Some content →
  Git.worktree dir w !! rel = Some content.
Proof.
  intros Hplain Hfile. unfold Git.worktree.
  apply elem_of_list_to_map_1; [apply worktree_keys_NoDup|].
  apply list_elem_of_omap. exists (Path.join dir rel, content).
  split; [by apply elem_of_map_to_list|].
  unfold Git.worktree_entry. simpl.
  assert (Git.strip_prefix (Fs.as_dir dir) (Path.join dir rel) = Some rel) as ->.
  { by apply strip_prefix_Some. }
  by rewrite decide_True.
Qed.

Lemma getRepo_inv dir w r w' :
  Git.getRepo dir w = (Ok r, w') →
  w' = w ∧ git_repos w !! Git.gitdir dir = Some r.
Proof.
  unfold Git.getRepo. destruct (git_repos w !! _); intros [= <- <-]; done.
Qed.

Lemma getRepo_err dir w e w' :
  Git.getRepo dir w = (Err e, w') →
  w' = w ∧ git_repos w !! Git.gitdir dir = None.
Proof.
  unfold Git.getRepo. destruct (git_repos w !! _); intros [= <- <-]; done.
Qed.

Lemma remove_touches dir filepath w res w' :
  Git.remove dir filepath w = (res, w') → touches (Git.gitdir dir) [] w w'.
Proof.
  unfold Git.remove, bind.
  destruct (Git.getRepo dir w) as [[r|e] v] eqn:Hrepo.
  - apply getRepo_inv in Hrepo as [-> Hr].
    unfold Git.putRepo, modify. intros [= <- <-].
    unfold touches. simpl. repeat split; try done.
    + intros g' Hg'. by rewrite lookup_insert_ne.
    + rewrite Hr. eexists. rewrite lookup_insert_eq. split; [done|].
      split; [done|]. simpl. apply delete_subseteq.
  - apply getRepo_err in Hrepo as [-> Hr]. intros [= <- <-].
    apply touches_refl.
Qed.

Lemma remove_ok dir filepath w w' :
  Git.remove dir filepath w = (Ok tt, w') →
  ∃ r', git_repos w' !! Git.gitdir dir = Some r' ∧ index r' !! filepath = None.
Proof.
  unfold Git.remove, bind.
  destruct (Git.getRepo dir w) as [[r|e] v] eqn:Hrepo; [|done].
  apply getRepo_inv in Hrepo as [-> Hr].
  unfold Git.putRepo, modify. intros [= <-]. simpl.
  eexists. rewrite lookup_insert_eq. split; [done|]. simpl.
  apply lookup_delete_eq.
Qed.

Lemma readBlob_inv dir oid filepath w res w' :
  Git.readBlob dir oid filepath w = (res, w') →
  w' = w
  ∧ ∀ blob, res = Ok blob →
      ∃ r c, git_repos w !! Git.gitdir dir = Some r
             ∧ objects r !! oid = Some c ∧ c_tree c !! filepath = Some blob.
Proof.
  unfold Git.readBlob, bind.
  destruct (Git.getRepo dir w) as [[r|e] v] eqn:Hrepo.
  - apply getRepo_inv in Hrepo as [-> Hr].
    destruct (objects r !! oid) as [c|] eqn:Hc;
      [|unfold throw; intros [= <- <-]; done].
    destruct (c_tree c !! filepath) as [blob|] eqn:Hblob;
      unfold ret, throw; intros [= <- <-]; [|done].
    split; [done|]. intros ? [= <-]. eauto.
  - apply getRepo_err in Hrepo as [-> Hr]. intros [= <- <-]. done.
Qed.

End GitFacts.

(** ** The revert loop *)

Section RevertLoopFacts.

Lemma touches_blob_at g paths w w' oid filepath :
  touches g paths w w' → blob_at w' g oid filepath = blob_at w g oid filepath.
Proof.
  intros (_ & _ & Hrepo & _). unfold blob_at.
  destruct (git_repos w !! g) as [r|].
  - destruct Hrepo as (r' & -> & (Hobj & _) & _). simpl. by rewrite Hobj.
  - by rewrite Hrepo.
Qed.

Lemma touches_repo_Some g paths w w' :
  touches g paths w w' →
  is_Some (git_repos w !! g) → is_Some (git_repos w' !! g).
Proof.
  intros (_ & _ & Hrepo & _) [r Hr]. rewrite Hr in Hrepo.
  destruct Hrepo as (r' & -> & _). eauto.
Qed.

Lemma touches_index_None g paths w w' filepath :
  touches g paths w w' →
  (∃ r, git_repos w !! g = Some r ∧ index r !! filepath = None) →
  ∃ r', git_repos w' !! g = Some r' ∧ index r' !! filepath = None.
Proof.
  intros (_ & _ & Hrepo & _) (r & Hr & Hidx). rewrite Hr in Hrepo.
  destruct Hrepo as (r2 & Hr2 & _ & Hsub).
  exists r2. split; [done|]. by eapply lookup_weaken_None.
Qed.

Lemma readBlob_blob_at dir oid filepath w blob w' :
  Git.readBlob dir oid filepath w = (Ok blob, w') →
  w' = w ∧ blob_at w (Git.gitdir dir) oid filepath = Some blob.
Proof.
  intros Hread. apply readBlob_inv in Hread as [-> Hblob].
  split; [done|]. destruct (Hblob blob eq_refl) as (r & c & Hr & Hc & Ht).
  unfold blob_at. rewrite Hr. simpl. rewrite Hc. done.
Qed.

Lemma revertPath_touches appPath oid row w res w' :
  revertPath appPath oid row w = (res, w') →
  touches (Git.gitdir appPath) [fullPath_of appPath row] w w'.
Proof.
  destruct row as [[[filepath h] wd] st]. unfold revertPath, fullPath_of.
  simpl. set (full := Path.join appPath filepath).
  set (g := Git.gitdir appPath).
  destruct (revertBranch h wd).
  - unfold bind at 1.
    destruct (Git.readBlob _ _ _ w) as [[blob|e] v] eqn:Hread;
      apply readBlob_inv in Hread as [-> _];
      [|intros ?; simplify_eq; apply touches_refl].
    unfold bind.
    destruct (Fs.mkdir _ w) as [[[]|e] v] eqn:Hmk;
      pose proof (mkdir_touches g _ _ _ _ Hmk) as Hmk';
      [|intros ?; simplify_eq;
        by eapply touches_weaken; [|exact Hmk']; set_solver].
    intros Hwrite. apply (writeFile_touches g) in Hwrite.
    apply (touches_trans _ _ _ _ _ _ Hmk' Hwrite).
  - unfold bind at 1, Fs.existsSync, gets.
    destruct (_ || _ || _); unfold when;
      [|unfold ret; intros ?; simplify_eq; apply touches_refl].
    unfold bind.
    destruct (Fs.unlink _ w) as [[[]|e] v] eqn:Hun;
      pose proof (unlink_touches g _ _ _ _ Hun) as Hun';
      [|intros ?; by simplify_eq].
    unfold try_catch.
    destruct (Git.remove _ _ v) as [[[]|e] v'] eqn:Hrm;
      pose proof (remove_touches _ _ _ _ _ Hrm) as Hrm';
      unfold ret; intros ?; simplify_eq;
      (eapply touches_weaken; [|exact (touches_trans _ _ _ _ _ _ Hun' Hrm')]);
      set_solver.
  - unfold bind at 1.
    destruct (Git.readBlob _ _ _ w) as [[blob|e] v] eqn:Hread;
      apply readBlob_inv in Hread as [-> _];
      [|intros ?; simplify_eq; apply touches_refl].
    apply writeFile_touches.
  - unfold ret. intros ?; simplify_eq. apply touches_refl.
Qed.

Lemma revertLoop_touches appPath oid matrix w res w' :
  revertLoop appPath oid matrix w = (res, w') →
  touches (Git.gitdir appPath) (map (fullPath_of appPath) matrix) w w'.
Proof.
  unfold revertLoop. revert w.
  induction matrix as [|row rest IH]; intros w; simpl.
  - unfold ret. intros ?; simplify_eq. apply touches_refl.
  - unfold bind.
    destruct (revertPath _ _ row w) as [[[]|e] v] eqn:Hrow;
      apply revertPath_touches in Hrow.
    + intros Hrest. apply IH in Hrest.
      apply (touches_trans _ [_] _ _ _ _ Hrow Hrest).
    + intros ?; simplify_eq.
      eapply touches_weaken; [|exact Hrow].
      intros q Hq%list_elem_of_singleton. subst q. apply elem_of_cons. by left.
Qed.

Lemma revertPath_done appPath oid row w w' :
  revertPath appPath oid row w = (Ok tt, w') →
  row_done appPath oid row w w'.
Proof.
  destruct row as [[[filepath h] wd] st]. unfold revertPath, row_done.
  set (full := Path.join appPath filepath).
  set (g := Git.gitdir appPath).
  intros Hrun. split.
  - intros -> Hwd. unfold revertBranch in Hrun. simpl in Hrun.
    rewrite (proj2 (Z.eqb_neq wd 1) Hwd) in Hrun. simpl in Hrun.
    unfold bind at 1 in Hrun.
    destruct (Git.readBlob _ _ _ w) as [[blob|e] v] eqn:Hread; [|done].
    apply readBlob_blob_at in Hread as [-> Hblob].
    unfold bind in Hrun.
    destruct (Fs.mkdir _ w) as [[[]|e] v] eqn:Hmk; [|done].
    pose proof (mkdir_all _ _ _ Hmk) as Hall.
    pose proof (writeFile_ok _ _ _ _ Hrun) as [Hfile Hdirs].
    exists blob. split; [done|]. split; [done|].
    intros d Hd. eapply is_dir_mono; [|by apply Hall]. by rewrite Hdirs.
  - intros -> Hwd Hfile Hrepo. unfold revertBranch in Hrun. simpl in Hrun.
    rewrite (proj2 (Z.eqb_neq wd 0) Hwd) in Hrun. simpl in Hrun.
    unfold bind at 1, Fs.existsSync, gets in Hrun.
    assert (Fs.is_file w full = true) as Hisfile
      by (unfold Fs.is_file; by apply bool_decide_eq_true_2).
    rewrite Hisfile in Hrun. simpl in Hrun. unfold bind in Hrun.
    destruct (Fs.unlink _ w) as [[[]|e] v] eqn:Hun; [|done].
    pose proof (unlink_ok _ _ _ Hun) as Hgone.
    pose proof (unlink_touches g _ _ _ _ Hun) as Htouch.
    unfold try_catch in Hrun.
    destruct (Git.remove _ _ v) as [[[]|e] v'] eqn:Hrm.
    + pose proof (remove_touches _ _ _ _ _ Hrm) as (_ & _ & _ & Hfiles & _).
      unfold ret in Hrun. simplify_eq. split.
      * rewrite Hfiles; [done|set_solver].
      * by apply remove_ok in Hrm.
    + exfalso. unfold Git.remove, bind in Hrm.
      destruct (Git.getRepo appPath v) as [[r|e'] v2] eqn:Hget; [done|].
      apply getRepo_err in Hget as [_ Hnone].
      apply (touches_repo_Some _ _ _ _ Htouch) in Hrepo as [r Hr].
      fold g in Hnone. congruence.
Qed.

Lemma revertLoop_done appPath oid matrix w w1 :
  revertLoop appPath oid matrix w = (Ok tt, w1) →
  NoDup (map (fullPath_of appPath) matrix) →
  ∀ row, row ∈ matrix → row_done appPath oid row w w1.
Proof.
  unfold revertLoop. revert w.
  induction matrix as [|row0 rest IH]; intros w Hrun Hnd row Hin;
    [by apply elem_of_nil in Hin|].
  simpl in Hrun, Hnd. apply NoDup_cons in Hnd as [Hfresh Hnd].
  unfold bind in Hrun.
  destruct (revertPath _ _ row0 w) as [[[]|e] v] eqn:Hrow0; [|done].
  pose proof (revertPath_touches _ _ _ _ _ _ Hrow0) as Htouch0.
  pose proof (revertLoop_touches _ _ _ _ _ _ Hrun) as Htouch.
  apply elem_of_cons in Hin as [->|Hin].
  - apply revertPath_done in Hrow0.
    destruct row0 as [[[filepath h] wd] st]. unfold row_done in *.
    unfold fullPath_of in Hfresh. simpl in Hfresh.
    destruct Htouch as (_ & _ & Hrepo & Hfiles & Hdirs).
    destruct Hrow0 as [Hrestore Hdelete]. split.
    + intros Hh Hwd. destruct (Hrestore Hh Hwd) as (blob & Hb & Hf & Hd).
      exists blob. split; [done|]. split.
      * by rewrite Hfiles.
      * intros d Hin. eapply is_dir_mono; [done|by apply Hd].
    + intros Hh Hwd Hf Hr. destruct (Hdelete Hh Hwd Hf Hr) as (Hgone & r1 & Hr1 & Hidx).
      split; [by rewrite Hfiles|].
      rewrite Hr1 in Hrepo. destruct Hrepo as (r2 & Hr2 & _ & Hsub).
      exists r2. split; [done|]. by eapply lookup_weaken_None.
  - specialize (IH v Hrun Hnd row Hin).
    destruct row as [[[filepath h] wd] st]. unfold row_done in *.
    assert (Path.join appPath filepath ≠ fullPath_of appPath row0) as Hne.
    { intros Heq. apply Hfresh. rewrite <- Heq.
      apply list_elem_of_fmap. by exists (filepath, h, wd, st). }
    destruct IH as [Hrestore Hdelete]. split.
    + intros Hh Hwd. destruct (Hrestore Hh Hwd) as (blob & Hb & Hf & Hd).
      exists blob. split; [|done].
      by rewrite <- (touches_blob_at _ _ _ _ _ _ Htouch0).
    + intros Hh Hwd Hf Hr. apply Hdelete; try done.
      * destruct Htouch0 as (_ & _ & _ & Hfiles & _).
        rewrite Hfiles; [done|]. by intros Hq%list_elem_of_singleton.
      * by eapply touches_repo_Some.
Qed.

End RevertLoopFacts.

Section RevertFiles.
Context {env : Env}.

Lemma statusMatrix_inv dir ref w matrix w' :
  Git.statusMatrix dir ref w = (Ok matrix, w') →
  w' = w
  ∧ ∃ r c, git_repos w !! Git.gitdir dir = Some r
           ∧ Git.resolve r ref = Some c
           ∧ matrix
             = map (Git.statusRow (c_tree c) (Git.worktree dir w) (index r))
                 (filter (λ p, Git.skipped w dir (c_tree c) (index r) p = false)
                    (elements (dom (c_tree c) ∪ dom (Git.worktree dir w)
                               ∪ dom (index r)))).
Proof.
  unfold Git.statusMatrix, bind at 1.
  destruct (Git.getRepo dir w) as [[r|e] v] eqn:Hrepo; [|done].
  apply getRepo_inv in Hrepo as [-> Hr].
  destruct (Git.resolve r ref) as [c|] eqn:Hc; [|done].
  unfold gets. intros [= <- <-]. split; [done|].
  exists r, c. done.
Qed.

Lemma add_all_inv dir w w' :
  Git.add dir "." w = (Ok tt, w') →
  ∃ r, git_repos w !! Git.gitdir dir = Some r
       ∧ w' = set_repos
           (<[Git.gitdir dir :=
                mkRepo (objects r) (branches r) (head r)
                  (filter (λ e, Git.excluded w dir e.1 = false)
                     (Git.worktree dir w) ∪ index r)]>
              (git_repos w)) w.
Proof.
  unfold Git.add, bind at 1.
  destruct (Git.getRepo dir w) as [[r|e] v] eqn:Hrepo; [|done].
  apply getRepo_inv in Hrepo as [-> Hr].
  rewrite decide_True by done.
  unfold bind, gets, Git.putRepo, modify. intros [= <-]. eauto.
Qed.

(** A path lies at or below each of the paths on the way to it. *)
Lemma prefixes_go_below seen rest d :
  d ∈ Git.prefixes_go seen rest → Git.below d (seen +:+ rest) = true.
Proof.
  revert seen. induction rest as [|c rest IH]; intros seen; simpl.
  - intros Hd%list_elem_of_singleton. subst d. rewrite app_nil_r_string.
    unfold Git.below. by rewrite bool_decide_eq_true_2.
  - change (seen +:+ String c rest)
      with (seen +:+ String c EmptyString +:+ rest).
    rewrite string_app_assoc.
    destruct (Ascii.eqb_spec c Path.slash) as [->|Hne].
    + intros [Hd|Hin]%elem_of_cons; [|by apply IH].
      subst d. unfold Git.below. apply orb_true_iff. right.
      apply prefix_strip. by exists rest.
    + apply IH.
Qed.

Lemma prefixes_below p d : d ∈ Git.prefixes p → Git.below d p = true.
Proof. apply (prefixes_go_below EmptyString). Qed.

(** The walk of the matrix leaves out no path that the target or the
    index has. *)
Lemma tracked_not_skipped w dir (tree idx : gmap string string) p :
  is_Some (tree !! p) ∨ is_Some (idx !! p) →
  Git.skipped w dir tree idx p = false.
Proof.
  intros Hp. unfold Git.skipped. apply not_true_is_false.
  intros (d & Hd & Hskip)%existsb_exists.
  apply list_elem_of_In, prefixes_below in Hd.
  apply andb_true_iff in Hskip as [Hskip _].
  apply andb_true_iff in Hskip as [Htree Hidx].
  apply negb_true_iff in Htree, Hidx.
  assert (∀ m : gmap string string, is_Some (m !! p) → Git.reaches m d = true)
    as Hreach.
  { intros m Hm. unfold Git.reaches. apply existsb_exists. exists p.
    split; [|done]. apply list_elem_of_In, elem_of_elements.
    by apply elem_of_dom. }
  destruct Hp as [Hp|Hp]; apply Hreach in Hp; congruence.
Qed.

(** What is ignored depends on the files only. *)
Lemma excluded_ext dir w w' p :
  fs_files w' = fs_files w → Git.excluded w' dir p = Git.excluded w dir p.
Proof. unfold Git.excluded, Git.isIgnored. by intros ->. Qed.

(** What [git.add(".")] stages of the working directory. *)
Lemma staged_lookup dir w (idx : gmap string string) p content :
  Git.worktree dir w !! p = Some content →
  Git.excluded w dir p = false →
  (filter (λ e, Git.excluded w dir e.1 = false) (Git.worktree dir w) ∪ idx) !! p
  = Some content.
Proof.
  intros Hwt Hex. apply lookup_union_Some_l.
  by apply map_lookup_filter_Some_2.
Qed.

Lemma staged_lookup_None dir w (idx : gmap string string) p :
  Git.worktree dir w !! p = None → idx !! p = None →
  (filter (λ e, Git.excluded w dir e.1 = false) (Git.worktree dir w) ∪ idx) !! p
  = None.
Proof.
  intros Hwt Hidx. apply lookup_union_None. split; [|done].
  apply map_lookup_filter_None. by left.
Qed.

(** Rows for distinct paths that [path.join] leaves as they are address
    distinct files. *)
Lemma rows_NoDup dir (tree wt idx : gmap string string) (paths : list string) :
  NoDup paths →
  (∀ p, p ∈ paths → Path.join dir p = Fs.as_dir dir +:+ p) →
  NoDup (map (λ row : string * Z * Z * Z, Path.join dir row.1.1.1)
           (map (Git.statusRow tree wt idx) paths)).
Proof.
  intros Hnd Hplain. rewrite map_map. simpl. apply NoDup_fmap_2_strong; [|done].
  intros p1 p2 H1 H2 Heq.
  rewrite (Hplain p1 H1), (Hplain p2 H2) in Heq. by apply app_cancel_l in Heq.
Qed.

(** What a row of the status matrix says. *)
Lemma statusRow_in (tree wt idx : gmap string string) (paths : list string)
    (p : string) (h wd st : Z) :
  (p, h, wd, st) ∈ map (Git.statusRow tree wt idx) paths →
  p ∈ paths
  ∧ (h = 1 ↔ is_Some (tree !! p))
  ∧ (h = 0 ↔ tree !! p = None)
  ∧ (wd = 0 ↔ wt !! p = None)
  ∧ (wd = 1 ↔ is_Some (wt !! p) ∧ wt !! p = tree !! p).
Proof.
  intros Hin. apply list_elem_of_fmap in Hin as (p' & Hrow & Hin).
  unfold Git.statusRow in Hrow. injection Hrow as -> -> -> _.
  split; [done|].
  destruct (tree !! p') as [x|] eqn:Ht; destruct (wt !! p') as [y|] eqn:Hw;
    repeat split; try done; try (by intros [? ?]); try (by eauto);
    try (destruct (decide _); done);
    try (intros [_ ?]; by rewrite decide_True).
Qed.

(** The loop and the staging that follows it.  Let [matrix] be the status
    matrix of the working directory against the target version, its rows
    addressing distinct files, let the loop run over it to the end, and
    let [git.add(".")] follow.  Then, for every row: a path the target
    has and the working tree lacks or has differently holds the target's
    blob and every directory on the way to it exists; a path the target
    lacks and the working tree has is gone from the working tree and
    from the index.  The index after the staging is the one after the
    loop with the files laid over it that the working directory has and
    the staging does not leave out. *)
Lemma revertLoop_effect
    (appPath previousVersionId : string)
    (matrix : list (string * Z * Z * Z)) (w w1 w2 : World) :
  Git.statusMatrix appPath previousVersionId w = (Ok matrix, w) →
  NoDup (map (λ row, Path.join appPath row.1.1.1) matrix) →
  revertLoop appPath previousVersionId matrix w = (Ok tt, w1) →
  Git.add appPath "." w1 = (Ok tt, w2) →
  ∃ r1 r2,
    git_repos w1 !! Git.gitdir appPath = Some r1
    ∧ git_repos w2 !! Git.gitdir appPath = Some r2
    ∧ fs_files w2 = fs_files w1
    ∧ fs_dirs w2 = fs_dirs w1
    ∧ index r2
      = filter (λ e, Git.excluded w1 appPath e.1 = false)
          (Git.worktree appPath w1) ∪ index r1
    ∧ (∀ filepath headStatus workdirStatus stageStatus,
         (filepath, headStatus, workdirStatus, stageStatus) ∈ matrix →
         let fullPath := Path.join appPath filepath in
         (headStatus = 1 → workdirStatus ≠ 1 →
            ∃ blob,
              (Git.readBlob appPath previousVersionId filepath w).1 = Ok blob
              ∧ fs_files w1 !! fullPath = Some blob
              ∧ ∀ d, d ∈ Fs.ancestors (Path.dirname fullPath) →
                     Fs.is_dir w1 d = true)
         ∧ (headStatus = 0 → workdirStatus ≠ 0 →
              fs_files w1 !! fullPath = None
              ∧ index r1 !! filepath = None
              ∧ index r2 !! filepath = None)).
Proof.
  intros Hmatrix Hnd Hloop Hadd.
  apply statusMatrix_inv in Hmatrix as (_ & r & c & Hr & Hc & Hmatrix).
  pose proof (revertLoop_touches _ _ _ _ _ _ Hloop) as Htouch.
  pose proof (revertLoop_done _ _ _ _ _ Hloop Hnd) as Hdone.
  destruct (touches_repo_Some _ _ _ _ Htouch (mk_is_Some _ _ Hr)) as [r1 Hr1].
  apply add_all_inv in Hadd as (r1' & Hr1' & ->).
  rewrite Hr1 in Hr1'. symmetry in Hr1'. simplify_eq.
  eexists r1, _. split; [done|]. split; [apply lookup_insert_eq|].
  split; [done|]. split; [done|]. split; [done|].
  intros filepath h wd st Hin fullPath.
  specialize (Hdone _ Hin). simpl in Hdone. destruct Hdone as [Hrestore Hdelete].
  split.
  - intros Hh Hwd. destruct (Hrestore Hh Hwd) as (blob & Hblob & Hfile & Hdir).
    exists blob. split; [|split; [done|done]].
    unfold blob_at in Hblob. rewrite Hr in Hblob. simpl in Hblob.
    unfold Git.readBlob, bind, Git.getRepo. rewrite Hr.
    destruct (objects r !! previousVersionId) as [c'|]; [|done].
    simpl in Hblob. by rewrite Hblob.
  - intros Hh Hwd.
    assert (is_Some (fs_files w !! fullPath)) as Hfile.
    { apply list_elem_of_fmap in Hin as (p & Hrow & _).
      unfold Git.statusRow in Hrow. simplify_eq.
      destruct (Git.worktree appPath w !! p) as [content|] eqn:Hwt; [|done].
      apply worktree_sound in Hwt. eauto. }
    destruct (Hdelete Hh Hwd Hfile (mk_is_Some _ _ Hr))
      as (Hgone & r1' & Hr1' & Hidx).
    rewrite Hr1 in Hr1'. simplify_eq.
    split; [done|]. split; [done|].
    apply staged_lookup_None; [|done].
    destruct (Git.worktree appPath w1 !! filepath) as [content|] eqn:Hwt; [|done].
    apply worktree_sound in Hwt. unfold fullPath in *. congruence.
Qed.

(** C10.  No row of a status matrix takes the third arm of the chain,
    and the loop does to every matrix and every world exactly what the
    two-case loop does. *)
Theorem revert_third_branch_unreachable :
  (∀ headStatus workdirStatus : Z,
     revertBranch headStatus workdirStatus ≠ RestoreModified)
  ∧ (∀ (appPath previousVersionId : string)
       (matrix : list (string * Z * Z * Z)) (w : World),
       revertLoop appPath previousVersionId matrix w
       = revertLoop_two_branch appPath previousVersionId matrix w).
Proof.
  split.
  - intros h wd. unfold revertBranch.
    destruct (h =? 1) eqn:Hh; [by destruct (negb _)|].
    simpl. by destruct (_ && _).
  - intros appPath oid matrix. unfold revertLoop, revertLoop_two_branch.
    induction matrix as [|row rest IH]; intros w; [done|].
    simpl. unfold bind.
    assert (revertPath appPath oid row w
            = revertPath_two_branch appPath oid row w) as ->.
    { destruct row as [[[filepath h] wd] st].
      unfold revertPath, revertPath_two_branch, revertBranch.
      destruct (Z.eqb_spec h 1), (Z.eqb_spec h 0), (Z.eqb_spec wd 1),
        (Z.eqb_spec wd 0); try lia; reflexivity. }
    destruct (revertPath_two_branch _ _ _ _) as [[[]|e] v]; [apply IH|done].
Qed.

End RevertFiles.



(** ** Checkout, commit and the conversation *)

Section CheckoutFacts.
Context {env : Env}.

Lemma fs_only_refl w : fs_only w w.
Proof. done. Qed.

Lemma fs_only_trans w1 w2 w3 : fs_only w1 w2 → fs_only w2 w3 → fs_only w1 w3.
Proof. unfold fs_only. intros [-> ->] [-> ->]. done. Qed.

Lemma mkdir_fs_only dir w r w' : Fs.mkdir dir w = (r, w') → fs_only w w'.
Proof.
  unfold Fs.mkdir. destruct (existsb _ _); intros ?; by simplify_eq.
Qed.

Lemma writeFile_fs_only p content w r w' :
  Fs.writeFile p content w = (r, w') → fs_only w w'.
Proof.
  unfold Fs.writeFile. repeat destruct (Fs.is_dir _ _);
    intros ?; by simplify_eq.
Qed.

Lemma unlink_fs_only p w r w' : Fs.unlink p w = (r, w') → fs_only w w'.
Proof.
  unfold Fs.unlink. destruct (Fs.is_file _ _); intros ?; by simplify_eq.
Qed.

Lemma forM_fs_only {A} (f : A → M unit) (l : list A) :
  (∀ x w r w', f x w = (r, w') → fs_only w w') →
  ∀ w r w', forM_ f l w = (r, w') → fs_only w w'.
Proof.
  intros Hf. induction l as [|x l IH]; intros w r w'; simpl.
  - unfold ret. intros ?; by simplify_eq.
  - unfold bind. destruct (f x w) as [[[]|e] v] eqn:Hx; apply Hf in Hx.
    + intros Hrest. apply IH in Hrest. by eapply fs_only_trans.
    + intros ?; by simplify_eq.
Qed.

Lemma writeEntry_fs_only dir e w r w' :
  Git.writeEntry dir e w = (r, w') → fs_only w w'.
Proof.
  unfold Git.writeEntry, bind.
  destruct (Fs.mkdir _ w) as [[[]|err] v] eqn:Hmk;
    apply mkdir_fs_only in Hmk.
  - intros Hwr. apply writeFile_fs_only in Hwr. by eapply fs_only_trans.
  - intros ?; by simplify_eq.
Qed.

Lemma dropEntry_fs_only dir tree e w r w' :
  Git.dropEntry dir tree e w = (r, w') → fs_only w w'.
Proof.
  unfold Git.dropEntry. destruct (tree !! e.1).
  - unfold ret. intros ?; by simplify_eq.
  - unfold bind, gets, when. destruct (Fs.is_file _ _).
    + apply unlink_fs_only.
    + unfold ret. intros ?; by simplify_eq.
Qed.

(** A checkout that succeeds found the repository and the commit; it
    leaves the object store and the branches alone, sets the index to
    the commit's tree and moves [HEAD]. *)
Lemma checkout_inv dir ref w w' :
  Git.checkout dir ref w = (Ok tt, w') →
  ∃ r c,
    git_repos w !! Git.gitdir dir = Some r
    ∧ Git.resolve r ref = Some c
    ∧ rest_of w' = rest_of w
    ∧ git_repos w'
      = <[Git.gitdir dir :=
            mkRepo (objects r) (branches r)
              (if Git.is_full_sha ref then Detached c else Symbolic ref)
              (c_tree c)]> (git_repos w).
Proof.
  unfold Git.checkout, bind at 1.
  destruct (Git.getRepo dir w) as [[r|e] v] eqn:Hrepo; [|done].
  apply getRepo_inv in Hrepo as [-> Hr].
  destruct (Git.resolve r ref) as [c|] eqn:Hc; [|done].
  unfold bind at 1.
  destruct (forM_ (Git.dropEntry _ _) _ w) as [[[]|e] v1] eqn:Hdrop; [|done].
  apply (forM_fs_only _ _ (dropEntry_fs_only dir (c_tree c))) in Hdrop
    as [Hrest1 Hrepos1].
  unfold bind at 1.
  destruct (forM_ (Git.writeEntry _) _ v1) as [[[]|e] v2] eqn:Hwrite; [|done].
  apply (forM_fs_only _ _ (writeEntry_fs_only dir)) in Hwrite
    as [Hrest2 Hrepos2].
  unfold Git.putRepo, modify. intros [= <-].
  exists r, c. split; [done|]. split; [done|]. simpl. split.
  - etrans; [|exact Hrest1]. etrans; [|exact Hrest2]. done.
  - by rewrite Hrepos2, Hrepos1.
Qed.

Lemma commit_inv dir msg author w commitHash w' :
  Git.commit_ dir msg author w = (Ok commitHash, w') →
  ∃ r,
    git_repos w !! Git.gitdir dir = Some r
    ∧ let c := mkCommit
                 (sha1 msg author (clock w / 1000) (index r)
                    (c_oid <$> Git.resolveHead r))
                 msg author (clock w / 1000) (index r) (Git.resolveHead r) in
      commitHash = c_oid c
      ∧ w' = set_repos
          (<[Git.gitdir dir :=
               mkRepo (<[c_oid c := c]> (objects r))
                 (match head r with
                  | Symbolic b => <[b := c]> (branches r)
                  | Detached _ => branches r
                  end)
                 (match head r with
                  | Symbolic b => Symbolic b
                  | Detached _ => Detached c
                  end)
                 (index r)]> (git_repos w)) w.
Proof.
  unfold Git.commit_, bind at 1.
  destruct (Git.getRepo dir w) as [[r|e] v] eqn:Hrepo; [|done].
  apply getRepo_inv in Hrepo as [-> Hr].
  unfold bind, gets, Git.putRepo, modify, ret. intros [= <- <-].
  exists r. done.
Qed.

Lemma later_in_chat_false chatId id m :
  Db.later_in_chat chatId id m = false
  ↔ ¬ (msg_chatId m = chatId ∧ id < msg_id m).
Proof.
  unfold Db.later_in_chat.
  rewrite andb_false_iff, !bool_decide_eq_false.
  destruct (decide (msg_chatId m = chatId)); tauto.
Qed.

Lemma set_messages_id w : set_messages (db_messages w) w = w.
Proof. by destruct w. Qed.

Lemma filter_nil_keeps_all {A} (P Q : A → Prop)
    `{∀ x, Decision (P x)} `{∀ x, Decision (Q x)} (l : list A) :
  (∀ x, P x ↔ ¬ Q x) → filter Q l = [] → filter P l = l.
Proof.
  intros HPQ. induction l as [|x l IH]; [done|].
  rewrite !filter_cons. destruct (decide (Q x)) as [HQ|HQ]; [done|].
  intros Hl. rewrite decide_True by (by apply HPQ). by rewrite IH.
Qed.

Lemma pruneMessages_spec previousVersionId w :
  pruneMessages previousVersionId w
  = (Ok tt, set_messages (pruned previousVersionId (db_messages w)) w).
Proof.
  unfold pruneMessages, pruned, bind at 1, Db.findMessageByCommit, gets.
  destruct (find _ _) as [tagged|]; [|unfold ret; by rewrite set_messages_id].
  unfold bind, Db.findMessagesAfter, gets, when.
  set (later := filter _ (db_messages w)).
  assert (∀ l : list Message, filter (λ m, Db.later_in_chat (msg_chatId tagged) (msg_id tagged) m = false) l
               = filter (λ m, ¬ (msg_chatId m = msg_chatId tagged
                                 ∧ msg_id tagged < msg_id m)) l) as Hfilter.
  { intros l. apply list_filter_iff. intros m. apply later_in_chat_false. }
  destruct (0 <? Z.of_nat (length later)) eqn:Hlen.
  - unfold Db.deleteMessagesAfter, modify. by rewrite Hfilter.
  - unfold ret. rewrite <- Hfilter.
    rewrite (filter_nil_keeps_all _
               (λ m, Db.later_in_chat (msg_chatId tagged) (msg_id tagged) m = true)).
    + by rewrite set_messages_id.
    + intros m. by destruct (Db.later_in_chat _ _ _).
    + apply Z.ltb_ge in Hlen. fold later.
      destruct later; [done|]. simpl in Hlen. lia.
Qed.

End CheckoutFacts.

(** ** Reverting, listing and previewing versions *)

Section VersionFacts.
Context {env : Env}.

Lemma is_full_sha_main : Git.is_full_sha "main" = false.
Proof. reflexivity. Qed.

(** Everything a successful revert did, step by step. *)
Lemma revert_inv appId previousVersionId w res w' :
  revertVersionService appId previousVersionId w = (Ok res, w') →
  ∃ app r tip r',
    find (λ a, bool_decide (app_id a = appId)) (db_apps w) = Some app
    ∧ git_repos w !! Git.gitdir (getDyadAppPath (app_path app)) = Some r
    ∧ branches r !! "main" = Some tip
    ∧ git_repos w' !! Git.gitdir (getDyadAppPath (app_path app)) = Some r'
    ∧ (let c := mkCommit
                  (sha1 (revertMessage previousVersionId) getGitAuthor
                     (clock w / 1000) (index r') (Some (c_oid tip)))
                  (revertMessage previousVersionId) getGitAuthor
                  (clock w / 1000) (index r') (Some tip) in
       objects r' = <[c_oid c := c]> (objects r)
       ∧ branches r' = <["main" := c]> (branches r)
       ∧ head r' = Symbolic "main")
    ∧ (∀ g', g' ≠ Git.gitdir (getDyadAppPath (app_path app)) →
             git_repos w' !! g' = git_repos w !! g')
    ∧ db_messages w' = pruned previousVersionId (db_messages w)
    ∧ rest_of (set_messages (db_messages w) w') = rest_of w
    ∧ res = mkResult true None.
Proof.
  unfold revertVersionService, bind at 1, Db.findApp, gets.
  destruct (find _ (db_apps w)) as [app|] eqn:Happ; [|done].
  set (dir := getDyadAppPath (app_path app)). set (g := Git.gitdir dir).
  unfold try_catch.
  match goal with |- context [match ?body w with _ => _ end] =>
    destruct (body w) as [[res0|e] w0] eqn:Hbody end; [|done].
  intros [= <- <-].
  unfold bind at 1 in Hbody.
  destruct (Git.checkout dir "main" w) as [[[]|e] wa] eqn:Hco; [|done].
  apply checkout_inv in Hco as (r & tip & Hr & Htip & Hrest_a & Hrepos_a).
  unfold Git.resolve in Htip. rewrite is_full_sha_main in Htip, Hrepos_a.
  unfold bind at 1 in Hbody.
  destruct (Git.statusMatrix dir previousVersionId wa) as [[matrix|e] wa'] eqn:Hsm;
    [|done].
  apply statusMatrix_inv in Hsm as [-> _].
  unfold bind at 1 in Hbody.
  destruct (revertLoop dir previousVersionId matrix wa) as [[[]|e] wb] eqn:Hloop;
    [|done].
  apply revertLoop_touches in Hloop as (Hrest_b & Hoth_b & Hrepo_b & _ & _).
  fold g in Hrepo_b, Hoth_b, Hrepos_a, Hr.
  rewrite Hrepos_a, lookup_insert_eq in Hrepo_b.
  destruct Hrepo_b as (rb & Hrb & (Hobj_b & Hbr_b & Hhead_b) & _).
  simpl in Hobj_b, Hbr_b, Hhead_b.
  unfold bind at 1 in Hbody.
  destruct (Git.add dir "." wb) as [[[]|e] wc] eqn:Hadd; [|done].
  apply add_all_inv in Hadd as (rb' & Hrb' & ->). fold g in Hrb'.
  rewrite Hrb in Hrb'. symmetry in Hrb'. simplify_eq.
  unfold bind at 1 in Hbody.
  match type of Hbody with context [Git.commit_ ?d ?m ?a ?v] =>
    destruct (Git.commit_ d m a v) as [[commitHash|e] wd] eqn:Hcommit end;
    [|done].
  apply commit_inv in Hcommit as (rc & Hrc & _ & ->).
  fold g in Hrc. simpl in Hrc. rewrite lookup_insert_eq in Hrc.
  symmetry in Hrc. simplify_eq. simpl in Hbody.
  unfold bind in Hbody. rewrite pruneMessages_spec in Hbody.
  unfold ret in Hbody. simplify_eq.
  exists app, r, tip. eexists. split; [done|]. split; [done|].
  split; [done|]. simpl. split; [apply lookup_insert_eq|].
  unfold Git.resolveHead. simpl. rewrite !Hhead_b. simpl.
  rewrite !Hbr_b, !Htip. simpl.
  assert (clock wb = clock w) as Hclock by congruence.
  rewrite Hclock, Hobj_b.
  split; [done|]. split.
  - intros g' Hg'. rewrite !lookup_insert_ne by done.
    rewrite Hoth_b, Hrepos_a by done. by rewrite lookup_insert_ne.
  - split; [|split; [|done]].
    + f_equal. congruence.
    + unfold rest_of. simpl. congruence.
Qed.

Lemma log_ok dir depth w r c :
  git_repos w !! Git.gitdir dir = Some r →
  Git.resolveHead r = Some c →
  Git.log dir depth w = (Ok (take depth (Git.history c)), w).
Proof.
  intros Hr Hc. unfold Git.log, bind, Git.getRepo. by rewrite Hr, Hc.
Qed.

Lemma log_err dir depth w :
  (∀ r, git_repos w !! Git.gitdir dir = Some r → Git.resolveHead r = None) →
  ∃ msg, Git.log dir depth w = (Err msg, w).
Proof.
  intros Hnone. unfold Git.log, bind, Git.getRepo.
  destruct (git_repos w !! Git.gitdir dir) as [r|]; [|by eexists].
  rewrite (Hnone r eq_refl). by eexists.
Qed.

(** What [listVersionsService] answers when the repository is there and
    [HEAD] resolves. *)
Lemma listVersions_ok appId w app r c :
  find (λ a, bool_decide (app_id a = appId)) (db_apps w) = Some app →
  git_repos w !! Git.gitdir (getDyadAppPath (app_path app)) = Some r →
  Git.resolveHead r = Some c →
  listVersionsService appId w
  = (Ok (map toVersion (take 1000 (Git.history c))), w).
Proof.
  intros Happ Hr Hc.
  unfold listVersionsService, bind at 1, Db.findApp, gets. rewrite Happ.
  unfold bind at 1, Fs.existsSync, gets.
  unfold Git.gitdir in Hr.
  rewrite (bool_decide_eq_true_2 (is_Some (git_repos w !! _)))
    by (rewrite Hr; eauto).
  rewrite orb_true_r. simpl.
  unfold try_catch, bind at 1.
  by rewrite (log_ok _ _ _ _ _ Hr Hc).
Qed.

End VersionFacts.

Section VersionClaims.
Context {env : Env}.

Lemma worktree_ext dir w w' :
  fs_files w' = fs_files w → Git.worktree dir w' = Git.worktree dir w.
Proof. unfold Git.worktree. by intros ->. Qed.

(** The steps a successful revert went through. *)
Lemma revert_steps appId previousVersionId w res w' :
  revertVersionService appId previousVersionId w = (Ok res, w') →
  ∃ app wa matrix wb wc commitHash wd,
    find (λ a, bool_decide (app_id a = appId)) (db_apps w) = Some app
    ∧ Git.checkout (getDyadAppPath (app_path app)) "main" w = (Ok tt, wa)
    ∧ Git.statusMatrix (getDyadAppPath (app_path app)) previousVersionId wa
      = (Ok matrix, wa)
    ∧ revertLoop (getDyadAppPath (app_path app)) previousVersionId matrix wa
      = (Ok tt, wb)
    ∧ Git.add (getDyadAppPath (app_path app)) "." wb = (Ok tt, wc)
    ∧ Git.commit_ (getDyadAppPath (app_path app))
        (revertMessage previousVersionId) getGitAuthor wc = (Ok commitHash, wd)
    ∧ pruneMessages previousVersionId wd = (Ok tt, w')
    ∧ res = mkResult true None.
Proof.
  unfold revertVersionService, bind at 1, Db.findApp, gets.
  destruct (find _ (db_apps w)) as [app|] eqn:Happ; [|done].
  set (dir := getDyadAppPath (app_path app)).
  unfold try_catch.
  match goal with |- context [match ?body w with _ => _ end] =>
    destruct (body w) as [[res0|e] w0] eqn:Hbody end; [|done].
  intros [= <- <-].
  unfold bind at 1 in Hbody.
  destruct (Git.checkout dir "main" w) as [[[]|e] wa] eqn:Hco; [|done].
  unfold bind at 1 in Hbody.
  destruct (Git.statusMatrix dir previousVersionId wa) as [[matrix|e] wa'] eqn:Hsm;
    [|done].
  pose proof (statusMatrix_inv _ _ _ _ _ Hsm) as [-> _].
  unfold bind at 1 in Hbody.
  destruct (revertLoop dir previousVersionId matrix wa) as [[[]|e] wb] eqn:Hloop;
    [|done].
  unfold bind at 1 in Hbody.
  destruct (Git.add dir "." wb) as [[[]|e] wc] eqn:Hadd; [|done].
  unfold bind at 1 in Hbody.
  match type of Hbody with context [Git.commit_ ?d ?m ?a ?v] =>
    destruct (Git.commit_ d m a v) as [[commitHash|e] wd] eqn:Hcommit end;
    [|done].
  unfold bind in Hbody.
  destruct (pruneMessages previousVersionId wd) as [[[]|e] we] eqn:Hprune;
    [|done].
  unfold ret in Hbody. injection Hbody as <- <-.
  exists app, wa, matrix, wb, wc, commitHash, wd. done.
Qed.


(** In a history every entry is followed by its parent. *)
Lemma history_newest_first c i x y :
  Git.history c !! i = Some x → Git.history c !! S i = Some y →
  c_parent x = Some y.
Proof.
  revert i. induction c as [o m a t tr|o m a t tr p IH] using commit_history_ind;
    intros i; simpl.
  - destruct i; [done|]. by destruct i.
  - destruct i as [|i]; simpl.
    + intros [= <-]. destruct p; simpl. by intros [= <-].
    + apply IH.
Qed.

Lemma history_head c : Git.history c !! 0%nat = Some c.
Proof. by destruct c. Qed.

Lemma take_newest_first {A} (l : list A) n i x :
  take n l !! i = Some x → l !! i = Some x.
Proof.
  intros Hx. destruct (decide (i < n)%nat).
  - by rewrite lookup_take_lt in Hx.
  - by rewrite lookup_take_ge in Hx by lia.
Qed.

(** C7, as the code has it.  For an app the store knows:
    without a [.git] directory the answer is the empty list; with a
    repository whose [HEAD] resolves the answer is the first 1000
    entries of the history of [HEAD], each entry followed by its
    parent, carrying the commit's identifier, message and author
    timestamp; and when the log cannot be read the call fails with
    "Failed to list versions: ...". *)
Theorem list_versions_spec (appId : Z) (w : World) (app : App) :
  find (λ a, bool_decide (app_id a = appId)) (db_apps w) = Some app →
  let gitPath := Path.join (getDyadAppPath (app_path app)) ".git" in
  ((Fs.existsSync gitPath w).1 = Ok false →
     listVersionsService appId w = (Ok [], w))
  ∧ (∀ r c,
       git_repos w !! gitPath = Some r → Git.resolveHead r = Some c →
       let commits := take 1000 (Git.history c) in
       listVersionsService appId w = (Ok (map toVersion commits), w)
       ∧ (length commits ≤ 1000)%nat
       ∧ commits !! 0%nat = Some c
       ∧ (∀ i x y, commits !! i = Some x → commits !! S i = Some y →
                   c_parent x = Some y)
       ∧ (∀ x, toVersion x = mkVersion (c_oid x) (c_message x) (c_timestamp x)))
  ∧ ((Fs.existsSync gitPath w).1 = Ok true →
     (∀ r, git_repos w !! gitPath = Some r → Git.resolveHead r = None) →
     ∃ msg, listVersionsService appId w
            = (Err ("Failed to list versions: " +:+ msg), w)).
Proof.
  intros Happ gitPath. split; [|split].
  - intros Hno. unfold Fs.existsSync, gets in Hno. simpl in Hno.
    injection Hno as Hno.
    unfold listVersionsService, bind at 1, Db.findApp, gets.
    rewrite Happ. unfold bind, Fs.existsSync, gets. fold gitPath.
    by rewrite Hno.
  - intros r c Hr Hc commits.
    split; [by apply (listVersions_ok appId w app r c)|].
    split; [unfold commits; rewrite length_take; lia|].
    split; [unfold commits; by destruct c|].
    split; [|done].
    intros i x y Hx Hy. unfold commits in *.
    apply take_newest_first in Hx, Hy. by eapply history_newest_first.
  - intros Hyes Hnone. unfold Fs.existsSync, gets in Hyes. simpl in Hyes.
    injection Hyes as Hyes.
    destruct (log_err (getDyadAppPath (app_path app)) 1000 w Hnone)
      as [msg Hlog].
    exists msg.
    unfold listVersionsService, bind at 1, Db.findApp, gets.
    rewrite Happ. unfold bind at 1, Fs.existsSync, gets. fold gitPath.
    rewrite Hyes. simpl. unfold try_catch, bind. by rewrite Hlog.
Qed.

(** C2, as the code has it.  A successful revert to a version creates
    one commit, whose message records the version and whose parent is
    the head of [main] as it was; [main] moves to it and nothing else in
    the object store or the branches changes.  Listing the versions next
    answers that commit followed by the former history of [main], cut
    to 1000 entries; so when [HEAD] was on [main] and fewer than 1000
    versions were listed before, the list has grown by exactly its new
    first entry. *)
Theorem revert_extends_history
    (appId : Z) (previousVersionId : string) (w w' : World)
    (res : ServiceResult) :
  revertVersionService appId previousVersionId w = (Ok res, w') →
  ∃ app r tip r' c,
    find (λ a, bool_decide (app_id a = appId)) (db_apps w) = Some app
    ∧ git_repos w !! Git.gitdir (getDyadAppPath (app_path app)) = Some r
    ∧ branches r !! "main" = Some tip
    ∧ git_repos w' !! Git.gitdir (getDyadAppPath (app_path app)) = Some r'
    ∧ c_parent c = Some tip
    ∧ c_message c = "Reverted all changes back to version " +:+ previousVersionId
    ∧ objects r' = <[c_oid c := c]> (objects r)
    ∧ branches r' = <["main" := c]> (branches r)
    ∧ head r' = Symbolic "main"
    ∧ listVersionsService appId w'
      = (Ok (map toVersion (take 1000 (c :: Git.history tip))), w')
    ∧ (head r = Symbolic "main" → (length (Git.history tip) < 1000)%nat →
       listVersionsService appId w = (Ok (map toVersion (Git.history tip)), w)
       ∧ listVersionsService appId w'
         = (Ok (toVersion c :: map toVersion (Git.history tip)), w')).
Proof.
  intros Hrevert.
  apply revert_inv in Hrevert
    as (app & r & tip & r' & Happ & Hr & Htip & Hr' & (Hobj & Hbr & Hhead)
        & _ & _ & Hrest & _).
  set (c := mkCommit _ _ _ _ _ (Some tip)) in *.
  assert (db_apps w' = db_apps w) as Happs
    by (unfold rest_of in Hrest; simpl in Hrest; congruence).
  assert (listVersionsService appId w'
          = (Ok (map toVersion (take 1000 (c :: Git.history tip))), w'))
    as Hafter.
  { rewrite <- Happs in Happ.
    rewrite (listVersions_ok appId w' app r' c Happ Hr'); [done|].
    unfold Git.resolveHead. rewrite Hhead, Hbr. apply lookup_insert_eq. }
  exists app, r, tip, r', c. repeat (split; [done|]).
  intros Hmain Hshort. split.
  - rewrite (listVersions_ok appId w app r tip Happ Hr).
    + by rewrite take_ge by lia.
    + unfold Git.resolveHead. by rewrite Hmain.
  - rewrite Hafter. by rewrite take_ge by (simpl; lia).
Qed.

(** C3.  After a successful revert to a version: when some message is
    tagged with it, there is a tagged message (the one the lookup
    finds, the only candidate when tags are unique) such that the
    conversation is what it was minus the messages of that message's
    chat with a greater id; the tagged message stays.  When no message
    is tagged, the conversation is as it was.  The pruning itself never
    fails. *)
Theorem revert_prunes_conversation
    (appId : Z) (previousVersionId : string) (w w' : World)
    (res : ServiceResult) :
  revertVersionService appId previousVersionId w = (Ok res, w') →
  let kept (tagged : Message) (m : Message) : Prop :=
    ¬ (msg_chatId m = msg_chatId tagged ∧ msg_id tagged < msg_id m) in
  ((∃ m, m ∈ db_messages w ∧ msg_commitHash m = Some previousVersionId) →
     ∃ tagged,
       tagged ∈ db_messages w
       ∧ msg_commitHash tagged = Some previousVersionId
       ∧ (∀ m, m ∈ db_messages w → msg_commitHash m = Some previousVersionId →
               (∀ m', m' ∈ db_messages w →
                      msg_commitHash m' = Some previousVersionId → m' = m) →
               m = tagged)
       ∧ db_messages w' = filter (kept tagged) (db_messages w)
       ∧ tagged ∈ db_messages w'
       ∧ (∀ m, m ∈ db_messages w' ↔ m ∈ db_messages w ∧ kept tagged m))
  ∧ ((∀ m, m ∈ db_messages w → msg_commitHash m ≠ Some previousVersionId) →
     db_messages w' = db_messages w)
  ∧ res = mkResult true None
  ∧ (∀ v, (pruneMessages previousVersionId v).1 = Ok tt).
Proof.
  intros Hrevert kept.
  apply revert_inv in Hrevert
    as (_ & _ & _ & _ & _ & _ & _ & _ & _ & _ & Hmsgs & _ & ->).
  unfold pruned in Hmsgs.
  split; [|split; [|split; [done|]]].
  - intros (m & Hm & Htag).
    destruct (find _ (db_messages w)) as [tagged|] eqn:Hfind.
    + apply find_some in Hfind as [Hin Htagged].
      apply bool_decide_eq_true in Htagged. apply list_elem_of_In in Hin.
      assert (∀ x, x ∈ db_messages w' ↔ x ∈ db_messages w ∧ kept tagged x)
        as Hiff
        by (intros x; rewrite Hmsgs, list_elem_of_filter; unfold kept; tauto).
      exists tagged. split; [done|]. split; [done|]. split.
      { intros m0 Hm0 Htag0 Huniq. symmetry. by apply Huniq. }
      split; [done|]. split; [|done].
      apply Hiff. split; [done|]. unfold kept. lia.
    + exfalso. apply list_elem_of_In in Hm.
      pose proof (find_none _ _ Hfind _ Hm) as Hno.
      apply bool_decide_eq_false in Hno. done.
  - intros Hnone.
    destruct (find _ (db_messages w)) as [tagged|] eqn:Hfind; [|done].
    apply find_some in Hfind as [Hin Htagged].
    apply bool_decide_eq_true in Htagged. apply list_elem_of_In in Hin.
    by destruct (Hnone tagged Hin).
  - intros v. by rewrite pruneMessages_spec.
Qed.

(** C8, as the code has it.  A successful checkout creates no commit
    and moves no branch, and leaves the conversation (and everything
    outside the repository and the file system) as it was; besides the
    working tree it sets the index to the version's tree and moves
    [HEAD] to the version, so that listing the versions next answers the
    history of that version. *)
Theorem checkout_frame
    (appId : Z) (versionId : string) (w w' : World) (res : ServiceResult) :
  checkoutVersionService appId versionId w = (Ok res, w') →
  ∃ app r c r',
    find (λ a, bool_decide (app_id a = appId)) (db_apps w) = Some app
    ∧ git_repos w !! Git.gitdir (getDyadAppPath (app_path app)) = Some r
    ∧ Git.resolve r versionId = Some c
    ∧ db_messages w' = db_messages w
    ∧ rest_of w' = rest_of w
    ∧ git_repos w'
      = <[Git.gitdir (getDyadAppPath (app_path app)) := r']> (git_repos w)
    ∧ objects r' = objects r
    ∧ branches r' = branches r
    ∧ head r' = (if Git.is_full_sha versionId then Detached c
                 else Symbolic versionId)
    ∧ index r' = c_tree c
    ∧ listVersionsService appId w'
      = (Ok (map toVersion (take 1000 (Git.history c))), w')
    ∧ res = mkResult true None.
Proof.
  unfold checkoutVersionService, bind at 1, Db.findApp, gets.
  destruct (find _ (db_apps w)) as [app|] eqn:Happ; [|done].
  unfold try_catch, bind.
  destruct (Git.checkout _ versionId w) as [[[]|e] v] eqn:Hco; [|done].
  unfold ret. intros [= <- <-].
  apply checkout_inv in Hco as (r & c & Hr & Hc & Hrest & Hrepos).
  exists app, r, c. eexists. split; [done|]. split; [done|]. split; [done|].
  split; [unfold rest_of in Hrest; congruence|]. split; [done|].
  split; [exact Hrepos|]. simpl. repeat (split; [done|]). split; [|done].
  assert (db_apps v = db_apps w) as Happs
    by (unfold rest_of in Hrest; congruence).
  rewrite <- Happs in Happ.
  eapply listVersions_ok; [done|by rewrite Hrepos, lookup_insert_eq|].
  unfold Git.resolveHead, Git.resolve in *. simpl.
  by destruct (Git.is_full_sha versionId).
Qed.

End VersionClaims.

(** ** Reading and editing files *)

Section FileFacts.
Context {env : Env}.

(** C9.  When joining the app's directory with the requested path
    gives a path that does not start with the app's directory, both
    services fail with "Invalid file path" and leave the world as it
    was: nothing is read, written or committed. *)
Theorem file_services_reject_escape
    (appId : Z) (filePath content : string) (w : World) (app : App) :
  find (λ a, bool_decide (app_id a = appId)) (db_apps w) = Some app →
  Path.startsWith (Path.join (getDyadAppPath (app_path app)) filePath)
    (getDyadAppPath (app_path app)) = false →
  readAppFileService appId filePath w = (Err "Invalid file path", w)
  ∧ editAppFileService appId filePath content w = (Err "Invalid file path", w).
Proof.
  intros Happ Hescape. split.
  - unfold readAppFileService, bind, Db.findApp, gets. rewrite Happ.
    by rewrite Hescape.
  - unfold editAppFileService, bind, Db.findApp, gets. rewrite Happ.
    by rewrite Hescape.
Qed.

End FileFacts.

Lemma file_services_reject_escape_witness :
  readAppFileService (env := Demo.env) 1 "../../.ssh/id_rsa" Demo.versioned
  = (Err "Invalid file path", Demo.versioned)
  ∧ editAppFileService (env := Demo.env) 1 "../../.ssh/id_rsa" "key" Demo.versioned
    = (Err "Invalid file path", Demo.versioned).
Proof.
  apply (file_services_reject_escape (env := Demo.env) 1 "../../.ssh/id_rsa"
           "key" Demo.versioned Demo.app1); reflexivity.
Defined.

(** A path inside the app's directory is read, and an edit is written
    and committed on top of the head. *)
Example read_inside :
  (readAppFileService (env := Demo.env) 1 "src/b.ts" Demo.versioned).1 = Ok "B".
Proof. reflexivity. Qed.

Example edit_inside :
  let w := (editAppFileService (env := Demo.env) 1 "src/c.ts" "C" Demo.versioned).2 in
  fs_files w !! "/home/user/dyad-apps/demo/src/c.ts" = Some "C"
  ∧ (length <$> listed (listVersionsService (env := Demo.env) 1 w)) = Some 4%nat.
Proof. vm_compute. done. Qed.

(** ** The version services on concrete repositories *)



Lemma list_versions_spec_witness :
  listVersionsService (env := Demo.env) 1 Demo.idle = (Ok [], Demo.idle)
  ∧ listed (listVersionsService (env := Demo.env) 1 Demo.versioned)
    = Some [Demo.v3; Demo.v2; Demo.v1]
  ∧ ∃ msg, listVersionsService (env := Demo.env) 1 Demo.unborn
           = (Err ("Failed to list versions: " +:+ msg), Demo.unborn).
Proof.
  split; [|split].
  - apply (proj1 (list_versions_spec (env := Demo.env) 1 Demo.idle Demo.app1
                    eq_refl)).
    reflexivity.
  - destruct (proj1 (proj2 (list_versions_spec (env := Demo.env) 1
                              Demo.versioned Demo.app1 eq_refl))
                Demo.repo1 Demo.c3 eq_refl eq_refl) as [Hlist _].
    unfold listed. rewrite Hlist. reflexivity.
  - apply (proj2 (proj2 (list_versions_spec (env := Demo.env) 1 Demo.unborn
                           Demo.app1 eq_refl))).
    + reflexivity.
    + intros r Hr. vm_compute in Hr. by injection Hr as <-.
Defined.

(** C7 as the claim words it fails: the app is known and its directory
    has a [.git], yet no list is answered, because the repository has no
    commit for [HEAD] to resolve to. *)
Lemma list_versions_counterexample :
  find (λ a, bool_decide (app_id a = 1)) (db_apps Demo.unborn) = Some Demo.app1
  ∧ (Fs.existsSync (Path.join (getDyadAppPath (Env := Demo.env) "demo") ".git")
       Demo.unborn).1 = Ok true
  ∧ listVersionsService (env := Demo.env) 1 Demo.unborn
    = (Err "Failed to list versions: NotFoundError: Could not find HEAD",
       Demo.unborn)
  ∧ ¬ ∃ versions,
        (listVersionsService (env := Demo.env) 1 Demo.unborn).1 = Ok versions.
Proof.
  split; [reflexivity|]. split; [reflexivity|]. split; [reflexivity|].
  intros [versions Hv]. vm_compute in Hv. discriminate.
Qed.

Lemma revert_extends_history_witness :
  ∃ c,
    c_message c
    = "Reverted all changes back to version 0000000000000000000000000000000000000001"
    ∧ c_parent c = Some Demo.c3
    ∧ listed (listVersionsService (env := Demo.env) 1
                (revertVersionService (env := Demo.env) 1 Demo.v1 Demo.versioned).2)
      = Some [c_oid c; Demo.v3; Demo.v2; Demo.v1].
Proof.
  destruct (revert_extends_history (env := Demo.env) 1 Demo.v1 Demo.versioned
              (revertVersionService (env := Demo.env) 1 Demo.v1 Demo.versioned).2
              (mkResult true None))
    as (app & r & tip & r' & c & Happ & Hr & Htip & _ & Hparent & Hmsg & _ & _
        & _ & Hafter & _);
    [vm_compute; reflexivity|].
  injection Happ as <-. vm_compute in Hr. injection Hr as <-.
  vm_compute in Htip. injection Htip as <-.
  exists c. split; [exact Hmsg|]. split; [exact Hparent|].
  unfold listed. rewrite Hafter. reflexivity.
Defined.

(** C2 as the claim words it fails in two ways.  After a preview [HEAD]
    is detached, the list shown before the revert is the history of the
    previewed version, and the revert, which commits on [main], makes it
    longer by three.  And on a history of 1000 commits the list stays at
    1000 entries and loses its oldest commit, here the very version that
    was reverted to. *)
Lemma revert_history_counterexample :
  ((revertVersionService (env := Demo.env) 1 Demo.v1 Demo.previewing).1
   = Ok (mkResult true None)
   ∧ listed (listVersionsService (env := Demo.env) 1 Demo.previewing)
     = Some [Demo.v1]
   ∧ listed (listVersionsService (env := Demo.env) 1
               (revertVersionService (env := Demo.env) 1 Demo.v1 Demo.previewing).2)
     = Some [Demo.oid_of_nat 1079; Demo.v3; Demo.v2; Demo.v1])
  ∧ ((revertVersionService (env := Demo.env) 1 (Demo.oid_of_nat 0) Demo.long_lived).1
     = Ok (mkResult true None)
     ∧ (length <$> listed (listVersionsService (env := Demo.env) 1 Demo.long_lived))
       = Some 1000%nat
     ∧ (last <$> listed (listVersionsService (env := Demo.env) 1 Demo.long_lived))
       = Some (Some (Demo.oid_of_nat 0))
     ∧ (length <$> listed (listVersionsService (env := Demo.env) 1
                             (revertVersionService (env := Demo.env) 1
                                (Demo.oid_of_nat 0) Demo.long_lived).2))
       = Some 1000%nat
     ∧ (last <$> listed (listVersionsService (env := Demo.env) 1
                           (revertVersionService (env := Demo.env) 1
                              (Demo.oid_of_nat 0) Demo.long_lived).2))
       = Some (Some (Demo.oid_of_nat 1))).
Proof. vm_compute. repeat split. Qed.

Lemma revert_prunes_conversation_witness :
  map msg_id (db_messages
    (revertVersionService (env := Demo.env) 1 Demo.v2 Demo.versioned).2)
  = [1; 2; 3; 4; 5; 7]
  ∧ db_messages
      (revertVersionService (env := Demo.env) 1 Demo.v1 Demo.untracked).2
    = [mkMessage 1 10 None "make me an app"; mkMessage 5 11 None "another chat"].
Proof.
  split.
  - destruct (proj1 (revert_prunes_conversation (env := Demo.env) 1 Demo.v2
                       Demo.versioned
                       (revertVersionService (env := Demo.env) 1 Demo.v2
                          Demo.versioned).2
                       (mkResult true None) ltac:(vm_compute; reflexivity)))
      as (tagged & _ & _ & Huniq & Hmsgs & _).
    { exists (mkMessage 4 10 (Some Demo.v2) "added b").
      split; [|reflexivity]. apply list_elem_of_In. simpl. tauto. }
    rewrite <- (Huniq (mkMessage 4 10 (Some Demo.v2) "added b")) in Hmsgs.
    + rewrite Hmsgs. reflexivity.
    + apply list_elem_of_In. simpl. tauto.
    + reflexivity.
    + intros m' Hin Htag. apply list_elem_of_In in Hin. simpl in Hin.
      repeat (destruct Hin as [<-|Hin]; [by first [discriminate Htag|reflexivity]|]).
      destruct Hin.
  - pose proof (proj1 (proj2 (revert_prunes_conversation (env := Demo.env) 1
                           Demo.v1 Demo.untracked
                           (revertVersionService (env := Demo.env) 1
                              Demo.v1 Demo.untracked).2
                           (mkResult true None) ltac:(vm_compute; reflexivity))))
      as Hsame.
    rewrite Hsame; [reflexivity|].
    intros m Hin Htag. apply list_elem_of_In in Hin. simpl in Hin.
    repeat (destruct Hin as [<-|Hin]; [discriminate Htag|]).
    destruct Hin.
Defined.

Lemma checkout_frame_witness :
  db_messages (checkoutVersionService (env := Demo.env) 1 Demo.v1 Demo.versioned).2
  = Demo.messages1
  ∧ listed (listVersionsService (env := Demo.env) 1
              (checkoutVersionService (env := Demo.env) 1 Demo.v1 Demo.versioned).2)
    = Some [Demo.v1].
Proof.
  destruct (checkout_frame (env := Demo.env) 1 Demo.v1 Demo.versioned
              (checkoutVersionService (env := Demo.env) 1 Demo.v1 Demo.versioned).2
              (mkResult true None))
    as (app & r & c & r' & Happ & Hr & Hc & Hmsgs & _ & _ & _ & _ & _ & _
        & Hlist & _);
    [vm_compute; reflexivity|].
  injection Happ as <-. vm_compute in Hr. injection Hr as <-.
  vm_compute in Hc. injection Hc as <-.
  split; [exact Hmsgs|]. unfold listed. rewrite Hlist. reflexivity.
Defined.

(** C8 as the claim words it fails: after a successful checkout of the
    first version the version list is no longer the one it was. *)
Lemma checkout_counterexample :
  (checkoutVersionService (env := Demo.env) 1 Demo.v1 Demo.versioned).1
  = Ok (mkResult true None)
  ∧ listed (listVersionsService (env := Demo.env) 1 Demo.versioned)
    = Some [Demo.v3; Demo.v2; Demo.v1]
  ∧ listed (listVersionsService (env := Demo.env) 1
              (checkoutVersionService (env := Demo.env) 1 Demo.v1 Demo.versioned).2)
    = Some [Demo.v1].
Proof. vm_compute. repeat split. Qed.

(** The scenario of the specification: three commits, revert to the
    first; the working tree is the first version's again, the new head
    comes first in the list. *)
Example revert_scenario :
  let w := (revertVersionService (env := Demo.env) 1 Demo.v1 Demo.versioned).2 in
  Git.worktree Demo.appPath1 w = Demo.tree1
  ∧ (index <$> git_repos w !! "/home/user/dyad-apps/demo/.git") = Some Demo.tree1
  ∧ listed (listVersionsService (env := Demo.env) 1 w)
    = Some [Demo.oid_of_nat 1079; Demo.v3; Demo.v2; Demo.v1].
Proof. vm_compute. repeat split. Qed.

(** ** More on running, stopping and restarting *)

Section RegistryFacts.
Context {env : Env}.

Ltac winds_down_same := split; [simpl; lia|]; split; simpl; eauto.

Lemma winds_down_refl w : winds_down w w.
Proof. unfold winds_down. split; [lia|]. split; eauto. Qed.

Lemma winds_down_trans w1 w2 w3 :
  winds_down w1 w2 → winds_down w2 w3 → winds_down w1 w3.
Proof.
  intros (Hc1 & Hr1 & Hp1) (Hc2 & Hr2 & Hp2). split; [lia|]. split.
  - eauto.
  - intros h p Hp. destruct (Hp1 h p Hp) as (p' & Hp' & Hl').
    destruct (Hp2 h p' Hp') as (p'' & Hp'' & Hl''). exists p''.
    split; [done|congruence].
Qed.

Lemma registry_ok_winds_down w w' :
  registry_ok w → winds_down w w' → registry_ok w'.
Proof.
  intros [Hentries Hgen] (Hc & Hr & Hp). split.
  - intros appId entry Hentry. apply Hr in Hentry.
    destruct (Hentries _ _ Hentry) as (Hle & p & Hproc & Hl).
    split; [lia|]. destruct (Hp _ _ Hproc) as (p' & Hp' & Hl').
    exists p'. split; [done|congruence].
  - intros a b ea eb Ha Hb. apply Hgen; eauto.
Qed.

Lemma sendOutput_winds_down type msg appId w :
  winds_down w (sendOutput type msg appId w).2.
Proof. winds_down_same. Qed.

Lemma removeAppIfCurrentProcess_winds_down appId proc w :
  winds_down w (removeAppIfCurrentProcess appId proc w).2.
Proof.
  unfold removeAppIfCurrentProcess, modify. simpl.
  destruct (runningApps w !! appId) as [entry|]; [|apply winds_down_refl].
  destruct (decide _) as [_|_]; [|apply winds_down_refl].
  split; [simpl; lia|]. split; [|eauto]. simpl. intros a e Hae.
  apply lookup_delete_Some in Hae. tauto.
Qed.

Lemma closeListener_winds_down appId proc code signal w :
  winds_down w (closeListener appId proc code signal w).2.
Proof.
  unfold closeListener, bind.
  pose proof (removeAppIfCurrentProcess_winds_down appId proc w) as Hrm.
  destruct (removeAppIfCurrentProcess appId proc w) as [[[]|e] v] eqn:Hv;
    [|done].
  eapply winds_down_trans; [exact Hrm|]. apply sendOutput_winds_down.
Qed.

Lemma killProcess_winds_down proc w :
  winds_down w (killProcess proc w).2.
Proof.
  unfold killProcess, bind at 1, gets.
  destruct (os_procs w !! proc) as [p|] eqn:Hp; [|apply winds_down_refl].
  destruct (kill_error p); [apply winds_down_refl|].
  unfold bind, modify.
  set (v := set_procs _ w).
  assert (winds_down w v) as Hv.
  { split; [simpl; lia|]. split; [by simpl|]. simpl. intros h q Hq.
    destruct (decide (h = proc)) as [->|Hne].
    - rewrite lookup_insert_eq. rewrite Hp in Hq. injection Hq as <-. eauto.
    - rewrite lookup_insert_ne by done. eauto. }
  destruct (listeners p) as [appId|]; [|exact Hv].
  eapply winds_down_trans; [exact Hv|]. apply closeListener_winds_down.
Qed.

Lemma killProcessOnPort_winds_down port w :
  winds_down w (killProcessOnPort port w).2.
Proof. winds_down_same. Qed.

Lemma delete_entry_winds_down appId w :
  winds_down w (set_runningApps (delete appId (runningApps w)) w).
Proof.
  split; [simpl; lia|]. split; [|eauto]. simpl. intros a e Hae.
  apply lookup_delete_Some in Hae. tauto.
Qed.

Lemma cleanupFailedRun_winds_down appId w :
  winds_down w (cleanupFailedRun appId w).2.
Proof.
  unfold cleanupFailedRun, modify. simpl.
  destruct (runningApps w !! appId) as [entry|]; [|apply winds_down_refl].
  destruct (decide _) as [_|_]; [|apply winds_down_refl].
  apply delete_entry_winds_down.
Qed.

Lemma rm_winds_down p w : winds_down w (FsTree.rm p w).2.
Proof. winds_down_same. Qed.

(** Spawning and registering keeps the registry well formed. *)
Lemma executeAppLocalNode_registry_ok appPath appId w :
  registry_ok w → registry_ok (executeAppLocalNode appPath appId w).2.
Proof.
  intros [Hentries Hgen].
  unfold executeAppLocalNode, bind at 1, spawn.
  set (h := fresh (dom (os_procs w))).
  assert (os_procs w !! h = None) as Hfresh.
  { apply not_elem_of_dom. apply is_fresh. }
  unfold bind at 1, gets. cbn [fst snd os_procs set_procs].
  rewrite lookup_insert_eq.
  destruct (no_pid _).
  - simpl. split.
    + intros a e Hae. destruct (Hentries a e Hae) as (Hle & p & Hp & Hl).
      split; [done|]. exists p. split; [|done]. simpl.
      rewrite lookup_insert_ne; [done|]. intros Heq. congruence.
    + exact Hgen.
  - unfold bind, processCounter_increment, modify. simpl. split.
    + intros a e Hae. simpl in Hae.
      destruct (decide (a = appId)) as [->|Hne].
      * rewrite lookup_insert_eq in Hae. injection Hae as <-. simpl.
        split; [lia|]. eexists. split.
        { rewrite lookup_alter_eq, lookup_insert_eq. done. }
        done.
      * rewrite lookup_insert_ne in Hae by done.
        destruct (Hentries a e Hae) as (Hle & p & Hp & Hl).
        split; [simpl; lia|]. exists p. split; [|done].
        assert (process e ≠ h) by (intros Heq; congruence).
        simpl. rewrite lookup_alter_ne, lookup_insert_ne by done. done.
    + intros a b ea eb Ha Hb Heq. simpl in Ha, Hb.
      destruct (decide (a = appId)) as [->|Hna];
        destruct (decide (b = appId)) as [->|Hnb]; try done.
      * rewrite lookup_insert_eq in Ha. rewrite lookup_insert_ne in Hb by done.
        injection Ha as <-. simpl in Heq.
        destruct (Hentries b eb Hb) as (Hle & _). lia.
      * rewrite lookup_insert_eq in Hb. rewrite lookup_insert_ne in Ha by done.
        injection Hb as <-. simpl in Heq.
        destruct (Hentries a ea Ha) as (Hle & _). lia.
      * rewrite lookup_insert_ne in Ha, Hb by done. eauto.
Qed.

(** A stop only winds the registry down. *)
Lemma stopAppService_winds_down appId w :
  winds_down w (stopAppService appId w).2.
Proof.
  unfold stopAppService, withLock, bind at 1, gets.
  destruct (runningApps w !! appId) as [entry|]; [|apply winds_down_refl].
  unfold bind at 1, gets. destruct (has_exited _).
  - unfold bind, modify, ret. simpl. apply delete_entry_winds_down.
  - unfold try_catch, bind at 1.
    pose proof (killProcess_winds_down (process entry) w) as Hkill.
    destruct (killProcess (process entry) w) as [[[]|e] v].
    + unfold bind at 1.
      pose proof (removeAppIfCurrentProcess_winds_down appId (process entry) v)
        as Hrm.
      destruct (removeAppIfCurrentProcess appId (process entry) v)
        as [[[]|e] v'] eqn:Hv';
        [|unfold removeAppIfCurrentProcess, modify in Hv'; simplify_eq].
      unfold bind, killProcessOnPort, modify, ret. simpl in *.
      eapply winds_down_trans; [exact Hkill|].
      eapply winds_down_trans; [exact Hrm|].
      apply (killProcessOnPort_winds_down 32100 v').
    + unfold bind.
      pose proof (removeAppIfCurrentProcess_winds_down appId (process entry) v)
        as Hrm.
      destruct (removeAppIfCurrentProcess appId (process entry) v)
        as [[[]|e'] v'] eqn:Hv';
        [|unfold removeAppIfCurrentProcess, modify in Hv'; simplify_eq].
      unfold throw. simpl in *. by eapply winds_down_trans.
Qed.

(** X1.  Running, stopping and restarting an app keep the
    registry well formed, whatever they answer. *)
Theorem registry_invariant (appId : Z) (removeNodeModules : bool) (w : World) :
  registry_ok w →
  registry_ok (runAppService appId w).2
  ∧ registry_ok (stopAppService appId w).2
  ∧ registry_ok (restartAppService appId removeNodeModules w).2.
Proof.
  intros Hok. split; [|split].
  - unfold runAppService, withLock, bind at 1, gets.
    destruct (bool_decide _).
    + unfold bind, sendOutput, modify, ret. simpl.
      exact Hok.
    + unfold bind at 1, Db.findApp, gets.
      destruct (find _ _) as [app|]; [|exact Hok].
      unfold try_catch, bind at 1, killProcessOnPort, modify.
      set (v := set_busy_ports _ w).
      assert (registry_ok v) as Hv by exact Hok.
      unfold bind at 1.
      pose proof (executeAppLocalNode_registry_ok
                    (getDyadAppPath (app_path app)) appId v Hv) as Hexec.
      destruct (executeAppLocalNode _ _ v) as [[[]|e] v'] eqn:Hrun; [exact Hexec|].
      unfold bind at 1.
      pose proof (cleanupFailedRun_winds_down appId v') as Hclean.
      destruct (cleanupFailedRun appId v') as [[[]|e'] v''] eqn:Hc;
        [|unfold cleanupFailedRun, modify in Hc; simplify_eq].
      unfold bind, sendOutput, modify, throw.
      change (registry_ok v''). simpl in Hexec, Hclean.
      eapply registry_ok_winds_down; [exact Hexec|]. exact Hclean.
  - eapply registry_ok_winds_down; [exact Hok|].
    apply stopAppService_winds_down.
  - unfold restartAppService, withLock, try_catch.
    assert (∀ v r v', registry_ok v →
              (sendOutput client_error r appId >> throw (A := ServiceResult) r) v
              = (Err r, v') → registry_ok v') as Hhandler.
    { intros v r v' Hv. unfold bind, sendOutput, modify, throw.
      intros [= <-]. exact Hv. }
    unfold bind at 1, gets. unfold bind at 1.
    assert (∃ r1 v1,
              match runningApps w !! appId with
              | Some appInfo =>
                  killProcess (process appInfo) >>
                  modify (λ w0, set_runningApps (delete appId (runningApps w0)) w0)
              | None => ret tt
              end w = (r1, v1) ∧ winds_down w v1) as (r1 & v1 & Hstop & Hwd).
    { destruct (runningApps w !! appId) as [entry|].
      - unfold bind.
        pose proof (killProcess_winds_down (process entry) w) as Hkill.
        destruct (killProcess (process entry) w) as [[[]|e] v].
        + eexists _, _. split; [reflexivity|]. simpl in *.
          eapply winds_down_trans; [exact Hkill|]. apply delete_entry_winds_down.
        + eexists _, _. split; [reflexivity|]. exact Hkill.
      - eexists _, _. split; [reflexivity|]. apply winds_down_refl. }
    rewrite Hstop.
    pose proof (registry_ok_winds_down _ _ Hok Hwd) as Hv1.
    destruct r1 as [[]|e]; [|unfold bind, sendOutput, modify, throw; exact Hv1].
    unfold bind at 1, killProcessOnPort, modify.
    set (v2 := set_busy_ports _ v1). assert (registry_ok v2) as Hv2 by exact Hv1.
    unfold bind at 1, Db.findApp, gets.
    destruct (find _ (db_apps v2)) as [app|];
      [|unfold bind, sendOutput, modify, throw; exact Hv2].
    cbv zeta. unfold bind at 1.
    assert (∃ r3 v3,
              when removeNodeModules
                (let! present := Fs.existsSync
                   (Path.join (getDyadAppPath (app_path app)) "node_modules") in
                 when present
                   (FsTree.rm (Path.join (getDyadAppPath (app_path app))
                                 "node_modules"))) v2 = (Ok r3, v3)
              ∧ registry_ok v3) as (r3 & v3 & Hrm & Hv3).
    { unfold when. destruct removeNodeModules; [|by eexists _, _].
      unfold bind, Fs.existsSync, gets. destruct (_ || _ || _).
      - eexists _, _. split; [reflexivity|]. exact Hv2.
      - by eexists _, _. }
    rewrite Hrm. unfold bind at 1.
    pose proof (executeAppLocalNode_registry_ok
                  (getDyadAppPath (app_path app)) appId v3 Hv3) as Hexec.
    destruct (executeAppLocalNode _ _ v3) as [[[]|e] v4]; [exact Hexec|].
    unfold bind, sendOutput, modify, throw. exact Hexec.
Qed.

(** What a successful spawn leaves behind. *)
Lemma executeAppLocalNode_ok appPath appId w w1 :
  executeAppLocalNode appPath appId w = (Ok tt, w1) →
  no_pid (Some (mkProc (so_pid (os_spawn w)) None None (so_stderr (os_spawn w))
                  (so_kill_error (os_spawn w)) None)) = false
  ∧ w1 = set_procs
           (<[fresh (dom (os_procs w)) :=
                mkProc (so_pid (os_spawn w)) None None (so_stderr (os_spawn w))
                  (so_kill_error (os_spawn w)) (Some appId)]> (os_procs w))
           (set_runningApps
              (<[appId := mkEntry (fresh (dom (os_procs w))) (processCounter w + 1)]>
                 (runningApps w))
              (set_processCounter (processCounter w + 1) w)).
Proof.
  unfold executeAppLocalNode, bind at 1, spawn.
  unfold bind at 1, gets. cbn [fst snd os_procs set_procs].
  rewrite lookup_insert_eq.
  destruct (no_pid _) eqn:Hpid; [unfold throw; intros [=]|].
  unfold bind, processCounter_increment, modify. intros [= <-].
  split; [done|]. unfold set_procs, set_runningApps, set_processCounter. simpl.
  by rewrite alter_insert_eq.
Qed.

Lemma fresh_handle (w : World) : os_procs w !! fresh (dom (os_procs w)) = None.
Proof. apply not_elem_of_dom. apply is_fresh. Qed.

(** X2.  A run of an app that has no entry and that answers
    success has freed port 32100 and registered one new process: a
    handle the system did not know, with a pid, no exit recorded and the
    app's listeners attached, under the next generation; no output event
    is sent and the tables, the files and the repositories are as
    before. *)
Theorem run_registers (appId : Z) (w w' : World) (r : ServiceResult) :
  runningApps w !! appId = None →
  runAppService appId w = (Ok r, w') →
  r = mkResult true None
  ∧ (∃ h p,
       os_procs w !! h = None
       ∧ runningApps w' = <[appId := mkEntry h (processCounter w + 1)]> (runningApps w)
       ∧ os_procs w' = <[h := p]> (os_procs w)
       ∧ no_pid (Some p) = false ∧ has_exited (Some p) = false
       ∧ listeners p = Some appId)
  ∧ processCounter w' = processCounter w + 1
  ∧ busy_ports w' = busy_ports w ∖ {[32100]}
  ∧ outputs w' = outputs w
  ∧ (db_apps w', db_messages w', fs_files w', fs_dirs w', git_repos w')
    = (db_apps w, db_messages w, fs_files w, fs_dirs w, git_repos w).
Proof.
  intros Hnone. unfold runAppService, withLock, bind at 1, gets.
  rewrite Hnone, bool_decide_eq_false_2 by (by intros [? ?]).
  unfold bind at 1, Db.findApp, gets.
  destruct (find _ _) as [app|]; [|unfold throw; intros [=]].
  unfold try_catch, bind at 1, killProcessOnPort, modify.
  set (v := set_busy_ports _ w). unfold bind at 1.
  destruct (executeAppLocalNode _ _ v) as [[[]|e] v'] eqn:Hrun.
  - apply executeAppLocalNode_ok in Hrun as [Hpid ->].
    unfold ret. intros [= <- <-]. split; [done|]. split; [|done].
    eexists _, _. split; [apply (fresh_handle w)|].
    split; [done|]. split; [done|]. split; [|done].
    unfold no_pid in *. simpl in *. exact Hpid.
  - unfold bind at 1.
    destruct (cleanupFailedRun appId v') as [[[]|e'] v''];
      unfold bind, sendOutput, modify, throw; intros [=].
Qed.

(** X3.  A run answers success exactly when the app has a
    registry entry afterwards, and it never touches the entry of another
    app. *)
Theorem run_outcome (appId : Z) (w : World) :
  (is_ok (runAppService appId w).1 = true
   ↔ is_Some (runningApps (runAppService appId w).2 !! appId))
  ∧ (∀ other, other ≠ appId →
       runningApps (runAppService appId w).2 !! other = runningApps w !! other).
Proof.
  destruct (runAppService appId w) as [r w'] eqn:Hcall. simpl.
  revert Hcall. unfold runAppService, withLock, bind at 1, gets.
  destruct (runningApps w !! appId) as [entry|] eqn:Hentry.
  - rewrite bool_decide_eq_true_2 by eauto.
    unfold bind, sendOutput, modify, ret. intros [= <- <-]. simpl.
    rewrite Hentry. split; [|done]. split; eauto.
  - rewrite bool_decide_eq_false_2 by (by intros [? ?]).
    unfold bind at 1, Db.findApp, gets.
    destruct (find _ _) as [app|].
    2:{ unfold throw. intros [= <- <-]. rewrite Hentry. split; [|done].
        split; [done|by intros [? ?]]. }
    unfold try_catch, bind at 1, killProcessOnPort, modify.
    set (v := set_busy_ports _ w). unfold bind at 1.
    destruct (executeAppLocalNode _ _ v) as [[[]|e] v'] eqn:Hrun.
    + apply executeAppLocalNode_ok in Hrun as [Hpid ->].
      unfold ret. intros [= <- <-]. simpl. rewrite lookup_insert_eq.
      split; [by split; eauto|].
      intros other Hne. by rewrite lookup_insert_ne.
    + apply executeAppLocalNode_err in Hrun as (Hreg & _).
      unfold bind, cleanupFailedRun, modify, sendOutput, throw.
      intros [= <- <-]. simpl.
      rewrite Hreg. simpl. rewrite Hentry. rewrite Hreg. simpl. rewrite Hentry.
      split; [|done]. split; [done|by intros [? ?]].
Qed.

(** X4.  Stopping an app whose process is alive and can
    be terminated answers success; the process is recorded as ended,
    with the code or by the signal its termination ended with, its close
    listener reports that code and signal once, the entry is gone and
    port 32100 is freed; nothing else changes. *)
Theorem stop_terminates (appId : Z) (w : World) (entry : RunningAppEntry)
    (p : ChildProcess) :
  runningApps w !! appId = Some entry →
  os_procs w !! process entry = Some p →
  exitCode p = None → signalCode p = None →
  kill_error p = None → listeners p = Some appId →
  let code := ending_code (termination p) in
  let signal := ending_signal (termination p) in
  has_exited (Some (mkProc (pid p) code signal (early_stderr p) None
                      (Some appId))) = true
  ∧ stopAppService appId w
    = (Ok (mkResult true None),
       set_busy_ports (busy_ports w ∖ {[32100]})
         (set_outputs
            (outputs w
             ++ [mkOutput info
                   ("App process closed with code " +:+ show_code code
                    +:+ ", signal " +:+ show_signal signal +:+ ".")
                   appId (clock w)])
            (set_runningApps (delete appId (runningApps w))
               (set_procs
                  (<[process entry :=
                       mkProc (pid p) code signal
                         (early_stderr p) None (Some appId)]> (os_procs w))
                  w)))).
Proof.
  intros Hentry Hp Hcode Hsig Hkill Hlis code signal.
  split; [by destruct (termination p)|].
  unfold stopAppService, withLock, bind at 1, gets. rewrite Hentry.
  unfold bind at 1. rewrite Hp.
  unfold has_exited at 1. simpl. rewrite Hcode, Hsig.
  rewrite !bool_decide_eq_false_2 by (by intros [? ?]). simpl.
  unfold try_catch, killProcess, bind at 1 2, gets. rewrite Hp, Hkill, Hlis.
  unfold bind, modify, closeListener, removeAppIfCurrentProcess, sendOutput,
    killProcessOnPort, ret. simpl.
  rewrite Hentry, decide_True by done. simpl. rewrite lookup_delete_eq.
  reflexivity.
Qed.

(** X5.  When the process cannot be terminated the
    stop fails with the wrapped message; the entry is removed all the
    same, and nothing else is done: the process is not marked, no event
    is sent and port 32100 is not reaped. *)
Theorem stop_kill_failure (appId : Z) (w : World) (entry : RunningAppEntry)
    (p : ChildProcess) (msg : string) :
  runningApps w !! appId = Some entry →
  os_procs w !! process entry = Some p →
  exitCode p = None → signalCode p = None →
  kill_error p = Some msg →
  stopAppService appId w
  = (Err ("Failed to stop app " +:+ pretty appId +:+ ": " +:+ msg),
     set_runningApps (delete appId (runningApps w)) w).
Proof.
  intros Hentry Hp Hcode Hsig Hkill.
  unfold stopAppService, withLock, bind at 1, gets. rewrite Hentry.
  unfold bind at 1. rewrite Hp.
  unfold has_exited. simpl. rewrite Hcode, Hsig.
  rewrite !bool_decide_eq_false_2 by (by intros [? ?]). simpl.
  unfold try_catch, killProcess, bind at 1 2, gets. rewrite Hp, Hkill.
  unfold bind, throw, modify, removeAppIfCurrentProcess. simpl.
  rewrite Hentry, decide_True by done. reflexivity.
Qed.

(** X6.  Running an app that has no entry and then stopping it
    leaves the registry as it was before the run: the process the run
    started is recorded as ended, with the code or by the signal its
    termination ended with, and its close listener has reported that
    code and signal once. *)
Theorem run_then_stop (appId : Z) (w w1 : World) (r : ServiceResult) :
  runningApps w !! appId = None →
  so_kill_error (os_spawn w) = None →
  runAppService appId w = (Ok r, w1) →
  ∃ w2 started,
    os_procs w1 !! fresh (dom (os_procs w)) = Some started
    ∧ stopAppService appId w1 = (Ok (mkResult true None), w2)
    ∧ runningApps w2 = runningApps w
    ∧ outputs w2
      = (outputs w
         ++ [mkOutput info
               ("App process closed with code "
                +:+ show_code (ending_code (termination started))
                +:+ ", signal "
                +:+ show_signal (ending_signal (termination started)) +:+ ".")
               appId (clock w)])%list
    ∧ (∃ p, os_procs w2 !! fresh (dom (os_procs w)) = Some p
            ∧ exitCode p = ending_code (termination started)
            ∧ signalCode p = ending_signal (termination started)
            ∧ has_exited (Some p) = true)
    ∧ processCounter w2 = processCounter w + 1.
Proof.
  intros Hnone Hkill. unfold runAppService, withLock, bind at 1, gets.
  rewrite Hnone, bool_decide_eq_false_2 by (by intros [? ?]).
  unfold bind at 1, Db.findApp, gets.
  destruct (find _ _) as [app|]; [|unfold throw; intros [=]].
  unfold try_catch, bind at 1, killProcessOnPort, modify.
  set (v := set_busy_ports _ w). unfold bind at 1.
  destruct (executeAppLocalNode _ _ v) as [[[]|e] v'] eqn:Hrun.
  2:{ unfold bind at 1.
      destruct (cleanupFailedRun appId v') as [[[]|e'] v''];
        unfold bind, sendOutput, modify, throw; intros [=]. }
  apply executeAppLocalNode_ok in Hrun as [Hpid ->].
  unfold ret. intros [= <- <-].
  eexists _, _. split; [simpl; apply lookup_insert_eq|].
  unfold stopAppService, withLock, bind at 1, gets. simpl.
  rewrite lookup_insert_eq. unfold bind at 1. simpl.
  rewrite lookup_insert_eq. unfold has_exited. simpl.
  unfold try_catch, killProcess, bind at 1 2, gets. simpl.
  rewrite lookup_insert_eq. simpl. rewrite Hkill.
  unfold bind, modify, closeListener, removeAppIfCurrentProcess, sendOutput,
    killProcessOnPort, ret. simpl.
  rewrite lookup_insert_eq. simpl. rewrite decide_True by done. simpl.
  rewrite lookup_delete_eq. split; [reflexivity|]. simpl.
  split; [by rewrite delete_insert_id|]. split; [done|].
  split; [|done]. rewrite insert_insert_eq, lookup_insert_eq.
  eexists. split; [reflexivity|]. split; [reflexivity|].
  split; [reflexivity|]. unfold has_exited. simpl.
  by destruct (termination _).
Qed.

End RegistryFacts.

Section RestartFacts.
Context {env : Env}.

Lemma killProcess_err proc w msg v :
  killProcess proc w = (Err msg, v) →
  v = w ∧ ∀ p, os_procs w !! proc = Some p → kill_error p = Some msg.
Proof.
  unfold killProcess, bind at 1, gets.
  destruct (os_procs w !! proc) as [p|];
    [|unfold throw; intros [= <- <-]; split; [done|intros ? [=]]].
  destruct (kill_error p) as [e|] eqn:He.
  { unfold throw. intros [= <- <-]. split; [done|]. by intros ? [= <-]. }
  unfold bind at 1, modify. destruct (listeners p).
  - unfold closeListener, bind, removeAppIfCurrentProcess, modify, sendOutput.
    intros [=].
  - unfold ret. intros [=].
Qed.

Lemma killProcess_ok proc w v :
  killProcess proc w = (Ok tt, v) →
  ∃ p, os_procs w !! proc = Some p ∧ kill_error p = None
     ∧ os_procs v
       = <[proc := mkProc (pid p) (ending_code (termination p))
                     (ending_signal (termination p))
                     (early_stderr p) (kill_error p) (listeners p)]> (os_procs w)
     ∧ outputs v
       = (outputs w
          ++ match listeners p with
             | Some a => [mkOutput info
                            ("App process closed with code "
                             +:+ show_code (ending_code (termination p))
                             +:+ ", signal "
                             +:+ show_signal (ending_signal (termination p))
                             +:+ ".")
                            a (clock w)]
             | None => []
             end)%list
     ∧ runningApps v
       = match listeners p with
         | Some a => runningApps (removeAppIfCurrentProcess a proc w).2
         | None => runningApps w
         end
     ∧ quiet w v.
Proof.
  unfold killProcess, bind at 1, gets.
  destruct (os_procs w !! proc) as [p|]; [|unfold throw; intros [=]].
  destruct (kill_error p) as [e|] eqn:He; [unfold throw; intros [=]|].
  unfold bind at 1, modify. intros Hk. exists p. split; [done|]. split; [done|].
  revert Hk. destruct (listeners p) as [a|].
  - unfold closeListener, bind, removeAppIfCurrentProcess, modify, sendOutput.
    intros [= <-]. simpl.
    destruct (runningApps w !! a) as [e|]; [destruct (decide _)|];
      rewrite ?He; by repeat split.
  - unfold ret. intros [= <-]. simpl. rewrite app_nil_r, ?He. by repeat split.
Qed.

(** The stages of a restart that answers. *)
Lemma restartAppService_ok appId removeNodeModules w r w' :
  restartAppService appId removeNodeModules w = (Ok r, w') →
  r = mkResult true None
  ∧ ∃ v1 app,
      ((runningApps w !! appId = None ∧ v1 = w)
       ∨ ∃ entry v, runningApps w !! appId = Some entry
                    ∧ killProcess (process entry) w = (Ok tt, v)
                    ∧ v1 = set_runningApps (delete appId (runningApps v)) v)
      ∧ find (λ a, bool_decide (app_id a = appId)) (db_apps v1) = Some app
      ∧ executeAppLocalNode (getDyadAppPath (app_path app)) appId
          (when removeNodeModules
             (let! present :=
                Fs.existsSync (Path.join (getDyadAppPath (app_path app))
                                 "node_modules") in
              when present
                (FsTree.rm (Path.join (getDyadAppPath (app_path app))
                              "node_modules")))
             (set_busy_ports (busy_ports v1 ∖ {[32100]}) v1)).2
        = (Ok tt, w').
Proof.
  unfold restartAppService, withLock, try_catch.
  unfold bind at 1, gets. unfold bind at 1.
  match goal with
  | |- context [bind (killProcessOnPort 32100) ?k] =>
      set (rest := bind (killProcessOnPort 32100) k)
  end.
  pose (handler := λ e : string,
          bind (sendOutput client_error ("Failed to restart app: " +:+ e) appId)
            (λ _, throw (A := ServiceResult) e)).
  assert (∀ e v, (handler e v).1 ≠ Ok r) as Hhandler.
  { intros e v. unfold handler, bind, sendOutput, modify, throw. done. }
  assert (∀ v1, match rest v1 with
                | (Ok a, v') => (Ok a, v')
                | (Err e, v') => handler e v'
                end = (Ok r, w') →
    r = mkResult true None
    ∧ ∃ app, find (λ a, bool_decide (app_id a = appId)) (db_apps v1) = Some app
      ∧ executeAppLocalNode (getDyadAppPath (app_path app)) appId
          (when removeNodeModules
             (let! present :=
                Fs.existsSync (Path.join (getDyadAppPath (app_path app))
                                 "node_modules") in
              when present
                (FsTree.rm (Path.join (getDyadAppPath (app_path app))
                              "node_modules")))
             (set_busy_ports (busy_ports v1 ∖ {[32100]}) v1)).2
        = (Ok tt, w')) as Hrest.
  { intros v1. unfold rest, bind at 1, killProcessOnPort, modify.
    unfold bind at 1, Db.findApp, gets. cbn [db_apps set_busy_ports].
    destruct (find _ (db_apps v1)) as [app|].
    2:{ unfold throw, handler, bind, sendOutput, modify. done. }
    cbv zeta. unfold bind at 1.
    destruct (when removeNodeModules _ _) as [[[]|e3] v3] eqn:Hclean.
    2:{ exfalso. revert Hclean. unfold when, bind, Fs.existsSync, gets, FsTree.rm, modify, ret.
        destruct removeNodeModules; [|done]. by destruct (_ || _ || _). }
    unfold bind at 1. simpl.
    destruct (executeAppLocalNode _ _ v3) as [[[]|e4] v4] eqn:Hexec.
    - unfold ret. intros [= <- <-]. split; [done|]. exists app.
      split; [done|]. rewrite ?Hclean. exact Hexec.
    - unfold throw, handler, bind, sendOutput, modify. done. }
  destruct (runningApps w !! appId) as [entry|] eqn:Hentry.
  - unfold bind at 1.
    destruct (killProcess (process entry) w) as [[[]|e] v] eqn:Hkill.
    + unfold modify. intros Hx. apply Hrest in Hx as (-> & app & Happ & Hexec).
      split; [done|]. eexists _, app. split; [right; by eexists _, _|]. done.
    + unfold throw, handler, bind, sendOutput, modify. done.
  - unfold ret. intros Hx. apply Hrest in Hx as (-> & app & Happ & Hexec).
    split; [done|]. eexists _, app. split; [by left|]. done.
Qed.

(** The stages of a restart that fails. *)
Lemma restartAppService_err appId removeNodeModules w msg w' :
  restartAppService appId removeNodeModules w = (Err msg, w') →
  ∃ v,
    w' = set_outputs
           (outputs v ++ [mkOutput client_error ("Failed to restart app: " +:+ msg)
                            appId (clock v)]) v
    ∧ clock v = clock w ∧ processCounter v = processCounter w
    ∧ (runningApps v !! appId = None
       ∨ (v = w ∧ ∃ entry, runningApps w !! appId = Some entry
                           ∧ killProcess (process entry) w = (Err msg, w))).
Proof.
  unfold restartAppService, withLock, try_catch.
  unfold bind at 1, gets. unfold bind at 1.
  match goal with
  | |- context [bind (killProcessOnPort 32100) ?k] =>
      set (rest := bind (killProcessOnPort 32100) k)
  end.
  assert (∀ v1, runningApps v1 !! appId = None →
            match rest v1 with
            | (Ok a, v') => (Ok a, v')
            | (Err e, v') =>
                bind (sendOutput client_error ("Failed to restart app: " +:+ e) appId)
                  (λ _, throw e) v'
            end = (Err msg, w') →
    ∃ v, w' = set_outputs
                (outputs v ++ [mkOutput client_error
                                 ("Failed to restart app: " +:+ msg) appId (clock v)]) v
         ∧ clock v = clock v1 ∧ processCounter v = processCounter v1
         ∧ runningApps v !! appId = None) as Hrest.
  { intros v1 Hnone. unfold rest, bind at 1, killProcessOnPort, modify.
    unfold bind at 1, Db.findApp, gets. cbn [db_apps set_busy_ports].
    destruct (find _ (db_apps v1)) as [app|].
    2:{ unfold throw, bind, sendOutput, modify. intros [= <- <-].
        exists (set_busy_ports (busy_ports v1 ∖ {[32100]}) v1). done. }
    cbv zeta. unfold bind at 1.
    destruct (when removeNodeModules _ _) as [[[]|e3] v3] eqn:Hclean.
    2:{ exfalso. revert Hclean. unfold when, bind, Fs.existsSync, gets, FsTree.rm, modify, ret.
        destruct removeNodeModules; [|done]. by destruct (_ || _ || _). }
    assert (clock v3 = clock v1 ∧ processCounter v3 = processCounter v1
            ∧ runningApps v3 = runningApps v1) as (Hc3 & Hp3 & Hr3).
    { revert Hclean. unfold when, bind, Fs.existsSync, gets, FsTree.rm, modify, ret.
      destruct removeNodeModules; [|by intros [= <-]].
      destruct (_ || _ || _); by intros [= <-]. }
    unfold bind at 1.
    destruct (executeAppLocalNode _ _ v3) as [[[]|e4] v4] eqn:Hexec.
    - unfold ret. intros [=].
    - apply executeAppLocalNode_err in Hexec as (Hr4 & _ & Hc4 & Hp4).
      unfold throw, bind, sendOutput, modify. intros [= <- <-].
      exists v4. split; [reflexivity|]. split; [congruence|].
      split; [congruence|]. rewrite Hr4, Hr3. exact Hnone. }
  destruct (runningApps w !! appId) as [entry|] eqn:Hentry.
  - unfold bind at 1.
    destruct (killProcess (process entry) w) as [[[]|e] v] eqn:Hkill.
    + unfold modify. intros Hx. apply Hrest in Hx as (v' & -> & Hc & Hp & Hnone).
      2:{ simpl. apply lookup_delete_eq. }
      apply killProcess_ok in Hkill as (p & _ & _ & _ & _ & _ & Hq).
      unfold quiet in Hq. simpl in *. exists v'. split; [done|].
      split; [congruence|]. split; [congruence|]. by left.
    + pose proof (killProcess_err _ _ _ _ Hkill) as [-> _].
      unfold throw, bind, sendOutput, modify. intros [= <- <-].
      exists w. split; [done|]. split; [done|]. split; [done|].
      right. split; [done|]. by exists entry.
  - unfold ret. intros Hx. apply Hrest in Hx as (v' & -> & Hc & Hp & Hnone); [|done].
    exists v'. split; [done|]. split; [done|]. split; [done|]. by left.
Qed.

(** The cleaning step of a restart only touches the file system. *)
Lemma clean_rest_of (b : bool) (p : string) (v : World) :
  rest_of (when b (let! present := Fs.existsSync p in
                   when present (FsTree.rm p)) v).2 = rest_of v.
Proof.
  unfold when, bind, Fs.existsSync, gets, FsTree.rm, modify, ret.
  destruct b; [|done]. by destruct (_ || _ || _).
Qed.

(** A restart that answers has registered a process the system did not
    know before. *)
Lemma restart_fresh_entry appId removeNodeModules w r w' :
  restartAppService appId removeNodeModules w = (Ok r, w') →
  ∃ h p,
    os_procs w !! h = None
    ∧ runningApps w' !! appId = Some (mkEntry h (processCounter w + 1))
    ∧ os_procs w' !! h = Some p
    ∧ no_pid (Some p) = false ∧ has_exited (Some p) = false
    ∧ listeners p = Some appId.
Proof.
  intros Hcall.
  apply restartAppService_ok in Hcall as (-> & v1 & app & Hstop & Happ & Hexec).
  apply executeAppLocalNode_ok in Hexec as [Hpid ->].
  match goal with
  | |- context [when removeNodeModules ?m ?v] =>
      pose proof (clean_rest_of removeNodeModules
                    (Path.join (getDyadAppPath (app_path app)) "node_modules") v)
        as Hclean;
      set (v3 := (when removeNodeModules m v).2) in *
  end.
  unfold rest_of in Hclean. simpl in Hclean.
  injection Hclean as _ _ _ Hr3 Hp3 Ho3 _ _ _.
  eexists _, _. split; [|split; [|split; [|split; [|split]]]].
  2:{ simpl. rewrite lookup_insert_eq. do 2 f_equal.
      rewrite Hp3. destruct Hstop as [[_ ->]|(entry & v & _ & Hkill & ->)]; [done|].
      apply killProcess_ok in Hkill as (p & _ & _ & _ & _ & _ & Hq).
      unfold quiet in Hq. simpl. congruence. }
  2:{ simpl. apply lookup_insert_eq. }
  2:{ unfold no_pid in *. simpl in *. exact Hpid. }
  2:{ done. }
  2:{ done. }
  assert (∀ h, os_procs v3 !! h = None → os_procs w !! h = None) as Hsub.
  { intros h Hh. rewrite Ho3 in Hh.
    destruct Hstop as [[_ ->]|(entry & v & _ & Hkill & ->)]; [exact Hh|].
    apply killProcess_ok in Hkill as (p & _ & _ & Hprocs & _).
    simpl in Hh. rewrite Hprocs in Hh.
    by apply lookup_insert_None in Hh as [? _]. }
  apply Hsub, fresh_handle.
Qed.

(** X7.  A restart that answers success has terminated the
    process the app had, if any, which is recorded as ended, with the
    code or by the signal its termination ended with, freed port 32100
    and registered one new process, unknown to the system before, alive,
    with the app's listeners attached, under the next generation. *)
Theorem restart_starts (appId : Z) (removeNodeModules : bool) (w w' : World)
    (r : ServiceResult) :
  restartAppService appId removeNodeModules w = (Ok r, w') →
  r = mkResult true None
  ∧ (∃ h p,
       os_procs w !! h = None
       ∧ runningApps w' !! appId = Some (mkEntry h (processCounter w + 1))
       ∧ os_procs w' !! h = Some p
       ∧ no_pid (Some p) = false ∧ has_exited (Some p) = false
       ∧ listeners p = Some appId)
  ∧ processCounter w' = processCounter w + 1
  ∧ (32100 ∉ busy_ports w')
  ∧ (∀ entry, runningApps w !! appId = Some entry →
       ∃ old p, os_procs w !! process entry = Some old
                ∧ os_procs w' !! process entry = Some p
                ∧ exitCode p = ending_code (termination old)
                ∧ signalCode p = ending_signal (termination old)
                ∧ has_exited (Some p) = true).
Proof.
  intros Hcall. pose proof (restart_fresh_entry _ _ _ _ _ Hcall) as Hfresh.
  apply restartAppService_ok in Hcall as (-> & v1 & app & Hstop & Happ & Hexec).
  split; [done|]. split; [exact Hfresh|]. clear Hfresh.
  apply executeAppLocalNode_ok in Hexec as [Hpid ->].
  match goal with
  | |- context [when removeNodeModules ?m ?v] =>
      pose proof (clean_rest_of removeNodeModules
                    (Path.join (getDyadAppPath (app_path app)) "node_modules") v)
        as Hclean;
      set (v3 := (when removeNodeModules m v).2) in *
  end.
  unfold rest_of in Hclean. simpl in Hclean.
  injection Hclean as _ _ _ _ Hp3 Ho3 _ Hb3 _.
  split; [|split].
  - simpl. rewrite Hp3. destruct Hstop as [[_ ->]|(entry & v & _ & Hkill & ->)]; [done|].
    apply killProcess_ok in Hkill as (p & _ & _ & _ & _ & _ & Hq).
    unfold quiet in Hq. simpl. congruence.
  - simpl. rewrite Hb3. apply not_elem_of_difference. right.
    by apply elem_of_singleton.
  - intros entry Hentry.
    destruct Hstop as [[Hnone _]|(entry' & v & Hentry' & Hkill & ->)]; [congruence|].
    assert (entry' = entry) as -> by congruence.
    apply killProcess_ok in Hkill as (p & Hp & _ & Hprocs & _).
    pose proof (fresh_handle v3) as Hf.
    set (h := fresh (dom (os_procs v3))) in *.
    rewrite Ho3 in Hf. simpl in Hf. rewrite Hprocs in Hf.
    apply lookup_insert_None in Hf as [_ Hne].
    exists p. eexists. split; [done|].
    simpl. rewrite Ho3. simpl. rewrite Hprocs.
    rewrite lookup_insert_ne by congruence. rewrite lookup_insert_eq.
    split; [reflexivity|]. split; [reflexivity|]. split; [reflexivity|].
    unfold has_exited. simpl. by destruct (termination p).
Qed.

(** X10.  After a restart that answers, a close or error
    event of any process that existed before the restart leaves the
    registry as it is: the app stays registered with its new process. *)
Theorem restart_survives_stale_events (appId : Z) (removeNodeModules : bool)
    (w w' : World) (r : ServiceResult) (proc : nat)
    (code : option Z) (signal : option string) (msg : string) :
  restartAppService appId removeNodeModules w = (Ok r, w') →
  is_Some (os_procs w !! proc) →
  runningApps (closeListener appId proc code signal w').2 = runningApps w'
  ∧ runningApps (errorListener appId proc msg w').2 = runningApps w'.
Proof.
  intros Hcall [q Hq].
  apply restart_fresh_entry in Hcall as (h & p & Hh & Hentry & _).
  assert (h ≠ proc) as Hne by congruence.
  unfold closeListener, errorListener, bind, removeAppIfCurrentProcess, modify,
    sendOutput. simpl. rewrite Hentry. simpl.
  rewrite decide_False by done. done.
Qed.

(** X8.  A restart that fails throws the cause as it is,
    after one client-error event that names it; no generation is
    consumed; and the app is left without an entry, unless it is the
    termination of its process that failed, in which case nothing but
    the event has changed: the entry stays and port 32100 is not
    reaped. *)
Theorem restart_failure (appId : Z) (removeNodeModules : bool) (w w' : World)
    (msg : string) :
  restartAppService appId removeNodeModules w = (Err msg, w') →
  last (outputs w')
  = Some (mkOutput client_error ("Failed to restart app: " +:+ msg) appId (clock w))
  ∧ processCounter w' = processCounter w
  ∧ (runningApps w' !! appId = None
     ∨ (is_Some (runningApps w !! appId)
        ∧ w' = set_outputs
                 (outputs w ++ [mkOutput client_error
                                  ("Failed to restart app: " +:+ msg) appId (clock w)])
                 w)).
Proof.
  intros Hcall.
  apply restartAppService_err in Hcall as (v & -> & Hc & Hp & Hcases).
  simpl. rewrite last_snoc, Hc. split; [done|]. split; [done|].
  destruct Hcases as [Hnone|[-> (entry & Hentry & _)]]; [by left|].
  right. split; [eauto|done].
Qed.

End RestartFacts.

Section TreeFacts.

Lemma rm_gone p q w :
  FsTree.under p q = true → nothing_at (FsTree.rm p w).2 q.
Proof.
  intros Hunder. unfold nothing_at, FsTree.rm, modify. simpl.
  split; [|split].
  - apply map_lookup_filter_None. right. intros x _. simpl. congruence.
  - intros Hin. apply elem_of_filter in Hin as [Hin _]. congruence.
  - apply map_lookup_filter_None. right. intros x _. simpl. congruence.
Qed.

Lemma rm_kept p q w :
  FsTree.under p q = false → same_at w (FsTree.rm p w).2 q.
Proof.
  intros Hunder. unfold same_at, FsTree.rm, modify. simpl.
  split; [|split].
  - destruct (fs_files w !! q) as [x|] eqn:Hq.
    + by apply map_lookup_filter_Some_2.
    + apply map_lookup_filter_None. by left.
  - rewrite elem_of_filter. tauto.
  - destruct (git_repos w !! q) as [x|] eqn:Hq.
    + by apply map_lookup_filter_Some_2.
    + apply map_lookup_filter_None. by left.
Qed.

Lemma same_at_refl w q : same_at w w q.
Proof. done. Qed.

End TreeFacts.

Section RestartFiles.
Context {env : Env}.

(** The files after a restart that answers are those the cleaning step
    leaves of the first ones. *)
Lemma restart_fs appId removeNodeModules w r w' :
  restartAppService appId removeNodeModules w = (Ok r, w') →
  ∃ app,
    find (λ a, bool_decide (app_id a = appId)) (db_apps w) = Some app
    ∧ let nm := Path.join (getDyadAppPath (app_path app)) "node_modules" in
      let v := if removeNodeModules && (Fs.is_file w nm || Fs.is_dir w nm
                  || bool_decide (is_Some (git_repos w !! nm)))
               then (FsTree.rm nm w).2 else w in
      (fs_files w', fs_dirs w', git_repos w') = (fs_files v, fs_dirs v, git_repos v).
Proof.
  intros Hcall.
  apply restartAppService_ok in Hcall as (-> & v1 & app & Hstop & Happ & Hexec).
  apply executeAppLocalNode_ok in Hexec as [_ ->].
  assert (quiet w v1) as Hq.
  { destruct Hstop as [[_ ->]|(entry & v & _ & Hkill & ->)]; [done|].
    apply killProcess_ok in Hkill as (p & _ & _ & _ & _ & _ & Hq). exact Hq. }
  unfold quiet in Hq. injection Hq as Hdb _ Hf Hd Hg _ _ _ _.
  exists app. split; [congruence|]. cbv zeta. simpl.
  unfold when, bind, Fs.existsSync, gets, FsTree.rm, modify, ret,
    Fs.is_file, Fs.is_dir.
  destruct removeNodeModules; simpl; [|by rewrite Hf, Hd, Hg].
  rewrite Hf, Hd, Hg.
  destruct (_ || _ || _); simpl; by rewrite ?Hf, ?Hd, ?Hg.
Qed.

(** X9.  A restart that answers leaves the files,
    the directories and the repositories as they were, except that, when
    asked to and when [node_modules] exists in the app's directory,
    nothing is left at or below it. *)
Theorem restart_cleans_node_modules (appId : Z) (removeNodeModules : bool)
    (w w' : World) (r : ServiceResult) :
  restartAppService appId removeNodeModules w = (Ok r, w') →
  ∃ app,
    find (λ a, bool_decide (app_id a = appId)) (db_apps w) = Some app
    ∧ let nm := Path.join (getDyadAppPath (app_path app)) "node_modules" in
      (∀ q, removeNodeModules = false ∨ FsTree.under nm q = false →
            same_at w w' q)
      ∧ (removeNodeModules = true →
         Fs.existsSync nm w = (Ok true, w) →
         ∀ q, FsTree.under nm q = true → nothing_at w' q).
Proof.
  intros Hcall. apply restart_fs in Hcall as (app & Happ & Hfs).
  exists app. split; [done|]. cbv zeta in *.
  set (nm := Path.join (getDyadAppPath (app_path app)) "node_modules") in *.
  injection Hfs as Hf Hd Hg. split.
  - intros q Hq. unfold same_at. rewrite Hf, Hd, Hg.
    destruct removeNodeModules; simpl; [|done].
    destruct Hq as [?|Hq]; [done|].
    destruct (_ || _ || _); [|done]. by apply rm_kept.
  - intros -> Hex q Hq. unfold nothing_at. rewrite Hf, Hd, Hg.
    unfold Fs.existsSync, gets in Hex. injection Hex as ->. simpl.
    by apply rm_gone.
Qed.

(** What a restart without cleaning needs to answer. *)
Lemma restart_plain_ok appId w r w' :
  r = mkResult true None
  ∧ (∃ v1 app,
       ((runningApps w !! appId = None ∧ v1 = w)
        ∨ ∃ entry v, runningApps w !! appId = Some entry
                     ∧ killProcess (process entry) w = (Ok tt, v)
                     ∧ v1 = set_runningApps (delete appId (runningApps v)) v)
       ∧ find (λ a, bool_decide (app_id a = appId)) (db_apps v1) = Some app
       ∧ executeAppLocalNode (getDyadAppPath (app_path app)) appId
           (set_busy_ports (busy_ports v1 ∖ {[32100]}) v1) = (Ok tt, w'))
  → restartAppService appId false w = (Ok r, w').
Proof.
  intros (-> & v1 & app & Hstop & Happ & Hexec).
  unfold restartAppService, withLock, try_catch.
  unfold bind at 1, gets. unfold bind at 1.
  assert (match runningApps w !! appId with
          | Some appInfo =>
              killProcess (process appInfo) >>
              modify (λ w0, set_runningApps (delete appId (runningApps w0)) w0)
          | None => ret tt
          end w = (Ok tt, v1)) as ->.
  { destruct Hstop as [[-> ->]|(entry & v & -> & Hkill & ->)]; [done|].
    unfold bind. by rewrite Hkill. }
  unfold bind at 1, killProcessOnPort, modify.
  unfold bind at 1, Db.findApp, gets. cbn [db_apps set_busy_ports].
  rewrite Happ. cbv zeta. unfold when at 1, bind at 1, ret at 1.
  unfold bind at 1. rewrite Hexec. reflexivity.
Qed.

(** What stopping and then running needs to answer. *)
Lemma stop_then_run_ok appId w r w' :
  (∀ entry, runningApps w !! appId = Some entry →
            has_exited (os_procs w !! process entry) = false) →
  (stopAppService appId >> runAppService appId) w = (Ok r, w') →
  r = mkResult true None
  ∧ ∃ v1 app,
      ((runningApps w !! appId = None ∧ v1 = w)
       ∨ ∃ entry v, runningApps w !! appId = Some entry
                    ∧ killProcess (process entry) w = (Ok tt, v)
                    ∧ v1 = set_runningApps (delete appId (runningApps v)) v)
      ∧ find (λ a, bool_decide (app_id a = appId)) (db_apps v1) = Some app
      ∧ executeAppLocalNode (getDyadAppPath (app_path app)) appId
          (set_busy_ports (busy_ports v1 ∖ {[32100]}) v1) = (Ok tt, w').
Proof.
  intros Halive.
  assert (∀ v, runningApps v !! appId = None →
            runAppService appId v = (Ok r, w') →
            r = mkResult true None
            ∧ ∃ app, find (λ a, bool_decide (app_id a = appId)) (db_apps v) = Some app
                ∧ executeAppLocalNode (getDyadAppPath (app_path app)) appId
                    (set_busy_ports (busy_ports v ∖ {[32100]}) v) = (Ok tt, w'))
    as Hrun.
  { intros v Hv. unfold runAppService, withLock, bind at 1, gets.
    rewrite Hv, bool_decide_eq_false_2 by (by intros [? ?]).
    unfold bind at 1, Db.findApp, gets.
    destruct (find _ _) as [app|]; [|unfold throw; intros [=]].
    unfold try_catch, bind at 1, killProcessOnPort, modify. unfold bind at 1.
    destruct (executeAppLocalNode _ _ _) as [[[]|e] v4] eqn:Hexec.
    - unfold ret. intros [= <- <-]. split; [done|]. by exists app.
    - unfold bind, cleanupFailedRun, modify, sendOutput, throw. intros [=]. }
  unfold bind at 1.
  destruct (stopAppService appId w) as [[x|e] v0] eqn:Hstop; [|intros [=]].
  pose proof (stopAppService_unregisters _ _ _ _ Hstop) as Hnone.
  intros Hcall. apply (Hrun _ Hnone) in Hcall as (-> & app & Happ & Hexec).
  split; [done|]. revert Hstop.
  unfold stopAppService, withLock, bind at 1, gets.
  destruct (runningApps w !! appId) as [entry|] eqn:Hentry.
  - unfold bind at 1. rewrite (Halive entry eq_refl).
    unfold try_catch, bind at 1.
    destruct (killProcess (process entry) w) as [[[]|e] v] eqn:Hkill.
    + pose proof (killProcess_registry _ _ _ _ _ _ Hkill Hentry) as Hv.
      unfold bind, removeAppIfCurrentProcess, killProcessOnPort, modify, ret.
      intros [= <- Hv0].
      assert (match runningApps v !! appId with
              | Some entry0 =>
                  if decide (process entry0 = process entry)
                  then set_runningApps (delete appId (runningApps v)) v
                  else v
              | None => v
              end = set_runningApps (delete appId (runningApps v)) v) as Hv1.
      { destruct Hv as [Hv|Hv]; rewrite Hv.
        - rewrite delete_id by done. by destruct v.
        - by rewrite decide_True. }
      rewrite Hv1 in Hv0. subst v0.
      exists (set_runningApps (delete appId (runningApps v)) v), app.
      split; [right; by eexists _, _|]. split; [exact Happ|].
      rewrite <- Hexec. f_equal. unfold set_busy_ports. simpl. f_equal.
      by rewrite difference_twice_L.
    + unfold bind, removeAppIfCurrentProcess, modify, throw. intros [=].
  - unfold ret. intros [= <- <-]. exists w, app. split; [by left|]. done.
Qed.

Lemma stop_then_run_plain appId w r w' :
  (∀ entry, runningApps w !! appId = Some entry →
            has_exited (os_procs w !! process entry) = false) →
  r = mkResult true None
  ∧ (∃ v1 app,
       ((runningApps w !! appId = None ∧ v1 = w)
        ∨ ∃ entry v, runningApps w !! appId = Some entry
                     ∧ killProcess (process entry) w = (Ok tt, v)
                     ∧ v1 = set_runningApps (delete appId (runningApps v)) v)
       ∧ find (λ a, bool_decide (app_id a = appId)) (db_apps v1) = Some app
       ∧ executeAppLocalNode (getDyadAppPath (app_path app)) appId
           (set_busy_ports (busy_ports v1 ∖ {[32100]}) v1) = (Ok tt, w'))
  → (stopAppService appId >> runAppService appId) w = (Ok r, w').
Proof.
  intros Halive (-> & v1 & app & Hstop & Happ & Hexec).
  assert (∀ v, runningApps v !! appId = None →
            find (λ a, bool_decide (app_id a = appId)) (db_apps v) = Some app →
            executeAppLocalNode (getDyadAppPath (app_path app)) appId
              (set_busy_ports (busy_ports v ∖ {[32100]}) v) = (Ok tt, w') →
            runAppService appId v = (Ok (mkResult true None), w')) as Hrun.
  { intros v Hv Hfind Hx. unfold runAppService, withLock, bind at 1, gets.
    rewrite Hv, bool_decide_eq_false_2 by (by intros [? ?]).
    unfold bind at 1, Db.findApp, gets. rewrite Hfind.
    unfold try_catch, bind at 1, killProcessOnPort, modify. unfold bind at 1.
    by rewrite Hx. }
  unfold bind at 1, stopAppService, withLock. unfold bind at 1, gets.
  destruct Hstop as [[Hnone ->]|(entry & v & Hentry & Hkill & ->)].
  - rewrite Hnone. unfold ret. by apply Hrun.
  - rewrite Hentry. unfold bind at 1. rewrite (Halive entry Hentry).
    unfold try_catch, bind at 1. rewrite Hkill.
    pose proof (killProcess_registry _ _ _ _ _ _ Hkill Hentry) as Hv.
    unfold bind, removeAppIfCurrentProcess, killProcessOnPort, modify, ret.
    assert (match runningApps v !! appId with
            | Some entry0 =>
                if decide (process entry0 = process entry)
                then set_runningApps (delete appId (runningApps v)) v
                else v
            | None => v
            end = set_runningApps (delete appId (runningApps v)) v) as ->.
    { destruct Hv as [Hv|Hv]; rewrite Hv.
      - rewrite delete_id by done. by destruct v.
      - by rewrite decide_True. }
    apply Hrun.
    + simpl. apply lookup_delete_eq.
    + exact Happ.
    + rewrite <- Hexec. f_equal. unfold set_busy_ports. simpl. f_equal.
      by rewrite difference_twice_L.
Qed.

(** X11.  For an app that is not registered, or whose
    registered process has not exited, stopping and then running
    answers success exactly when restarting without cleaning does, with
    the same answer and the same resulting world. *)
Theorem stop_then_run_is_restart (appId : Z) (w w' : World) (r : ServiceResult) :
  (∀ entry, runningApps w !! appId = Some entry →
            has_exited (os_procs w !! process entry) = false) →
  (stopAppService appId >> runAppService appId) w = (Ok r, w')
  ↔ restartAppService appId false w = (Ok r, w').
Proof.
  intros Halive. split.
  - intros Hcall. apply restart_plain_ok. by apply stop_then_run_ok.
  - intros Hcall. apply stop_then_run_plain; [done|].
    apply restartAppService_ok in Hcall. exact Hcall.
Qed.

End RestartFiles.

(** ** Deleting and renaming apps *)

Section AppServiceFacts.
Context {env : Env}.

Lemma find_filter_other (appId : Z) (l : list App) :
  find (λ a, bool_decide (app_id a = appId)) (filter (λ a, app_id a ≠ appId) l)
  = None.
Proof.
  induction l as [|a l IH]; [done|].
  rewrite filter_cons. destruct (decide (app_id a ≠ appId)) as [Hne|]; [|done].
  simpl. by rewrite bool_decide_eq_false_2.
Qed.

Lemma find_filter_keeps (appId other : Z) (l : list App) :
  other ≠ appId →
  find (λ a, bool_decide (app_id a = other)) (filter (λ a, app_id a ≠ appId) l)
  = find (λ a, bool_decide (app_id a = other)) l.
Proof.
  intros Hne. induction l as [|a l IH]; [done|].
  rewrite filter_cons. destruct (decide (app_id a ≠ appId)) as [Ha|Ha].
  - simpl. by rewrite IH.
  - simpl. rewrite IH. rewrite bool_decide_eq_false_2; [done|].
    intros Heq. apply Ha. congruence.
Qed.

Lemma deleteAppService_found appId w app :
  find (λ a, bool_decide (app_id a = appId)) (db_apps w) = Some app →
  deleteAppService appId w
  = (Ok (mkResult true None),
     AppsTable.set_apps (filter (λ a, app_id a ≠ appId) (db_apps w))
       (if Fs.is_file w (getDyadAppPath (app_path app))
           || Fs.is_dir w (getDyadAppPath (app_path app))
           || bool_decide (is_Some (git_repos w !! getDyadAppPath (app_path app)))
        then (FsTree.rm (getDyadAppPath (app_path app)) w).2 else w)).
Proof.
  intros Happ.
  unfold deleteAppService, bind at 1, Db.findApp, gets. rewrite Happ.
  cbv zeta. unfold bind at 1, try_catch at 1, bind at 1, Fs.existsSync, gets.
  unfold when, FsTree.rm, modify, ret, try_catch, bind, AppsTable.delete, modify.
  destruct (_ || _ || _); reflexivity.
Qed.

(** X12.  When deleting an app answers, for an app whose directory is
    named without a separator at its end, the answer is success: the
    row of the app is gone and the other rows stay; when the app's
    directory exists nothing is left at or below it; whatever is
    elsewhere is untouched; and the registry of running apps is not
    consulted nor changed. *)
Theorem delete_removes_app (appId : Z) (w w' : World) (r : ServiceResult)
    (app : App) :
  deleteAppService appId w = (Ok r, w') →
  find (λ a, bool_decide (app_id a = appId)) (db_apps w) = Some app →
  let appPath := getDyadAppPath (app_path app) in
  Path.last_is_slash appPath = false →
  r = mkResult true None
  ∧ db_apps w' = filter (λ a, app_id a ≠ appId) (db_apps w)
  ∧ Db.findApp appId w' = (Ok None, w')
  ∧ (∀ other, other ≠ appId →
       (Db.findApp other w').1 = (Db.findApp other w).1)
  ∧ (∀ q, FsTree.under appPath q = false → same_at w w' q)
  ∧ (Fs.existsSync appPath w = (Ok true, w) →
     ∀ q, FsTree.under appPath q = true → nothing_at w' q)
  ∧ (Fs.existsSync appPath w = (Ok false, w) → ∀ q, same_at w w' q)
  ∧ runningApps w' = runningApps w
  ∧ os_procs w' = os_procs w.
Proof.
  intros Hcall Happ appPath _. rewrite (deleteAppService_found _ _ _ Happ) in Hcall.
  fold appPath in Hcall. injection Hcall as <- <-. split; [reflexivity|].
  unfold Db.findApp, Fs.existsSync, gets.
  destruct (Fs.is_file w appPath || Fs.is_dir w appPath
            || bool_decide (is_Some (git_repos w !! appPath))) eqn:Hex;
    cbn -[find filter FsTree.under].
  - split; [done|]. split; [by rewrite find_filter_other|].
    split; [intros other Hne; by rewrite find_filter_keeps|].
    split; [intros q Hq; exact (rm_kept _ _ w Hq)|].
    split; [intros _ q Hq; exact (rm_gone _ _ w Hq)|].
    split; [intros [=]|]. done.
  - split; [done|]. split; [by rewrite find_filter_other|].
    split; [intros other Hne; by rewrite find_filter_keeps|].
    split; [done|]. split; [intros [=]|]. done.
Qed.

Lemma rename_err_same old new w e w' :
  FsTree.rename old new w = (Err e, w') → w' = w.
Proof.
  unfold FsTree.rename.
  repeat (match goal with |- context [if ?b then _ else _] => destruct b end);
    by intros [= <-].
Qed.

Lemma rename_rest_of old new w r w' :
  FsTree.rename old new w = (r, w') → rest_of w' = rest_of w.
Proof.
  unfold FsTree.rename.
  repeat (match goal with |- context [if ?b then _ else _] => destruct b end);
    by intros [= <- <-].
Qed.

Lemma mkdir_rest_of dir w r w' :
  Fs.mkdir dir w = (r, w') →
  rest_of w' = rest_of w ∧ fs_files w' = fs_files w
  ∧ git_repos w' = git_repos w ∧ fs_dirs w ⊆ fs_dirs w'.
Proof.
  unfold Fs.mkdir. destruct (existsb _ _); intros [= <- <-]; [done|].
  simpl. repeat split. apply union_subseteq_r.
Qed.

Lemma find_head_filter (appId : Z) (l : list App) (app : App) :
  find (λ a, bool_decide (app_id a = appId)) l = Some app →
  filter (λ a, app_id a = appId) l !! 0%nat = Some app ∧ app_id app = appId.
Proof.
  induction l as [|a l IH]; [done|]. simpl. rewrite filter_cons.
  destruct (decide (app_id a = appId)) as [Ha|Ha].
  - rewrite bool_decide_eq_true_2 by done. by intros [= <-].
  - rewrite bool_decide_eq_false_2 by done. exact IH.
Qed.

Lemma find_renamed appId n p l :
  find (λ a, bool_decide (app_id a = appId)) (AppsTable.renamed appId n p <$> l)
  = AppsTable.renamed appId n p <$> find (λ a, bool_decide (app_id a = appId)) l.
Proof.
  induction l as [|a l IH]; [done|]. simpl.
  destruct (decide (app_id a = appId)) as [Ha|Ha].
  - rewrite (bool_decide_eq_true_2 (app_id a = appId)) by done.
    rewrite bool_decide_eq_true_2; [done|].
    unfold AppsTable.renamed. by rewrite decide_True.
  - rewrite (bool_decide_eq_false_2 (app_id a = appId)) by done.
    rewrite bool_decide_eq_false_2; [exact IH|].
    unfold AppsTable.renamed. by rewrite decide_False.
Qed.

(** The stages of a rename that answers. *)
Lemma renameAppService_ok appId appName appPath w r w' :
  renameAppService appId appName appPath w = (Ok r, w') →
  ∃ app w2,
    find (λ a, bool_decide (app_id a = appId)) (db_apps w) = Some app
    ∧ conflicts (find (λ a, bool_decide (app_name a = appName)) (db_apps w)) appId
      = false
    ∧ conflicts (find (λ a, bool_decide (app_path a = appPath)) (db_apps w)) appId
      = false
    ∧ ((getDyadAppPath appPath = getDyadAppPath (app_path app) ∧ w2 = w)
       ∨ (getDyadAppPath appPath ≠ getDyadAppPath (app_path app)
          ∧ Fs.existsSync (getDyadAppPath appPath) w = (Ok false, w)
          ∧ ∃ w1,
              Fs.mkdir (Path.dirname (getDyadAppPath appPath)) w = (Ok tt, w1)
              ∧ FsTree.rename (getDyadAppPath (app_path app))
                  (getDyadAppPath appPath) w1 = (Ok tt, w2)))
    ∧ w' = AppsTable.set_apps
             (AppsTable.renamed appId appName appPath <$> db_apps w) w2
    ∧ r = mkRenameResult true (Some (mkApp appId appName appPath)).
Proof.
  unfold renameAppService, bind at 1, Db.findApp, gets.
  destruct (find _ (db_apps w)) as [app|] eqn:Happ; [|unfold throw; intros [=]].
  unfold bind at 1, AppsTable.findByName, gets.
  unfold bind at 1, AppsTable.findByPath, gets.
  destruct (conflicts _ _) eqn:Hname; [unfold throw; intros [=]|].
  destruct (conflicts (find (λ a, bool_decide (app_path a = appPath)) _) _)
    eqn:Hpath; [unfold throw; intros [=]|].
  cbv zeta. unfold bind at 1.
  assert (∀ (b : bool) w2, db_apps w2 = db_apps w →
            try_catch
              (let! updated := AppsTable.update appId appName appPath in
               ret (mkRenameResult true (updated !! 0%nat)))
              (λ msg,
                 when b
                   (try_catch
                      (FsTree.rename (getDyadAppPath appPath)
                         (getDyadAppPath (app_path app)))
                      (λ _, ret tt)) >>
                 throw ("Failed to update app in database: " +:+ msg)) w2
            = (Ok (mkRenameResult true (Some (mkApp appId appName appPath))),
               AppsTable.set_apps
                 (AppsTable.renamed appId appName appPath <$> db_apps w) w2))
    as Hupdate.
  { intros b w2 Hdb. unfold try_catch, bind, AppsTable.update, ret. rewrite Hdb.
    apply find_head_filter in Happ as [Hhead Hid].
    rewrite list_lookup_fmap, Hhead. simpl.
    unfold AppsTable.renamed. rewrite decide_True by done. by rewrite Hid. }
  destruct (decide (getDyadAppPath appPath = getDyadAppPath (app_path app)))
    as [Heq|Hne].
  - rewrite bool_decide_eq_true_2 by done. unfold when at 1. cbn [negb].
    cbv iota. unfold ret at 1.
    rewrite Hupdate by done. intros [= <- <-].
    exists app, w. repeat split; try done. by left.
  - rewrite bool_decide_eq_false_2 by done. unfold when at 1. cbn [negb].
    cbv iota.
    unfold try_catch at 1, bind at 1, Fs.existsSync at 1, gets.
    destruct (_ || _ || _) eqn:Hex.
    { unfold bind, throw. intros [=]. }
    unfold bind at 1, ret at 1. unfold bind at 1.
    destruct (Fs.mkdir _ w) as [[[]|e1] w1] eqn:Hmk; [|unfold throw; intros [=]].
    destruct (FsTree.rename _ _ w1) as [[[]|e2] w2] eqn:Hmv;
      [|unfold throw; intros [=]].
    apply rename_rest_of in Hmv as Hr2. apply mkdir_rest_of in Hmk as (Hr1 & _).
    rewrite Hupdate.
    2:{ unfold rest_of in *. congruence. }
    intros [= <- <-]. exists app, w2. repeat split; try done.
    right. split; [done|]. split.
    + unfold Fs.existsSync, gets. by rewrite Hex.
    + by exists w1.
Qed.

(** A rename that fails only leaves the directories it has created. *)
Lemma renameAppService_err appId appName appPath w e w' :
  renameAppService appId appName appPath w = (Err e, w') →
  rest_of w' = rest_of w ∧ fs_files w' = fs_files w
  ∧ git_repos w' = git_repos w ∧ fs_dirs w ⊆ fs_dirs w'.
Proof.
  unfold renameAppService, bind at 1, Db.findApp, gets.
  destruct (find _ (db_apps w)) as [app|] eqn:Happ;
    [|unfold throw; by intros [= <- <-]].
  unfold bind at 1, AppsTable.findByName, gets.
  unfold bind at 1, AppsTable.findByPath, gets.
  destruct (conflicts _ _) eqn:Hname; [unfold throw; by intros [= <- <-]|].
  destruct (conflicts (find (λ a, bool_decide (app_path a = appPath)) _) _)
    eqn:Hpath; [unfold throw; by intros [= <- <-]|].
  cbv zeta. unfold bind at 1.
  assert (∀ (b : bool) w2 x, try_catch
              (let! updated := AppsTable.update appId appName appPath in
               ret (mkRenameResult true (updated !! 0%nat)))
              (λ msg,
                 when b
                   (try_catch
                      (FsTree.rename (getDyadAppPath appPath)
                         (getDyadAppPath (app_path app)))
                      (λ _, ret tt)) >>
                 throw ("Failed to update app in database: " +:+ msg)) w2
            ≠ (Err e, x)) as Hupdate.
  { intros b w2 x. unfold try_catch, bind, AppsTable.update, ret. done. }
  destruct (decide (getDyadAppPath appPath = getDyadAppPath (app_path app)))
    as [Heq|Hne].
  - rewrite bool_decide_eq_true_2 by done. unfold when at 1. cbn [negb].
    cbv iota. unfold ret at 1.
    intros Hx. by apply Hupdate in Hx.
  - rewrite bool_decide_eq_false_2 by done. unfold when at 1. cbn [negb].
    cbv iota.
    unfold try_catch at 1, bind at 1, Fs.existsSync at 1, gets.
    destruct (_ || _ || _) eqn:Hex.
    { unfold bind, throw. by intros [= <- <-]. }
    unfold bind at 1, ret at 1. unfold bind at 1.
    destruct (Fs.mkdir _ w) as [[[]|e1] w1] eqn:Hmk.
    2:{ apply mkdir_rest_of in Hmk. unfold throw. by intros [= <- <-]. }
    destruct (FsTree.rename _ _ w1) as [[[]|e2] w2] eqn:Hmv.
    { intros Hx. by apply Hupdate in Hx. }
    apply rename_err_same in Hmv as ->. apply mkdir_rest_of in Hmk.
    unfold throw. by intros [= <- <-].
Qed.

(** X14.  A rename that fails changes neither the apps
    table nor any file or repository: all it may leave behind is the
    parent directory it created for the destination. *)
Theorem rename_failure_frame (appId : Z) (appName appPath : string)
    (w w' : World) (e : string) :
  renameAppService appId appName appPath w = (Err e, w') →
  db_apps w' = db_apps w
  ∧ fs_files w' = fs_files w
  ∧ git_repos w' = git_repos w
  ∧ fs_dirs w ⊆ fs_dirs w'
  ∧ rest_of w' = rest_of w.
Proof.
  intros Hcall. apply renameAppService_err in Hcall as (Hrest & Hf & Hg & Hd).
  repeat split; try done. unfold rest_of in Hrest. congruence.
Qed.

(** X13.  A rename that answers has set the name and the path
    of the row of the app, which it returns, and has left every other
    row as it was; when the directory does not change, nothing but the
    table has changed. *)
Theorem rename_updates_row (appId : Z) (appName appPath : string)
    (w w' : World) (r : RenameResult) :
  renameAppService appId appName appPath w = (Ok r, w') →
  r = mkRenameResult true (Some (mkApp appId appName appPath))
  ∧ Db.findApp appId w' = (Ok (Some (mkApp appId appName appPath)), w')
  ∧ db_apps w' = AppsTable.renamed appId appName appPath <$> db_apps w
  ∧ (∀ a, app_id a ≠ appId → a ∈ db_apps w' ↔ a ∈ db_apps w)
  ∧ (∀ app, find (λ a, bool_decide (app_id a = appId)) (db_apps w) = Some app →
       getDyadAppPath appPath = getDyadAppPath (app_path app) →
       w' = AppsTable.set_apps (db_apps w') w).
Proof.
  intros Hcall.
  apply renameAppService_ok in Hcall
    as (app & w2 & Happ & _ & _ & Hmove & -> & ->).
  split; [done|]. simpl.
  split.
  { unfold Db.findApp, gets. cbn [db_apps AppsTable.set_apps].
    rewrite find_renamed, Happ. simpl. unfold AppsTable.renamed.
    apply find_head_filter in Happ as [_ Hid].
    rewrite decide_True by done. by rewrite Hid. }
  split; [done|]. split.
  - intros a Ha. rewrite list_elem_of_fmap. split.
    + intros (b & -> & Hb). unfold AppsTable.renamed in *.
      destruct (decide (app_id b = appId)); [done|exact Hb].
    + intros Hin. exists a. split; [|done]. unfold AppsTable.renamed.
      by rewrite decide_False.
  - intros app' Happ' Heq. assert (app' = app) as -> by congruence.
    destruct Hmove as [[_ ->]|[Hne _]]; done.
Qed.

Lemma NoDup_fmap_inj_on {A B} (f : A → B) (l : list A) (a b : A) :
  NoDup (f <$> l) → a ∈ l → b ∈ l → f a = f b → a = b.
Proof.
  induction l as [|c l IH]; [by intros _ ?%elem_of_nil|].
  rewrite fmap_cons, NoDup_cons. intros [Hc Hl] Ha Hb Hab.
  apply elem_of_cons in Ha as [->|Ha]; apply elem_of_cons in Hb as [->|Hb].
  - done.
  - exfalso. apply Hc. rewrite Hab. apply list_elem_of_fmap. by exists b.
  - exfalso. apply Hc. rewrite <- Hab. apply list_elem_of_fmap. by exists a.
  - by apply IH.
Qed.

Lemma conflicts_false {B} `{EqDecision B} (f : App → B) (x : B) appId (l : list App) :
  conflicts (find (λ a, bool_decide (f a = x)) l) appId = false →
  NoDup (f <$> l) →
  ∀ a, a ∈ l → f a = x → app_id a = appId.
Proof.
  intros Hconf Hnd a Ha Hfa.
  destruct (find _ l) as [o|] eqn:Hfind.
  - apply find_some in Hfind as [Ho Hfo]. apply bool_decide_eq_true in Hfo.
    apply list_elem_of_In in Ho.
    assert (a = o) as -> by (eapply NoDup_fmap_inj_on; eauto; congruence).
    simpl in Hconf. apply negb_false_iff, bool_decide_eq_true in Hconf. done.
  - apply list_elem_of_In in Ha.
    pose proof (find_none _ _ Hfind a Ha) as Hx. simpl in Hx.
    by apply bool_decide_eq_false in Hx.
Qed.

Lemma renamed_NoDup {B} (f : App → B) (x : B) appId n p (l : list App) :
  (∀ a, f (AppsTable.renamed appId n p a)
        = if decide (app_id a = appId) then x else f a) →
  NoDup (app_id <$> l) → NoDup (f <$> l) →
  (∀ a, a ∈ l → f a = x → app_id a = appId) →
  NoDup (f <$> (AppsTable.renamed appId n p <$> l)).
Proof.
  intros Hf. induction l as [|a l IH]; [intros; constructor|].
  rewrite !fmap_cons, !NoDup_cons. intros [Hid Hids] [Hfa Hfs] Hx.
  split.
  - intros Hin. apply list_elem_of_fmap in Hin as (b' & Hb' & Hin).
    apply list_elem_of_fmap in Hin as (b & -> & Hb).
    rewrite !Hf in Hb'.
    destruct (decide (app_id a = appId)) as [Ha|Ha];
      destruct (decide (app_id b = appId)) as [Hbid|Hbid].
    + apply Hid. apply list_elem_of_fmap. exists b. split; [congruence|done].
    + apply Hbid. apply Hx; [by right|done].
    + apply Ha. apply Hx; [by left|done].
    + apply Hfa. apply list_elem_of_fmap. by exists b.
  - apply IH; [done|done|]. intros b Hb. apply Hx. by right.
Qed.

(** X15.  Renaming keeps the table free of duplicates: when
    no two rows share an id, a name or a path before the call, none do
    after it, whatever it answers. *)
Theorem rename_keeps_unique (appId : Z) (appName appPath : string) (w : World) :
  apps_unique w →
  apps_unique (renameAppService appId appName appPath w).2.
Proof.
  intros (Hids & Hnames & Hpaths).
  destruct (renameAppService appId appName appPath w) as [[r|e] w'] eqn:Hcall.
  - apply renameAppService_ok in Hcall
      as (app & w2 & Happ & Hname & Hpath & _ & -> & _).
    unfold apps_unique. cbn [snd db_apps AppsTable.set_apps]. split; [|split].
    + rewrite <- list_fmap_compose.
      assert (app_id ∘ AppsTable.renamed appId appName appPath <$> db_apps w
              = app_id <$> db_apps w) as ->; [|done].
      apply list_fmap_ext. intros i a _. simpl. unfold AppsTable.renamed.
      by destruct (decide (app_id a = appId)).
    + apply (renamed_NoDup app_name appName); [|done|done|].
      * intros a. unfold AppsTable.renamed.
        by destruct (decide (app_id a = appId)).
      * by apply conflicts_false.
    + apply (renamed_NoDup app_path appPath); [|done|done|].
      * intros a. unfold AppsTable.renamed.
        by destruct (decide (app_id a = appId)).
      * by apply conflicts_false.
  - apply renameAppService_err in Hcall as (Hrest & _).
    unfold rest_of in Hrest. injection Hrest as Hdb _ _ _ _ _ _ _ _.
    unfold apps_unique. simpl. by rewrite Hdb.
Qed.

End AppServiceFacts.

Section HandlerFacts.
Context {env : Env}.

Lemma stopAppService_tables appId w r w' :
  stopAppService appId w = (r, w') →
  (db_apps w', fs_files w', fs_dirs w', git_repos w')
  = (db_apps w, fs_files w, fs_dirs w, git_repos w).
Proof.
  unfold stopAppService, withLock, bind at 1, gets.
  destruct (runningApps w !! appId) as [entry|];
    [|unfold ret; by intros [= <- <-]].
  unfold bind at 1. destruct (has_exited _).
  { unfold bind, modify, ret. by intros [= <- <-]. }
  unfold try_catch, bind at 1.
  destruct (killProcess (process entry) w) as [[[]|e] v] eqn:Hkill.
  - apply killProcess_ok in Hkill as (p & _ & _ & _ & _ & _ & Hq).
    unfold quiet in Hq. injection Hq as Hdb _ Hf Hd Hg _ _ _ _.
    unfold bind, removeAppIfCurrentProcess, killProcessOnPort, modify, ret.
    intros [= <- <-]. simpl.
    destruct (runningApps v !! appId) as [e|]; [destruct (decide _)|];
      simpl; congruence.
  - apply killProcess_err in Hkill as [-> _].
    unfold bind, removeAppIfCurrentProcess, modify, throw.
    intros [= <- <-]. simpl.
    by destruct (runningApps w !! appId) as [e'|]; [destruct (decide _)|].
Qed.

(** The handlers' first step never fails and leaves the app
    unregistered. *)
Lemma stopIfRunning_spec appId w :
  ∃ w', stopIfRunning appId w = (Ok tt, w')
        ∧ runningApps w' !! appId = None
        ∧ (db_apps w', fs_files w', fs_dirs w', git_repos w')
          = (db_apps w, fs_files w, fs_dirs w, git_repos w).
Proof.
  unfold stopIfRunning, bind at 1, gets.
  destruct (runningApps w !! appId) as [entry|] eqn:Hentry.
  - rewrite bool_decide_eq_true_2 by eauto. unfold when, try_catch, bind.
    destruct (stopAppService appId w) as [[x|e] w'] eqn:Hstop.
    + exists w'. split; [done|].
      split; [by eapply stopAppService_unregisters|by eapply stopAppService_tables].
    + exists w'. split; [done|].
      split; [by eapply stopAppService_unregisters|by eapply stopAppService_tables].
  - rewrite bool_decide_eq_false_2 by (by intros [? ?]).
    exists w. by repeat split.
Qed.

Lemma deleteAppService_registry appId w :
  runningApps (deleteAppService appId w).2 = runningApps w.
Proof.
  destruct (find (λ a, bool_decide (app_id a = appId)) (db_apps w)) as [app|]
    eqn:Happ.
  - rewrite (deleteAppService_found _ _ _ Happ). simpl.
    by destruct (_ || _ || _).
  - unfold deleteAppService, bind, Db.findApp, gets. by rewrite Happ.
Qed.

Lemma renameAppService_registry appId appName appPath w :
  runningApps (renameAppService appId appName appPath w).2 = runningApps w.
Proof.
  destruct (renameAppService appId appName appPath w) as [[r|e] w'] eqn:Hcall.
  - apply renameAppService_ok in Hcall
      as (app & w2 & _ & _ & _ & Hmove & -> & _). simpl.
    destruct Hmove as [[_ ->]|(_ & _ & w1 & Hmk & Hmv)]; [done|].
    apply rename_rest_of in Hmv. apply mkdir_rest_of in Hmk as (Hmk & _).
    unfold rest_of in *. congruence.
  - apply renameAppService_err in Hcall as (Hrest & _).
    unfold rest_of in Hrest. simpl. congruence.
Qed.

(** X18.  The delete and rename handlers stop the app first, and a
    failure to stop it is not theirs: each answers what its service
    answers in the world the attempt to stop left, where the app has no
    registry entry; and whatever they answer, the app has no registry
    entry afterwards. *)
Theorem handlers_stop_first (appId : Z) (appName appPath : string) (w : World) :
  let v := (stopIfRunning appId w).2 in
  runningApps v !! appId = None
  ∧ deleteAppHandler appId w = deleteAppService appId v
  ∧ renameAppHandler appId appName appPath w
    = renameAppService appId appName appPath v
  ∧ runningApps (deleteAppHandler appId w).2 !! appId = None
  ∧ runningApps (renameAppHandler appId appName appPath w).2 !! appId = None.
Proof.
  destruct (stopIfRunning_spec appId w) as (v & Hstop & Hnone & _).
  unfold deleteAppHandler, renameAppHandler, bind. rewrite Hstop. simpl.
  split; [done|]. split; [done|]. split; [done|]. split.
  - by rewrite deleteAppService_registry.
  - by rewrite renameAppService_registry.
Qed.

End HandlerFacts.

(** ** More on reading and editing files *)

Section FileServiceFacts.
Context {env : Env}.



Lemma add_err_same dir filepath w e w' :
  Git.add dir filepath w = (Err e, w') → w' = w.
Proof.
  unfold Git.add, bind at 1. intros Hadd.
  destruct (Git.getRepo dir w) as [[r|e0] w0] eqn:Hrepo.
  - apply getRepo_inv in Hrepo as [-> Hr].
    destruct (decide (filepath = ".")) as [->|Hne].
    + unfold bind, gets, Git.putRepo, modify in Hadd. simplify_eq.
    + unfold bind at 1, gets in Hadd.
      destruct (Git.isIgnored w dir filepath);
        [unfold ret in Hadd; by simplify_eq|].
      unfold bind at 1 in Hadd.
      destruct (fs_files w !! Path.join dir filepath);
        unfold throw, Git.putRepo, modify in Hadd; by simplify_eq.
  - apply getRepo_err in Hrepo as [-> _]. by simplify_eq.
Qed.


Lemma commit_never_fails_after dir msg author w r :
  git_repos w !! Git.gitdir dir = Some r →
  ∃ h w', Git.commit_ dir msg author w = (Ok h, w').
Proof.
  intros Hr. unfold Git.commit_, bind at 1, Git.getRepo. rewrite Hr.
  unfold bind, gets, Git.putRepo, modify, ret. by eexists _, _.
Qed.







(** X22.  Listing the versions of an app and reading one of its
    files never change the world, whatever they answer. *)
Theorem read_services_pure (appId : Z) (filePath : string) (w : World) :
  (listVersionsService appId w).2 = w
  ∧ (readAppFileService appId filePath w).2 = w.
Proof.
  split.
  - unfold listVersionsService, bind at 1, Db.findApp, gets.
    destruct (find _ _) as [app|]; [|done].
    cbv zeta. unfold bind at 1, Fs.existsSync, gets.
    destruct (_ || _ || _); [|done]. cbn [negb]. cbv iota.
    unfold try_catch, bind at 1, Git.log, bind at 1.
    destruct (Git.getRepo _ w) as [[r|e] w0] eqn:Hrepo.
    + apply getRepo_inv in Hrepo as [-> _].
      by destruct (Git.resolveHead r).
    + by apply getRepo_err in Hrepo as [-> _].
  - unfold readAppFileService, bind at 1, Db.findApp, gets.
    destruct (find _ _) as [app|]; [|done].
    cbv zeta. destruct (Path.startsWith _ _); [|done].
    cbn [negb]. cbv iota. unfold bind, Fs.existsSync, gets.
    destruct (_ || _ || _); [|done]. cbn [negb]. cbv iota.
    unfold try_catch, Fs.readFileSync. by destruct (fs_files w !! _).
Qed.

End FileServiceFacts.

(** ** More on versions *)

Section MoreVersionFacts.
Context {env : Env}.

Lemma history_kept_refl w : history_kept w w.
Proof. intros g. destruct (git_repos w !! g) as [r|] eqn:Hr; [|done]. eauto. Qed.

Lemma history_kept_trans w1 w2 w3 :
  history_kept w1 w2 → history_kept w2 w3 → history_kept w1 w3.
Proof.
  intros H12 H23 g. specialize (H12 g). specialize (H23 g).
  destruct (git_repos w1 !! g) as [r1|].
  - destruct H12 as (r2 & Hr2 & Ho & Hb). rewrite Hr2 in H23.
    destruct H23 as (r3 & Hr3 & Ho' & Hb'). exists r3.
    split; [done|]. split; congruence.
  - by rewrite H12 in H23.
Qed.

Lemma history_kept_same w w' :
  git_repos w' = git_repos w → history_kept w w'.
Proof. intros Heq g. rewrite Heq. apply history_kept_refl. Qed.

Lemma touches_history_kept g paths w w' :
  touches g paths w w' → history_kept w w'.
Proof.
  intros (_ & Hoth & Hrepo & _) g'.
  destruct (decide (g' = g)) as [->|Hne].
  - destruct (git_repos w !! g) as [r|]; [|done].
    destruct Hrepo as (r' & Hr' & (Ho & Hb & _) & _). eauto.
  - rewrite (Hoth g' Hne). apply history_kept_refl.
Qed.

Lemma touches_rest g paths w w' : touches g paths w w' → rest_of w' = rest_of w.
Proof. by intros (? & _). Qed.

(** Whatever a checkout answers, it makes no commit and moves no
    branch. *)
Lemma checkout_history_kept dir ref w res w' :
  Git.checkout dir ref w = (res, w') →
  rest_of w' = rest_of w ∧ history_kept w w'.
Proof.
  unfold Git.checkout, bind at 1.
  destruct (Git.getRepo dir w) as [[r|e] v] eqn:Hrepo.
  2:{ apply getRepo_err in Hrepo as [-> _]. intros [= <- <-].
      split; [done|apply history_kept_refl]. }
  apply getRepo_inv in Hrepo as [-> Hr].
  destruct (Git.resolve r ref) as [c|] eqn:Hc.
  2:{ unfold throw. intros [= <- <-]. split; [done|apply history_kept_refl]. }
  unfold bind at 1.
  destruct (forM_ (Git.dropEntry _ _) _ w) as [[[]|e] v1] eqn:Hdrop;
    apply (forM_fs_only _ _ (dropEntry_fs_only dir (c_tree c))) in Hdrop
      as [Hrest1 Hrepos1].
  2:{ intros [= <- <-]. split; [done|by apply history_kept_same]. }
  unfold bind at 1.
  destruct (forM_ (Git.writeEntry _) _ v1) as [[[]|e] v2] eqn:Hwrite;
    apply (forM_fs_only _ _ (writeEntry_fs_only dir)) in Hwrite
      as [Hrest2 Hrepos2].
  2:{ intros [= <- <-]. split; [congruence|].
      apply history_kept_same. congruence. }
  unfold Git.putRepo, modify. intros [= <- <-]. simpl.
  split; [etrans; [exact Hrest2|exact Hrest1]|].
  intros g. unfold set_repos. cbn [git_repos]. rewrite Hrepos2, Hrepos1.
  destruct (decide (g = Git.gitdir dir)) as [->|Hne].
  - rewrite Hr, lookup_insert_eq. eauto.
  - rewrite lookup_insert_ne by done.
    destruct (git_repos w !! g); eauto.
Qed.

Lemma statusMatrix_same dir ref w res w' :
  Git.statusMatrix dir ref w = (res, w') → w' = w.
Proof.
  unfold Git.statusMatrix, bind at 1.
  destruct (Git.getRepo dir w) as [[r|e] v] eqn:Hrepo.
  - apply getRepo_inv in Hrepo as [-> _].
    destruct (Git.resolve r ref); unfold bind, gets, ret, throw; by intros [= <- <-].
  - apply getRepo_err in Hrepo as [-> _]. by intros [= <- <-].
Qed.

(** X24.  A revert that fails on the way to the commit (the
    app is unknown, or the checkout of main, the status matrix, a step of
    the loop or the staging fails) has made no commit, moved no branch
    and pruned no message: every repository has the objects and the
    branches it had, and the tables, the registry and the processes are
    as before. *)
Theorem revert_failure_frame (appId : Z) (previousVersionId : string)
    (w w' : World) (e : string) :
  revertVersionService appId previousVersionId w = (Err e, w') →
  rest_of w' = rest_of w ∧ db_messages w' = db_messages w ∧ history_kept w w'.
Proof.
  intros Hcall.
  assert (rest_of w' = rest_of w ∧ history_kept w w') as [Hrest Hkept];
    [|split; [done|split; [unfold rest_of in Hrest; congruence|done]]].
  revert Hcall.
  unfold revertVersionService, bind at 1, Db.findApp, gets.
  destruct (find _ _) as [app|];
    [|unfold throw; intros [= <- <-]; split; [done|apply history_kept_refl]].
  cbv zeta. unfold try_catch, bind at 1.
  set (appPath := getDyadAppPath (app_path app)).
  destruct (Git.checkout appPath "main" w) as [[[]|e1] wa] eqn:Hco;
    apply checkout_history_kept in Hco as [Hr1 Hk1].
  2:{ unfold throw. by intros [= <- <-]. }
  unfold bind at 1.
  destruct (Git.statusMatrix appPath previousVersionId wa) as [[matrix|e2] wa']
    eqn:Hsm; apply statusMatrix_same in Hsm as ->.
  2:{ unfold throw. by intros [= <- <-]. }
  unfold bind at 1.
  destruct (revertLoop appPath previousVersionId matrix wa) as [[[]|e3] wb]
    eqn:Hloop; apply revertLoop_touches in Hloop.
  2:{ unfold throw. intros [= <- <-]. split.
      - etrans; [by eapply touches_rest|done].
      - eapply history_kept_trans; [exact Hk1|by eapply touches_history_kept]. }
  unfold bind at 1.
  destruct (Git.add appPath "." wb) as [[[]|e4] wc] eqn:Hadd.
  2:{ apply add_err_same in Hadd as ->. unfold throw. intros [= <- <-]. split.
      - etrans; [by eapply touches_rest|done].
      - eapply history_kept_trans; [exact Hk1|by eapply touches_history_kept]. }
  apply add_all_inv in Hadd as (r & Hr & ->).
  unfold bind at 1.
  match goal with
  | |- context [Git.commit_ ?d ?m ?a (set_repos (<[?g := ?staged]> ?rs) ?v)] =>
      destruct (commit_never_fails_after d m a
                  (set_repos (<[g := staged]> rs) v) staged)
        as (h & wd & Hcommit); [simpl; apply lookup_insert_eq|]
  end.
  rewrite Hcommit. unfold bind at 1.
  rewrite pruneMessages_spec. unfold bind, ret. intros [=].
Qed.

(** X26.  After a preview of a version, checking out
    "main" brings the list of versions back: when [HEAD] was on main
    before the preview, the list after the two checkouts is the list
    before them, and [HEAD] is on main again with main's tree as
    index. *)
Theorem preview_then_main (appId : Z) (versionId : string) (w w1 w2 : World)
    (res1 res2 : ServiceResult) (app : App) (r : Repo) :
  find (λ a, bool_decide (app_id a = appId)) (db_apps w) = Some app →
  git_repos w !! Git.gitdir (getDyadAppPath (app_path app)) = Some r →
  head r = Symbolic "main" →
  checkoutVersionService appId versionId w = (Ok res1, w1) →
  checkoutVersionService appId "main" w1 = (Ok res2, w2) →
  ∃ tip r2,
    branches r !! "main" = Some tip
    ∧ (listVersionsService appId w2).1 = (listVersionsService appId w).1
    ∧ (listVersionsService appId w).1
      = Ok (map toVersion (take 1000 (Git.history tip)))
    ∧ git_repos w2 !! Git.gitdir (getDyadAppPath (app_path app)) = Some r2
    ∧ head r2 = Symbolic "main"
    ∧ index r2 = c_tree tip
    ∧ objects r2 = objects r ∧ branches r2 = branches r.
Proof.
  intros Happ Hr Hhead Hco1 Hco2.
  assert (∀ v ref res v',
            checkoutVersionService appId ref v = (Ok res, v') →
            ∀ a, find (λ a, bool_decide (app_id a = appId)) (db_apps v) = Some a →
            Git.checkout (getDyadAppPath (app_path a)) ref v = (Ok tt, v'))
    as Hinv.
  { intros v ref res v'. unfold checkoutVersionService, bind at 1, Db.findApp, gets.
    intros Hx a Ha. rewrite Ha in Hx. revert Hx. cbv zeta.
    unfold try_catch, bind.
    destruct (Git.checkout _ ref v) as [[[]|e] v0]; unfold ret, throw;
      intros Hx; by simplify_eq. }
  pose proof (Hinv _ _ _ _ Hco1 app Happ) as H1.
  apply checkout_inv in H1 as (r' & c1 & Hr' & Hc1 & Hrest1 & Hrepos1).
  assert (r' = r) as -> by congruence.
  assert (db_apps w1 = db_apps w) as Hdb1 by (unfold rest_of in Hrest1; congruence).
  assert (find (λ a, bool_decide (app_id a = appId)) (db_apps w1) = Some app)
    as Happ1 by (by rewrite Hdb1).
  pose proof (Hinv _ _ _ _ Hco2 app Happ1) as H2.
  apply checkout_inv in H2 as (r1 & tip & Hr1 & Htip & Hrest2 & Hrepos2).
  rewrite Hrepos1, lookup_insert_eq in Hr1. injection Hr1 as <-.
  unfold Git.resolve in Htip. rewrite is_full_sha_main in Htip. simpl in Htip.
  rewrite is_full_sha_main in Hrepos2. simpl in Hrepos2.
  assert (db_apps w2 = db_apps w) as Hdb2 by (unfold rest_of in Hrest2; congruence).
  eexists tip, _. split; [done|].
  rewrite (listVersions_ok appId w app r tip Happ Hr)
    by (unfold Git.resolveHead; by rewrite Hhead).
  erewrite (listVersions_ok appId w2 app _ tip).
  - split; [done|]. split; [done|]. split.
    + rewrite Hrepos2. apply lookup_insert_eq.
    + done.
  - by rewrite Hdb2.
  - rewrite Hrepos2. apply lookup_insert_eq.
  - unfold Git.resolveHead. simpl. exact Htip.
Qed.

(** X27.  For an id the table does not know, listing,
    reverting, checking out, reading, editing, deleting and renaming fail
    with "App not found" and leave the world as it was, and so does
    running when the app has no entry; restarting fails in the same way,
    but only after it has freed port 32100, and it reports the failure
    to the renderer. *)
Theorem unknown_app (appId : Z) (versionId filePath content appName appPath : string)
    (removeNodeModules : bool) (w : World) :
  find (λ a, bool_decide (app_id a = appId)) (db_apps w) = None →
  listVersionsService appId w = (Err "App not found", w)
  ∧ revertVersionService appId versionId w = (Err "App not found", w)
  ∧ checkoutVersionService appId versionId w = (Err "App not found", w)
  ∧ readAppFileService appId filePath w = (Err "App not found", w)
  ∧ editAppFileService appId filePath content w = (Err "App not found", w)
  ∧ deleteAppService appId w = (Err "App not found", w)
  ∧ renameAppService appId appName appPath w = (Err "App not found", w)
  ∧ (runningApps w !! appId = None →
     runAppService appId w = (Err "App not found", w)
     ∧ restartAppService appId removeNodeModules w
       = (Err "App not found",
          set_outputs
            (outputs w
             ++ [mkOutput client_error "Failed to restart app: App not found"
                   appId (clock w)])
            (set_busy_ports (busy_ports w ∖ {[32100]}) w))).
Proof.
  intros Hnone.
  repeat (split;
    [unfold listVersionsService, revertVersionService,
       checkoutVersionService, readAppFileService, editAppFileService,
       deleteAppService, renameAppService, bind, Db.findApp, gets;
     by rewrite Hnone|]).
  intros Hidle. split.
  - unfold runAppService, withLock, bind at 1, gets.
    rewrite Hidle, bool_decide_eq_false_2 by (by intros [? ?]).
    unfold bind, Db.findApp, gets. by rewrite Hnone.
  - unfold restartAppService, withLock, try_catch.
    unfold bind at 1, gets. rewrite Hidle. unfold bind at 1, ret at 1.
    unfold bind at 1, killProcessOnPort, modify.
    unfold bind at 1, Db.findApp, gets. cbn [db_apps set_busy_ports].
    rewrite Hnone. unfold throw, bind, sendOutput, modify. reflexivity.
Qed.

End MoreVersionFacts.

(** ** Moving the directory of an app *)

Section MoveFacts.

Lemma app_not_self (p r : string) : p = p +:+ "/" +:+ r → False.
Proof.
  intros Heq. rewrite <- (app_nil_r_string p) in Heq at 1.
  apply app_cancel_l in Heq. done.
Qed.

Lemma under_spec (p q : string) :
  FsTree.under p q = true ↔ q = p ∨ ∃ rest, q = p +:+ "/" +:+ rest.
Proof.
  unfold FsTree.under. rewrite orb_true_iff, bool_decide_eq_true, prefix_strip.
  split; (intros [?|[rest Hrest]]; [by left|right; exists rest]).
  - by rewrite string_app_assoc.
  - by rewrite <- string_app_assoc.
Qed.

Lemma under_below (p rest : string) : FsTree.under p (p +:+ "/" +:+ rest) = true.
Proof. apply under_spec. right. by exists rest. Qed.

Lemma under_self (p : string) : FsTree.under p p = true.
Proof. apply under_spec. by left. Qed.

(** Where a path ends up, by cases. *)
Lemma moved_cases (old new k : string) :
  (k = old ∧ FsTree.moved old new k = new)
  ∨ (∃ rest, k = old +:+ "/" +:+ rest
             ∧ FsTree.moved old new k = new +:+ "/" +:+ rest)
  ∨ (FsTree.under old k = false ∧ FsTree.moved old new k = k).
Proof.
  unfold FsTree.moved. destruct (decide (k = old)) as [->|Hne]; [by left|].
  right. destruct (Git.strip_prefix (old +:+ "/") k) as [rest|] eqn:Hstrip.
  - left. exists rest. apply strip_prefix_Some in Hstrip.
    split; [by rewrite string_app_assoc|done].
  - right. split; [|done]. apply not_true_is_false. intros Hu.
    apply under_spec in Hu as [?|[rest Hrest]]; [done|].
    rewrite string_app_assoc in Hrest. apply strip_prefix_Some in Hrest.
    congruence.
Qed.

Lemma moved_under_new (old new k : string) :
  FsTree.under old k = true → FsTree.under new (FsTree.moved old new k) = true.
Proof.
  intros Hu.
  destruct (moved_cases old new k) as [[_ ->]|[(rest & _ & ->)|[Hno _]]].
  - apply under_self.
  - apply under_below.
  - congruence.
Qed.

(** Two paths, each below the source or away from the destination, do
    not end up at the same place. *)
Lemma moved_inj (old new k1 k2 : string) :
  FsTree.under old k1 = true ∨ FsTree.under new k1 = false →
  FsTree.under old k2 = true ∨ FsTree.under new k2 = false →
  FsTree.moved old new k1 = FsTree.moved old new k2 → k1 = k2.
Proof.
  intros H1 H2.
  destruct (moved_cases old new k1) as [[-> ->]|[(r1 & -> & ->)|[Hn1 ->]]];
    destruct (moved_cases old new k2) as [[-> ->]|[(r2 & -> & ->)|[Hn2 ->]]];
    intros Heq; try done.
  - by apply app_not_self in Heq.
  - subst k2. rewrite under_self in H2. destruct H2; congruence.
  - symmetry in Heq. by apply app_not_self in Heq.
  - apply app_cancel_l in Heq. by rewrite Heq.
  - subst k2. rewrite under_below in H2. destruct H2; congruence.
  - subst k1. rewrite under_self in H1. destruct H1; congruence.
  - subst k1. rewrite under_below in H1. destruct H1; congruence.
Qed.

Lemma rekey_lookup {A} (f : string → string) (m : gmap string A) (k : string) (x : A) :
  (∀ k1 k2, is_Some (m !! k1) → is_Some (m !! k2) → f k1 = f k2 → k1 = k2) →
  m !! k = Some x → FsTree.rekey f m !! f k = Some x.
Proof.
  intros Hinj Hk. unfold FsTree.rekey. apply elem_of_list_to_map_1.
  - rewrite <- list_fmap_compose. apply NoDup_fmap_2_strong.
    + intros [k1 x1] [k2 x2] H1 H2. simpl. intros Hf.
      apply elem_of_map_to_list in H1, H2.
      assert (k1 = k2) as -> by (apply Hinj; eauto).
      congruence.
    + apply NoDup_map_to_list.
  - apply list_elem_of_fmap. exists (k, x). split; [done|].
    by apply elem_of_map_to_list.
Qed.

Lemma rekey_lookup_None {A} (f : string → string) (m : gmap string A) (q : string) :
  (∀ k, is_Some (m !! k) → f k ≠ q) → FsTree.rekey f m !! q = None.
Proof.
  intros Hq. unfold FsTree.rekey. apply not_elem_of_list_to_map_1.
  rewrite <- list_fmap_compose. intros Hin.
  apply list_elem_of_fmap in Hin as ([k x] & Heq & Hin). simpl in Heq.
  apply elem_of_map_to_list in Hin. apply (Hq k); [eauto|done].
Qed.

(** A directory that has been renamed. *)
Lemma rename_dir_inv (old new : string) (w w' : World) :
  FsTree.rename old new w = (Ok tt, w') →
  Fs.is_file w old = false →
  FsTree.under old new && negb (bool_decide (new = old)) = false
  ∧ (∀ k, k ∈ FsTree.entries w → FsTree.under new k = true → k = new)
  ∧ w' = set_repos (FsTree.rekey (FsTree.moved old new) (git_repos w))
           (set_dirs (set_map (FsTree.moved old new) (fs_dirs w))
              (set_files (FsTree.rekey (FsTree.moved old new) (fs_files w)) w)).
Proof.
  unfold FsTree.rename. intros Hmv Hfile. rewrite Hfile in Hmv.
  destruct (bool_decide (old ∈ fs_dirs w)); [|done].
  destruct (Fs.is_file w new); [done|].
  destruct (FsTree.under old new && _) eqn:Hinside; [done|].
  destruct (existsb _ _) eqn:Hfull; [done|].
  destruct (negb (Fs.is_dir w (Path.dirname new))); [done|]. injection Hmv as <-.
  split; [done|]. split; [|done].
  intros k Hk Hu. destruct (decide (k = new)) as [|Hne]; [done|]. exfalso.
  assert (existsb (λ k, FsTree.under new k && negb (bool_decide (k = new)))
            (FsTree.entries w) = true) as Hx; [|congruence].
  apply existsb_exists. exists k. split; [by apply list_elem_of_In|].
  rewrite Hu. simpl. by rewrite bool_decide_eq_false_2.
Qed.

Lemma prefix_comparable (a b x y : string) :
  a +:+ x = b +:+ y → (∃ t, a = b +:+ t) ∨ (∃ t, b = a +:+ t).
Proof.
  revert b. induction a as [|c a IH]; intros b Heq.
  - right. by exists b.
  - destruct b as [|d b]; [left; by eexists|].
    change (String c (a +:+ x) = String d (b +:+ y)) in Heq.
    injection Heq as -> Heq. destruct (IH b Heq) as [[t ->]|[t ->]].
    + left. by exists t.
    + right. by exists t.
Qed.

(** Two directories neither of which is above the other have no path
    in common below them. *)
Lemma below_disjoint (p q r1 r2 : string) :
  p +:+ "/" +:+ r1 = q +:+ "/" +:+ r2 →
  p = q ∨ FsTree.under p q = true ∨ FsTree.under q p = true.
Proof.
  intros Heq. destruct (prefix_comparable _ _ _ _ Heq) as [[t ->]|[t ->]].
  - destruct t as [|c t]; [left; apply app_nil_r_string|].
    right. right. rewrite <- string_app_assoc in Heq.
    apply app_cancel_l in Heq.
    change (String c (t +:+ "/" +:+ r1) = String "/" r2) in Heq.
    injection Heq as -> _. apply (under_below q t).
  - destruct t as [|c t]; [left; symmetry; apply app_nil_r_string|].
    right. left. rewrite <- (string_app_assoc p) in Heq.
    apply app_cancel_l in Heq.
    change (String "/" r1 = String c (t +:+ "/" +:+ r2)) in Heq.
    injection Heq as <- _. apply (under_below p t).
Qed.

(** Nothing ends up at or below the source, when the destination is not
    above it. *)
Lemma moved_leaves (old new k : string) :
  FsTree.under old new = false → FsTree.under new old = false →
  FsTree.under old (FsTree.moved old new k) = false.
Proof.
  intros Hon Hno. apply not_true_is_false. intros Hu.
  destruct (moved_cases old new k) as [[_ Hm]|[(rest & _ & Hm)|[Hk Hm]]];
    rewrite Hm in Hu.
  - congruence.
  - apply under_spec in Hu as [Hu|[r' Hu]].
    + rewrite <- Hu, under_below in Hno. done.
    + apply below_disjoint in Hu as [->|[Hu|Hu]]; [|congruence..].
      by rewrite under_self in Hno.
  - congruence.
Qed.

End MoveFacts.

Section RenameTree.
Context {env : Env}.

(** What a rename that moves the directory knows about the two places. *)
Lemma rename_move_inv appId appName appPath w w' r app :
  renameAppService appId appName appPath w = (Ok r, w') →
  find (λ a, bool_decide (app_id a = appId)) (db_apps w) = Some app →
  getDyadAppPath appPath ≠ getDyadAppPath (app_path app) →
  Fs.is_file w (getDyadAppPath (app_path app)) = false →
  let old := getDyadAppPath (app_path app) in
  let new := getDyadAppPath appPath in
  FsTree.under old new = false
  ∧ (∀ k, is_Some (fs_files w !! k) → FsTree.under new k = false)
  ∧ (∀ k, is_Some (git_repos w !! k) → FsTree.under new k = false)
  ∧ ∃ dirs,
      fs_dirs w ⊆ dirs
      ∧ fs_files w' = FsTree.rekey (FsTree.moved old new) (fs_files w)
      ∧ git_repos w' = FsTree.rekey (FsTree.moved old new) (git_repos w)
      ∧ fs_dirs w' = set_map (FsTree.moved old new) dirs.
Proof.
  intros Hcall Happ Hne Hfile old new.
  apply renameAppService_ok in Hcall
    as (app' & w2 & Happ' & _ & _ & Hmove & -> & _).
  assert (app' = app) as -> by congruence.
  destruct Hmove as [[Heq _]|(_ & Hex & w1 & Hmk & Hmv)]; [done|].
  fold old new in Hex, Hmk, Hmv.
  apply mkdir_rest_of in Hmk as (_ & Hf1 & Hg1 & Hd1).
  apply rename_dir_inv in Hmv as (Hinside & Hclear & ->);
    [|unfold Fs.is_file; by rewrite Hf1].
  unfold Fs.existsSync, gets in Hex. injection Hex as Hex.
  apply orb_false_iff in Hex as [Hex Hrepo].
  apply orb_false_iff in Hex as [Hnofile _].
  apply bool_decide_eq_false in Hnofile, Hrepo.
  split.
  { apply andb_false_iff in Hinside as [?|Hx]; [done|].
    apply negb_false_iff, bool_decide_eq_true in Hx. done. }
  split; [|split].
  - intros k [x Hk]. apply not_true_is_false. intros Hu.
    assert (k = new) as ->; [|by apply Hnofile; eauto].
    apply Hclear; [|done]. unfold FsTree.entries. rewrite Hf1.
    apply elem_of_app. left. apply list_elem_of_fmap. exists (k, x).
    split; [done|]. by apply elem_of_map_to_list.
  - intros k [x Hk]. apply not_true_is_false. intros Hu.
    assert (k = new) as ->; [|by apply Hrepo; eauto].
    apply Hclear; [|done]. unfold FsTree.entries. rewrite Hg1.
    apply elem_of_app. right. apply elem_of_app. right.
    apply list_elem_of_fmap. exists (k, x).
    split; [done|]. by apply elem_of_map_to_list.
  - exists (fs_dirs w1). split; [done|]. simpl. by rewrite Hf1, Hg1.
Qed.

Lemma rekey_moved_lookup {A} (old new : string) (m : gmap string A) (k : string) :
  (∀ k, is_Some (m !! k) → FsTree.under new k = false) →
  FsTree.under old k = true ∨ FsTree.under new k = false →
  FsTree.rekey (FsTree.moved old new) m !! FsTree.moved old new k = m !! k.
Proof.
  intros Hclear Hk. destruct (m !! k) as [x|] eqn:Hx.
  - apply rekey_lookup; [|done]. intros k1 k2 H1 H2.
    apply moved_inj; right; by apply Hclear.
  - apply rekey_lookup_None. intros k' Hk' Heq.
    apply moved_inj in Heq; [|right; by apply Hclear|done].
    subst k'. rewrite Hx in Hk'. by destruct Hk'.
Qed.

(** X16.  A rename that changes the directory of an app, the old and
    the new directory both named without a separator at their end,
    moves everything with it: what was at a path at or below the old
    directory is at the corresponding path of the new one, file,
    directory or repository; what is elsewhere stays; and nothing is
    left at or below the old directory when the new one is not above
    it. *)
Theorem rename_moves_tree (appId : Z) (appName appPath : string) (w w' : World)
    (r : RenameResult) (app : App) :
  renameAppService appId appName appPath w = (Ok r, w') →
  find (λ a, bool_decide (app_id a = appId)) (db_apps w) = Some app →
  getDyadAppPath appPath ≠ getDyadAppPath (app_path app) →
  Fs.is_file w (getDyadAppPath (app_path app)) = false →
  Path.last_is_slash (getDyadAppPath (app_path app)) = false →
  Path.last_is_slash (getDyadAppPath appPath) = false →
  let old := getDyadAppPath (app_path app) in
  let new := getDyadAppPath appPath in
  (∀ k, FsTree.under old k = true →
        fs_files w' !! FsTree.moved old new k = fs_files w !! k
        ∧ git_repos w' !! FsTree.moved old new k = git_repos w !! k
        ∧ (k ∈ fs_dirs w → FsTree.moved old new k ∈ fs_dirs w'))
  ∧ (∀ q, FsTree.under old q = false → FsTree.under new q = false →
          fs_files w' !! q = fs_files w !! q
          ∧ git_repos w' !! q = git_repos w !! q
          ∧ (q ∈ fs_dirs w → q ∈ fs_dirs w'))
  ∧ (FsTree.under new old = false →
     ∀ q, FsTree.under old q = true → nothing_at w' q).
Proof.
  intros Hcall Happ Hne Hfile _ _ old new.
  destruct (rename_move_inv _ _ _ _ _ _ _ Hcall Happ Hne Hfile)
    as (Hon & Hfiles & Hrepos & dirs & Hdirs & Hf & Hg & Hd).
  fold old new in Hon, Hfiles, Hrepos, Hf, Hg, Hd.
  split; [|split].
  - intros k Hk. rewrite Hf, Hg, Hd. split; [|split].
    + apply rekey_moved_lookup; [done|by left].
    + apply rekey_moved_lookup; [done|by left].
    + intros Hin. apply elem_of_map. exists k. split; [done|by apply Hdirs].
  - intros q Hqo Hqn.
    assert (FsTree.moved old new q = q) as Hq.
    { destruct (moved_cases old new q) as [[-> _]|[(rest & -> & _)|[_ Hm]]];
        [by rewrite under_self in Hqo|by rewrite under_below in Hqo|done]. }
    rewrite Hf, Hg, Hd. split; [|split].
    + rewrite <- Hq at 1. apply rekey_moved_lookup; [done|by right].
    + rewrite <- Hq at 1. apply rekey_moved_lookup; [done|by right].
    + intros Hin. apply elem_of_map. exists q. split; [done|by apply Hdirs].
  - intros Hno q Hq. unfold nothing_at. rewrite Hf, Hg, Hd.
    assert (∀ k, FsTree.moved old new k ≠ q) as Hleft.
    { intros k Heq. pose proof (moved_leaves old new k Hon Hno) as Hx.
      congruence. }
    split; [|split].
    + apply rekey_lookup_None. intros k _. apply Hleft.
    + intros Hin. apply elem_of_map in Hin as (k & Heq & _). by apply (Hleft k).
    + apply rekey_lookup_None. intros k _. apply Hleft.
Qed.

(** What the list of versions is when the repository is there. *)
Lemma listVersions_repo appId w app r :
  find (λ a, bool_decide (app_id a = appId)) (db_apps w) = Some app →
  git_repos w !! Git.gitdir (getDyadAppPath (app_path app)) = Some r →
  (listVersionsService appId w).1
  = match Git.resolveHead r with
    | Some c => Ok (map toVersion (take 1000 (Git.history c)))
    | None => Err "Failed to list versions: NotFoundError: Could not find HEAD"
    end.
Proof.
  intros Happ Hr.
  destruct (Git.resolveHead r) as [c|] eqn:Hc.
  - by rewrite (listVersions_ok _ _ _ _ _ Happ Hr Hc).
  - unfold listVersionsService, bind at 1, Db.findApp, gets. rewrite Happ.
    unfold bind at 1, Fs.existsSync, gets. unfold Git.gitdir in Hr.
    rewrite (bool_decide_eq_true_2 (is_Some (git_repos w !! _)))
      by (rewrite Hr; eauto).
    rewrite orb_true_r. simpl.
    unfold try_catch, bind at 1, Git.log, bind at 1, Git.getRepo.
    unfold Git.gitdir. rewrite Hr, Hc. reflexivity.
Qed.

(** X17.  An app under version control keeps its
    repository and its list of versions through a rename, whether or
    not its directory moves, when the old and the new directory are
    named so that [path.join] puts [.git] right behind them: the
    directory, a separator, [.git]. *)
Theorem rename_keeps_history (appId : Z) (appName appPath : string) (w w' : World)
    (r : RenameResult) (app : App) (repo : Repo) :
  renameAppService appId appName appPath w = (Ok r, w') →
  find (λ a, bool_decide (app_id a = appId)) (db_apps w) = Some app →
  let old := getDyadAppPath (app_path app) in
  let new := getDyadAppPath appPath in
  git_repos w !! Git.gitdir old = Some repo →
  Fs.is_file w old = false →
  Git.gitdir old = old +:+ "/.git" →
  Git.gitdir new = new +:+ "/.git" →
  git_repos w' !! Git.gitdir new = Some repo
  ∧ (listVersionsService appId w').1 = (listVersionsService appId w).1.
Proof.
  intros Hcall Happ old new Hrepo Hfile Hold Hnew.
  assert (git_repos w' !! Git.gitdir new = Some repo) as Hrepo'.
  { destruct (decide (new = old)) as [Heq|Hne].
    - apply renameAppService_ok in Hcall
        as (app' & w2 & Happ' & _ & _ & Hmove & -> & _).
      assert (app' = app) as -> by congruence.
      destruct Hmove as [[_ ->]|[Hne _]]; [|done].
      simpl. by rewrite Heq.
    - destruct (rename_move_inv _ _ _ _ _ _ _ Hcall Happ Hne Hfile)
        as (_ & _ & Hrepos & _ & _ & _ & Hg & _).
      fold old new in Hrepos, Hg. rewrite Hg, Hnew.
      assert (FsTree.moved old new (Git.gitdir old) = new +:+ "/.git") as <-.
      { rewrite Hold. change "/.git" with ("/" +:+ ".git").
        destruct (moved_cases old new (old +:+ "/" +:+ ".git"))
          as [[Hx _]|[(rest & Hx & ->)|[Hx _]]].
        - symmetry in Hx. by apply app_not_self in Hx.
        - apply app_cancel_l, app_cancel_l in Hx. by rewrite <- Hx.
        - by rewrite under_below in Hx. }
      rewrite rekey_moved_lookup; [done|done|].
      left. rewrite Hold. change "/.git" with ("/" +:+ ".git").
      apply under_below. }
  split; [done|].
  rewrite (listVersions_repo appId w app repo Happ Hrepo).
  apply renameAppService_ok in Hcall
    as (app' & w2 & Happ' & _ & _ & _ & Hw' & _).
  apply (listVersions_repo appId w' (mkApp appId appName appPath) repo);
    [|exact Hrepo'].
  rewrite Hw'. cbn [db_apps AppsTable.set_apps].
  rewrite find_renamed, Happ. simpl. unfold AppsTable.renamed.
  apply find_head_filter in Happ as [_ Hid].
  rewrite decide_True by done. by rewrite Hid.
Qed.

End RenameTree.

(** ** What a revert restores *)

Section RevertTree.
Context {env : Env}.

Lemma writeEntry_keeps dir e w r v q :
  Git.writeEntry dir e w = (r, v) →
  is_Some (fs_files w !! q) → is_Some (fs_files v !! q).
Proof.
  unfold Git.writeEntry, bind.
  destruct (Fs.mkdir _ w) as [[[]|err] v1] eqn:Hmk;
    apply mkdir_rest_of in Hmk as (_ & Hf1 & _).
  - unfold Fs.writeFile. intros Hwr Hq. rewrite <- Hf1 in Hq.
    destruct (Fs.is_dir v1 _); [by simplify_eq|].
    destruct (Fs.is_dir v1 _); simplify_eq; [|done].
    simpl. destruct (decide (Path.join dir e.1 = q)) as [->|Hne].
    + rewrite lookup_insert_eq. eauto.
    + by rewrite lookup_insert_ne.
  - intros [= <- <-] Hq. by rewrite Hf1.
Qed.

Lemma writeEntries_written dir (l : list (string * string)) w w' :
  forM_ (Git.writeEntry dir) l w = (Ok tt, w') →
  (∀ q, is_Some (fs_files w !! q) → is_Some (fs_files w' !! q))
  ∧ ∀ e, e ∈ l → is_Some (fs_files w' !! Path.join dir e.1).
Proof.
  revert w. induction l as [|e l IH]; intros w; simpl.
  - unfold ret. intros [= <-]. split; [done|]. by intros e ?%elem_of_nil.
  - unfold bind.
    destruct (Git.writeEntry dir e w) as [[[]|err] v] eqn:He; [|done].
    intros Hrest. destruct (IH _ Hrest) as [Hkeep Hall].
    split.
    + intros q Hq. apply Hkeep. by eapply writeEntry_keeps.
    + intros e' [->|Hin]%elem_of_cons; [|by apply Hall].
      apply Hkeep. revert He. unfold Git.writeEntry, bind.
      destruct (Fs.mkdir _ w) as [[[]|err] v1]; [|done].
      intros Hwr. apply writeFile_ok in Hwr as [Hwr _]. eauto.
Qed.

(** A checkout leaves every file of the commit in the working
    directory. *)
Lemma checkout_writes dir ref w w' r c :
  Git.checkout dir ref w = (Ok tt, w') →
  git_repos w !! Git.gitdir dir = Some r →
  Git.resolve r ref = Some c →
  ∀ p, is_Some (c_tree c !! p) → is_Some (fs_files w' !! Path.join dir p).
Proof.
  unfold Git.checkout, bind at 1, Git.getRepo. intros Hco Hr Hc.
  rewrite Hr, Hc in Hco. unfold bind at 1 in Hco.
  destruct (forM_ (Git.dropEntry _ _) _ w) as [[[]|e] v1]; [|done].
  unfold bind at 1 in Hco.
  destruct (forM_ (Git.writeEntry _) _ v1) as [[[]|e] v2] eqn:Hwrite; [|done].
  unfold Git.putRepo, modify in Hco. injection Hco as <-.
  apply writeEntries_written in Hwrite as [_ Hall].
  intros p [blob Hp]. simpl.
  apply (Hall (p, blob)). by apply elem_of_map_to_list.
Qed.

(** The loop leaves alone every file that no row with something to do
    addresses. *)
Lemma revertLoop_frame appPath oid matrix w res w' q :
  revertLoop appPath oid matrix w = (res, w') →
  (∀ row, row ∈ matrix → fullPath_of appPath row = q →
          revertBranch row.1.1.2 row.1.2 = NoAction) →
  fs_files w' !! q = fs_files w !! q.
Proof.
  unfold revertLoop. revert w.
  induction matrix as [|row rest IH]; intros w; simpl.
  - unfold ret. by intros [= <- <-].
  - intros Hloop Hq. unfold bind in Hloop.
    assert (∀ r v, revertPath appPath oid row w = (r, v) →
                   fs_files v !! q = fs_files w !! q) as Hrow.
    { intros r v Hrow.
      destruct (decide (fullPath_of appPath row = q)) as [Heq|Hne].
      - specialize (Hq row (list_elem_of_here _ _) Heq).
        destruct row as [[[filepath h] wd] st]. simpl in Hq.
        unfold revertPath in Hrow. rewrite Hq in Hrow.
        unfold ret in Hrow. by simplify_eq.
      - apply revertPath_touches in Hrow as (_ & _ & _ & Hfiles & _).
        apply Hfiles. by intros ->%list_elem_of_singleton. }
    destruct (revertPath _ _ row w) as [[[]|e] v] eqn:Hpath.
    + rewrite (IH _ Hloop); [by eapply Hrow|].
      intros row' Hin. apply Hq. by right.
    + simplify_eq. by eapply Hrow.
Qed.

(** X23.  A revert to a version named by its object id
    leaves, at every path that the status matrix takes in, exactly what
    the version has there (nothing, when the version lacks it), and
    leaves what the matrix passes over as ignored as the checkout of
    main left it.  The commit it makes, on top of main, has the staged
    index as tree; that tree is the version's tree when the ignore rules
    in force after the revert leave out no path of the version and still
    leave out what the matrix passed over.  This for trees whose paths
    [path.join] leaves as they are. *)
Theorem revert_restores_tree (appId : Z) (previousVersionId : string)
    (w w' : World) (res : ServiceResult) (app : App) (repo : Repo)
    (tip target : commit) :
  revertVersionService appId previousVersionId w = (Ok res, w') →
  find (λ a, bool_decide (app_id a = appId)) (db_apps w) = Some app →
  let appPath := getDyadAppPath (app_path app) in
  git_repos w !! Git.gitdir appPath = Some repo →
  branches repo !! "main" = Some tip →
  Git.is_full_sha previousVersionId = true →
  objects repo !! previousVersionId = Some target →
  plain appPath (c_tree tip) →
  plain appPath (c_tree target) →
  let wa := (Git.checkout appPath "main" w).2 in
  let passed_over p :=
    Git.skipped wa appPath (c_tree target) (c_tree tip) p in
  (∀ p, passed_over p = false →
        Git.worktree appPath w' !! p = c_tree target !! p)
  ∧ (∀ p, passed_over p = true →
          Git.worktree appPath w' !! p = Git.worktree appPath wa !! p)
  ∧ ∃ r' c,
      git_repos w' !! Git.gitdir appPath = Some r'
      ∧ Git.resolveHead r' = Some c
      ∧ c_parent c = Some tip
      ∧ c_tree c = index r'
      ∧ ((∀ p, is_Some (c_tree target !! p) →
               Git.excluded w' appPath p = false) →
         (∀ p, is_Some (Git.worktree appPath wa !! p) →
               passed_over p = true → Git.excluded w' appPath p = true) →
         c_tree c = c_tree target).
Proof.
  intros Hcall Happ appPath Hrepo Htip Hsha Htarget Hplain_tip Hplain_target
    wa0 passed_over.
  set (g := Git.gitdir appPath) in *.
  apply revert_steps in Hcall
    as (app' & wa & matrix & wb & wc & commitHash & wd & Happ' & Hco & Hsm
        & Hloop & Hadd & Hcommit & Hprune & ->).
  assert (app' = app) as -> by congruence.
  fold appPath in Hco, Hsm, Hloop, Hadd, Hcommit.
  assert (wa0 = wa) as Hwa0 by (unfold wa0; by rewrite Hco).
  unfold passed_over. rewrite Hwa0. clear passed_over wa0 Hwa0.
  (* the checkout of main *)
  pose proof (checkout_inv _ _ _ _ Hco) as (r0 & c0 & Hr0 & Hc0 & _ & Hrepos_a).
  fold g in Hr0, Hrepos_a. rewrite Hrepo in Hr0. injection Hr0 as <-.
  unfold Git.resolve in Hc0. rewrite is_full_sha_main, Htip in Hc0.
  injection Hc0 as <-. rewrite is_full_sha_main in Hrepos_a.
  assert (Git.resolve repo "main" = Some tip) as Hres_main.
  { unfold Git.resolve. by rewrite is_full_sha_main. }
  pose proof (checkout_writes _ _ _ _ _ _ Hco Hrepo Hres_main) as Hwritten.
  set (ra := mkRepo (objects repo) (branches repo) (Symbolic "main") (c_tree tip))
    in *.
  assert (git_repos wa !! g = Some ra) as Hra
    by (rewrite Hrepos_a; apply lookup_insert_eq).
  (* the matrix *)
  pose proof (statusMatrix_inv _ _ _ _ _ Hsm) as (_ & r1 & c1 & Hr1 & Hc1 & Hmatrix).
  fold g in Hr1. rewrite Hra in Hr1. injection Hr1 as <-.
  unfold Git.resolve in Hc1. rewrite Hsha in Hc1. simpl in Hc1.
  rewrite Htarget in Hc1. injection Hc1 as <-. simpl in Hmatrix.
  set (T := c_tree target) in *. set (I := c_tree tip) in *.
  set (Wa := Git.worktree appPath wa) in *.
  set (paths := filter _ _) in Hmatrix.
  assert (∀ p, p ∈ paths ↔
               Git.skipped wa appPath T I p = false
               ∧ (is_Some (T !! p) ∨ is_Some (Wa !! p) ∨ is_Some (I !! p)))
    as Hpaths.
  { intros p. unfold paths.
    rewrite list_elem_of_filter, elem_of_elements, !elem_of_union, !elem_of_dom.
    tauto. }
  assert (∀ p, is_Some (T !! p) ∨ is_Some (I !! p) → p ∈ paths) as Htracked.
  { intros p Hp. apply Hpaths. split; [by apply tracked_not_skipped|tauto]. }
  assert (∀ p, p ∈ paths → Path.join appPath p = Fs.as_dir appPath +:+ p)
    as Hplain.
  { intros p Hp. apply Hpaths in Hp as [_ [[x Hp]|[[x Hp]|[x Hp]]]].
    - by apply (Hplain_target p x).
    - by eapply worktree_plain.
    - by apply (Hplain_tip p x). }
  assert (∀ p, is_Some (I !! p) → is_Some (Wa !! p)) as Hchecked.
  { intros p Hp. destruct (Hwritten p Hp) as [x Hx]. exists x.
    apply worktree_complete; [|done]. apply Hplain. apply Htracked. auto. }
  assert (∀ p1 p2, p1 ∈ paths →
                   Path.join appPath p1 = Fs.as_dir appPath +:+ p2 → p1 = p2)
    as Hinj.
  { intros p1 p2 H1 Heq. rewrite (Hplain p1 H1) in Heq.
    by apply app_cancel_l in Heq. }
  assert (NoDup (map (λ row : string * Z * Z * Z, Path.join appPath row.1.1.1)
                   matrix)) as Hnd.
  { rewrite Hmatrix. apply rows_NoDup; [|done].
    apply NoDup_filter, NoDup_elements. }
  (* the loop and the staging *)
  destruct (revertLoop_effect _ _ _ _ _ _ Hsm Hnd Hloop Hadd)
    as (rb & rc & Hrb & Hrc & Hfiles_c & _ & Hindex & Hrows).
  fold g in Hrb, Hrc.
  pose proof (revertLoop_touches _ _ _ _ _ _ Hloop) as (_ & _ & Htouch & _).
  fold g in Htouch. rewrite Hra in Htouch.
  destruct Htouch as (rb' & Hrb' & (_ & Hbr_b & Hhead_b) & Hidx_b).
  rewrite Hrb in Hrb'. injection Hrb' as <-.
  pose proof (add_all_inv _ _ _ Hadd) as (rb' & Hrb' & Hwc).
  fold g in Hrb'. rewrite Hrb in Hrb'. injection Hrb' as <-.
  assert (head rc = head rb ∧ branches rc = branches rb) as [Hhead_c0 Hbr_c].
  { rewrite Hwc in Hrc. simpl in Hrc. rewrite lookup_insert_eq in Hrc.
    by injection Hrc as <-. }
  set (Wb := Git.worktree appPath wb) in *.
  (* the rows *)
  assert (∀ p, p ∈ paths →
            (p, match T !! p with Some _ => 1 | None => 0 end,
             match Wa !! p with
             | None => 0
             | Some _ => if decide (Wa !! p = T !! p) then 1 else 2
             end,
             match I !! p with
             | None => 0
             | Some _ => if decide (I !! p = T !! p) then 1
                         else if decide (I !! p = Wa !! p) then 2 else 3
             end) ∈ matrix) as Hrow.
  { intros p Hp. rewrite Hmatrix. apply list_elem_of_fmap. exists p.
    split; [|done]. unfold Git.statusRow. simpl.
    by destruct (T !! p), (Wa !! p), (I !! p). }
  (* a file that no row addresses is left alone *)
  assert (∀ p, p ∉ paths → Path.join appPath p = Fs.as_dir appPath +:+ p →
               fs_files wb !! Path.join appPath p
               = fs_files wa !! Path.join appPath p) as Hleft.
  { intros p Hp Hpl. apply (revertLoop_frame _ _ _ _ _ _ _ Hloop).
    intros [[[p' h] wd'] st] Hin Hfull. exfalso. apply Hp.
    rewrite Hmatrix in Hin. apply statusRow_in in Hin as (Hp' & _).
    unfold fullPath_of in Hfull. simpl in Hfull.
    assert (p' = p) as <-; [|done].
    apply Hinj; [done|]. by rewrite Hfull. }
  (* the working tree after the loop, where the matrix looked *)
  assert (∀ p, Git.skipped wa appPath T I p = false → Wb !! p = T !! p) as Hwt.
  { intros p Hseen. destruct (T !! p) as [blob|] eqn:HT.
    - assert (p ∈ paths) as Hp by (apply Htracked; rewrite HT; eauto).
      specialize (Hrow p Hp). rewrite HT in Hrow.
      assert (∀ blob',
                (Git.readBlob appPath previousVersionId p wa).1 = Ok blob' →
                blob' = blob) as Hread.
      { intros blob' Hx.
        destruct (Git.readBlob appPath previousVersionId p wa)
          as [rr ww] eqn:Hrb0. simpl in Hx. subst rr.
        apply readBlob_inv in Hrb0 as (_ & Hx).
        destruct (Hx blob' eq_refl) as (r2 & c2 & Hr2 & Hc2 & Hb2).
        fold g in Hr2. rewrite Hra in Hr2. injection Hr2 as <-.
        simpl in Hc2. rewrite Htarget in Hc2. injection Hc2 as <-.
        fold T in Hb2. congruence. }
      destruct (Wa !! p) as [y|] eqn:HWa.
      + destruct (decide (Some y = Some blob)) as [[= ->]|Hdiff].
        * (* identical: the loop leaves it *)
          apply worktree_complete; [by apply Hplain|].
          rewrite (revertLoop_frame _ _ _ _ _ _ _ Hloop).
          { apply worktree_sound. exact HWa. }
          intros [[[p' h] wd'] st] Hin Hfull. simpl.
          rewrite Hmatrix in Hin. apply statusRow_in in Hin
            as (Hp' & Hh & _ & _ & Hwd).
          unfold fullPath_of in Hfull. simpl in Hfull.
          assert (p' = p) as ->.
          { apply Hinj; [done|]. rewrite Hfull. by apply Hplain. }
          assert (h = 1) as -> by (apply Hh; rewrite HT; eauto).
          assert (wd' = 1) as ->
            by (apply Hwd; rewrite HWa, HT; eauto).
          reflexivity.
        * destruct (Hrows _ _ _ _ Hrow) as [Hrestore _].
          destruct (Hrestore eq_refl ltac:(done)) as (blob' & Hb & Hfile & _).
          apply Hread in Hb as ->.
          apply worktree_complete; [by apply Hplain|done].
      + destruct (Hrows _ _ _ _ Hrow) as [Hrestore _].
        destruct (Hrestore eq_refl ltac:(done)) as (blob' & Hb & Hfile & _).
        apply Hread in Hb as ->.
        apply worktree_complete; [by apply Hplain|done].
    - destruct (Wb !! p) as [y|] eqn:HWb; [|done]. exfalso.
      pose proof (worktree_sound _ _ _ _ HWb) as Hfile.
      pose proof (worktree_plain _ _ _ _ HWb) as Hpl.
      destruct (Wa !! p) as [z|] eqn:HWa.
      + assert (p ∈ paths) as Hp
          by (apply Hpaths; split; [done|]; rewrite HWa; eauto).
        specialize (Hrow p Hp). rewrite HT, HWa in Hrow.
        rewrite decide_False in Hrow by done.
        destruct (Hrows _ _ _ _ Hrow) as [_ Hdelete].
        destruct (Hdelete eq_refl ltac:(done)) as (Hgone & _). congruence.
      + assert (fs_files wb !! Path.join appPath p = fs_files wa !! Path.join appPath p)
          as Hsame.
        { apply (revertLoop_frame _ _ _ _ _ _ _ Hloop).
          intros [[[p' h] wd'] st] Hin Hfull. simpl.
          rewrite Hmatrix in Hin. apply statusRow_in in Hin
            as (Hp' & Hh & Hh0 & Hwd0 & Hwd).
          unfold fullPath_of in Hfull. simpl in Hfull.
          assert (p' = p) as -> by (apply Hinj; [done|by rewrite Hfull]).
          assert (h = 0) as -> by (by apply Hh0).
          assert (wd' = 0) as -> by (by apply Hwd0).
          reflexivity. }
        rewrite Hsame in Hfile.
        apply (worktree_complete _ _ _ _ Hpl) in Hfile. fold Wa in Hfile.
        congruence. }
  (* the working tree after the loop, where the matrix did not look *)
  assert (∀ p, Git.skipped wa appPath T I p = true → Wb !! p = Wa !! p) as Hover.
  { intros p Hskip.
    assert (p ∉ paths) as Hp by (intros [? _]%Hpaths; congruence).
    destruct (Wb !! p) as [y|] eqn:HWb.
    - pose proof (worktree_plain _ _ _ _ HWb) as Hpl.
      apply worktree_sound in HWb. rewrite (Hleft p Hp Hpl) in HWb.
      symmetry. by apply worktree_complete.
    - destruct (Wa !! p) as [z|] eqn:HWa; [|done].
      pose proof (worktree_plain _ _ _ _ HWa) as Hpl.
      apply worktree_sound in HWa. rewrite <- (Hleft p Hp Hpl) in HWa.
      apply (worktree_complete _ _ _ _ Hpl) in HWa. fold Wb in HWa.
      congruence. }
  (* the commit and the pruning *)
  pose proof (commit_inv _ _ _ _ _ _ Hcommit) as (rc' & Hrc' & _ & Hwd).
  fold g in Hrc', Hwd. rewrite Hrc in Hrc'. injection Hrc' as <-.
  rewrite pruneMessages_spec in Hprune. injection Hprune as <-. subst wd.
  assert (head rc = Symbolic "main") as Hhead_c
    by (by rewrite Hhead_c0, Hhead_b).
  assert (Git.resolveHead rc = Some tip) as Hres_c.
  { unfold Git.resolveHead. rewrite Hhead_c, Hbr_c. simpl. by rewrite Hbr_b. }
  rewrite (worktree_ext appPath wb) by (simpl; exact Hfiles_c). fold Wb.
  split; [exact Hwt|]. split; [exact Hover|].
  simpl. rewrite lookup_insert_eq.
  eexists _, _. split; [reflexivity|]. rewrite Hhead_c.
  unfold Git.resolveHead. simpl. rewrite lookup_insert_eq.
  split; [reflexivity|]. simpl. split; [exact Hres_c|]. split; [done|].
  intros Hkept Hstill. rewrite Hindex. apply map_eq. intros p.
  destruct (T !! p) as [blob|] eqn:HT.
  - apply staged_lookup.
    + rewrite Hwt; [done|]. apply tracked_not_skipped. rewrite HT. eauto.
    + pose proof (Hkept p ltac:(rewrite HT; eauto)) as Hk.
      rewrite (excluded_ext appPath wb) in Hk by (simpl; exact Hfiles_c).
      exact Hk.
  - apply lookup_union_None. split.
    + apply map_lookup_filter_None.
      destruct (Wb !! p) as [y|] eqn:HWb; [|by left]. right.
      intros y' [= <-]. simpl.
      destruct (Git.skipped wa appPath T I p) eqn:Hskip.
      * pose proof (Hstill p) as Hs.
        rewrite (excluded_ext appPath wb) in Hs by (simpl; exact Hfiles_c).
        rewrite Hs; [done| |done].
        rewrite <- (Hover p Hskip). rewrite HWb. eauto.
      * rewrite (Hwt p Hskip) in HWb. congruence.
    + destruct (I !! p) as [x|] eqn:HI.
      * assert (p ∈ paths) as Hp by (apply Htracked; rewrite HI; eauto).
        destruct (Hchecked p ltac:(rewrite HI; eauto)) as [z HWa].
        specialize (Hrow p Hp). rewrite HT, HWa in Hrow.
        rewrite decide_False in Hrow by done.
        destruct (Hrows _ _ _ _ Hrow) as [_ Hdelete].
        destruct (Hdelete eq_refl ltac:(done)) as (_ & Hidx & _). exact Hidx.
      * eapply lookup_weaken_None; [|exact Hidx_b]. exact HI.
Qed.

End RevertTree.

(** ** What a preview shows *)

Section CheckoutFiles.
Context {env : Env}.

Lemma dropEntries_effect dir (tree : gmap string string)
    (l : list (string * string)) w w' :
  forM_ (Git.dropEntry dir tree) l w = (Ok tt, w') →
  (∀ q, fs_files w !! q = None → fs_files w' !! q = None)
  ∧ (∀ e, e ∈ l → tree !! e.1 = None → fs_files w' !! Path.join dir e.1 = None)
  ∧ (∀ q, (∀ e, e ∈ l → tree !! e.1 = None → Path.join dir e.1 ≠ q) →
          fs_files w' !! q = fs_files w !! q).
Proof.
  revert w. induction l as [|e l IH]; intros w; simpl.
  - unfold ret. intros [= <-]. split; [done|]. split; [|done].
    by intros e ?%elem_of_nil.
  - unfold bind.
    destruct (Git.dropEntry dir tree e w) as [[[]|err] v] eqn:He; [|done].
    intros Hrest. destruct (IH _ Hrest) as (Hnone & Hdropped & Hframe).
    assert ((∀ q, fs_files w !! q = None → fs_files v !! q = None)
            ∧ (tree !! e.1 = None → fs_files v !! Path.join dir e.1 = None)
            ∧ (∀ q, (tree !! e.1 = None → Path.join dir e.1 ≠ q) →
                    fs_files v !! q = fs_files w !! q)) as (Hn1 & Hd1 & Hf1).
    { revert He. unfold Git.dropEntry.
      destruct (tree !! e.1) as [x|] eqn:Ht.
      - unfold ret. intros [= <-]. done.
      - unfold bind, gets, when, Fs.is_file.
        destruct (fs_files w !! Path.join dir e.1) as [y|] eqn:Hfile.
        + rewrite bool_decide_eq_true_2 by eauto.
          unfold Fs.unlink, Fs.is_file. rewrite Hfile.
          rewrite bool_decide_eq_true_2 by eauto. intros [= <-]. simpl.
          split; [|split].
          * intros q Hq. destruct (decide (Path.join dir e.1 = q)) as [<-|Hne];
              [apply lookup_delete_eq|by rewrite lookup_delete_ne].
          * intros _. apply lookup_delete_eq.
          * intros q Hq. rewrite lookup_delete_ne; [done|]. by apply Hq.
        + rewrite bool_decide_eq_false_2 by (by intros [? ?]).
          unfold ret. intros [= <-]. done. }
    split; [|split].
    + intros q Hq. by apply Hnone, Hn1.
    + intros e' [->|Hin]%elem_of_cons Ht; [by apply Hnone, Hd1|by apply Hdropped].
    + intros q Hq. rewrite Hframe.
      * apply Hf1. intros Ht. apply Hq; [by left|done].
      * intros e' Hin. apply Hq. by right.
Qed.

Lemma writeEntries_effect dir (l : list (string * string)) w w' :
  forM_ (Git.writeEntry dir) l w = (Ok tt, w') →
  NoDup (map (λ e, Path.join dir e.1) l) →
  (∀ e, e ∈ l → fs_files w' !! Path.join dir e.1 = Some e.2)
  ∧ (∀ q, (∀ e, e ∈ l → Path.join dir e.1 ≠ q) →
          fs_files w' !! q = fs_files w !! q).
Proof.
  revert w. induction l as [|e l IH]; intros w; simpl.
  - unfold ret. intros [= <-] _. split; [|done]. by intros e ?%elem_of_nil.
  - unfold bind.
    destruct (Git.writeEntry dir e w) as [[[]|err] v] eqn:He; [|done].
    intros Hrest [Hnew Hnd]%NoDup_cons.
    destruct (IH _ Hrest Hnd) as (Hwritten & Hframe).
    assert (fs_files v = <[Path.join dir e.1 := e.2]> (fs_files w)) as Hv.
    { revert He. unfold Git.writeEntry, bind.
      destruct (Fs.mkdir _ w) as [[[]|err] v1] eqn:Hmk; [|done].
      apply mkdir_rest_of in Hmk as (_ & Hf1 & _).
      unfold Fs.writeFile. destruct (Fs.is_dir v1 _); [done|].
      destruct (Fs.is_dir v1 _); [|done]. intros [= <-]. simpl. by rewrite Hf1. }
    split.
    + intros e' [->|Hin]%elem_of_cons; [|by apply Hwritten].
      rewrite Hframe; [by rewrite Hv, lookup_insert_eq|].
      intros e' Hin Heq. apply Hnew. rewrite <- Heq.
      apply (list_elem_of_fmap_2 (λ e0 : string * string, Path.join dir e0.1)).
      done.
    + intros q Hq. rewrite Hframe.
      * rewrite Hv, lookup_insert_ne; [done|]. apply Hq. by left.
      * intros e' Hin. apply Hq. by right.
Qed.

(** X25.  A checkout of a version shows that version: every path
    that was tracked or that the version has holds, in the working
    tree, exactly what the version has there (nothing, when the version
    lacks it), and every other file is left as it was; this for trees
    whose paths [path.join] leaves as they are. *)
Theorem preview_shows_version (appId : Z) (versionId : string) (w w' : World)
    (res : ServiceResult) (app : App) (repo : Repo) (c : commit) :
  checkoutVersionService appId versionId w = (Ok res, w') →
  find (λ a, bool_decide (app_id a = appId)) (db_apps w) = Some app →
  let appPath := getDyadAppPath (app_path app) in
  git_repos w !! Git.gitdir appPath = Some repo →
  Git.resolve repo versionId = Some c →
  plain appPath (index repo) →
  plain appPath (c_tree c) →
  (∀ p, is_Some (index repo !! p) ∨ is_Some (c_tree c !! p) →
        Git.worktree appPath w' !! p = c_tree c !! p)
  ∧ (∀ q, (∀ p, is_Some (index repo !! p) ∨ is_Some (c_tree c !! p) →
                Path.join appPath p ≠ q) →
          fs_files w' !! q = fs_files w !! q).
Proof.
  intros Hcall Happ appPath Hrepo Hc Hplain_idx Hplain_tree.
  assert (Git.checkout appPath versionId w = (Ok tt, w')) as Hco.
  { revert Hcall. unfold checkoutVersionService, bind at 1, Db.findApp, gets.
    rewrite Happ. cbv zeta. fold appPath. unfold try_catch, bind.
    destruct (Git.checkout appPath versionId w) as [[[]|e] v0]; unfold ret, throw;
      intros Hx; by simplify_eq. }
  revert Hco. unfold Git.checkout, bind at 1, Git.getRepo. rewrite Hrepo, Hc.
  unfold bind at 1.
  destruct (forM_ (Git.dropEntry _ _) _ w) as [[[]|e] v1] eqn:Hdrop; [|done].
  unfold bind at 1.
  destruct (forM_ (Git.writeEntry _) _ v1) as [[[]|e] v2] eqn:Hwrite; [|done].
  unfold Git.putRepo, modify. intros [= <-].
  apply dropEntries_effect in Hdrop as (_ & Hdropped & Hframe1).
  assert (∀ p1 p2 x, c_tree c !! p1 = Some x →
            Path.join appPath p1 = Fs.as_dir appPath +:+ p2 → p1 = p2) as Hinj.
  { intros p1 p2 x H1 Heq. rewrite (Hplain_tree p1 x H1) in Heq.
    by apply app_cancel_l in Heq. }
  apply writeEntries_effect in Hwrite as (Hwritten & Hframe2).
  2:{ apply NoDup_fmap_2_strong; [|apply NoDup_map_to_list].
      intros [p1 x1] [p2 x2] H1 H2. simpl. intros Heq.
      apply elem_of_map_to_list in H1, H2.
      assert (p1 = p2) as ->.
      { eapply Hinj; [exact H1|]. rewrite Heq. by apply (Hplain_tree p2 x2). }
      congruence. }
  split.
  - intros p Hp. destruct (c_tree c !! p) as [blob|] eqn:Ht.
    + apply worktree_complete; [by apply (Hplain_tree p blob)|]. simpl.
      apply (Hwritten (p, blob)). by apply elem_of_map_to_list.
    + destruct Hp as [[x Hidx]|[? ?]]; [|done].
      destruct (Git.worktree appPath _ !! p) as [y|] eqn:Hwt; [|done]. exfalso.
      apply worktree_sound in Hwt. simpl in Hwt.
      rewrite Hframe2 in Hwt.
      * pose proof (Hdropped (p, x)) as Hgone. simpl in Hgone.
        rewrite Hgone in Hwt; [done| |done].
        by apply elem_of_map_to_list.
      * intros [p' x'] Hin Heq. simpl in Heq.
        apply elem_of_map_to_list in Hin.
        assert (p' = p) as ->.
        { eapply Hinj; [exact Hin|]. rewrite Heq. by apply (Hplain_idx p x). }
        congruence.
  - intros q Hq. simpl. rewrite Hframe2, Hframe1; [done|..].
    + intros [p x] Hin _. apply elem_of_map_to_list in Hin. simpl.
      apply Hq. left. eauto.
    + intros [p x] Hin. apply elem_of_map_to_list in Hin. simpl.
      apply Hq. right. eauto.
Qed.

End CheckoutFiles.

(** ** The [reset-all] handler *)

Section ResetFacts.
Context {env : Env}.

Lemma removeAppIfCurrentProcess_clears appId proc v :
  (∀ e, runningApps v !! appId = Some e → process e = proc) →
  runningApps (removeAppIfCurrentProcess appId proc v).2 !! appId = None.
Proof.
  intros Hcur. unfold removeAppIfCurrentProcess, modify. simpl.
  destruct (runningApps v !! appId) as [e|] eqn:He; [|done].
  destruct (decide _) as [_|Hne]; [|by specialize (Hcur e eq_refl)].
  simpl. apply lookup_delete_eq.
Qed.

(** Whatever it answers, a stop leaves the app without an entry. *)
Lemma stopAppService_clears appId w :
  runningApps (stopAppService appId w).2 !! appId = None.
Proof.
  unfold stopAppService, withLock, bind at 1, gets.
  destruct (runningApps w !! appId) as [entry|] eqn:Hentry; [|done].
  unfold bind at 1, gets. destruct (has_exited _).
  { unfold bind, modify, ret. simpl. apply lookup_delete_eq. }
  unfold try_catch, bind at 1.
  pose proof (killProcess_winds_down (process entry) w) as (_ & Hsub & _).
  destruct (killProcess (process entry) w) as [rk v]. simpl in Hsub.
  assert (∀ e, runningApps v !! appId = Some e → process e = process entry)
    as Hcur.
  { intros e He. apply Hsub in He. congruence. }
  pose proof (removeAppIfCurrentProcess_clears appId (process entry) v Hcur)
    as Hclear.
  destruct rk as [[]|e].
  - unfold bind at 1.
    destruct (removeAppIfCurrentProcess appId (process entry) v)
      as [[[]|e] v'] eqn:Hv';
      [|unfold removeAppIfCurrentProcess, modify in Hv'; simplify_eq].
    unfold bind, killProcessOnPort, modify, ret. simpl in *. exact Hclear.
  - unfold bind.
    destruct (removeAppIfCurrentProcess appId (process entry) v)
      as [[[]|e'] v'] eqn:Hv';
      [|unfold removeAppIfCurrentProcess, modify in Hv'; simplify_eq].
    unfold throw. simpl in *. exact Hclear.
Qed.

Lemma stopAllBeforeReset_steps ids w :
  ∃ w', stopAllBeforeReset ids w = (Ok tt, w')
        ∧ winds_down w w'
        ∧ ∀ a, a ∈ ids → runningApps w' !! a = None.
Proof.
  revert w. induction ids as [|appId ids IH]; intros w.
  { exists w. split; [done|]. split; [apply winds_down_refl|].
    intros a Ha. by apply elem_of_nil in Ha. }
  unfold stopAllBeforeReset. cbn [forM_]. fold (stopAllBeforeReset ids).
  unfold bind at 1, try_catch, bind at 1.
  pose proof (stopAppService_winds_down appId w) as Hwd.
  pose proof (stopAppService_clears appId w) as Hclear.
  destruct (stopAppService appId w) as [r v]. simpl in Hwd, Hclear.
  destruct (IH v) as (w' & Hrun & Hwd' & Hnone).
  exists w'. split.
  { destruct r as [r|e]; unfold ret; exact Hrun. }
  split; [by eapply winds_down_trans|].
  intros a [->|Ha]%elem_of_cons; [|by apply Hnone].
  destruct (runningApps w' !! appId) as [e|] eqn:He; [|done].
  destruct Hwd' as (_ & Hsub & _). apply Hsub in He. congruence.
Qed.

(** X28.  The loop that [reset-all] runs before it resets never
    throws and leaves no app registered, also when a process cannot be
    killed: given the apps that have an entry, in any order and with any
    others beside them, it ends with an empty registry, and it only
    winds the registry down (no entry is added or changed, no process
    handle is dropped and no listener is moved). *)
Theorem reset_stops_all (runningAppIds : list Z) (w : World) :
  (∀ appId, is_Some (runningApps w !! appId) → appId ∈ runningAppIds) →
  ∃ w', stopAllBeforeReset runningAppIds w = (Ok tt, w')
        ∧ runningApps w' = ∅
        ∧ winds_down w w'.
Proof.
  intros Hall.
  destruct (stopAllBeforeReset_steps runningAppIds w) as (w' & Hrun & Hwd & Hnone).
  exists w'. split; [done|]. split; [|done].
  apply map_empty. intros a.
  destruct (runningApps w' !! a) as [e|] eqn:He; [|done].
  pose proof Hwd as (_ & Hsub & _). pose proof (Hsub _ _ He) as Hw.
  rewrite Hnone in He; [done|]. apply Hall. by rewrite Hw.
Qed.

End ResetFacts.

(** ** The further properties on concrete worlds *)

Lemma registry_ok_running : registry_ok Demo.running.
Proof.
  split.
  - intros appId entry Hentry.
    change (runningApps Demo.running)
      with ({[ 1 := mkEntry 0%nat 1 ]} : gmap Z RunningAppEntry) in Hentry.
    apply lookup_singleton_Some in Hentry as [<- <-]. split; [done|].
    eexists. split; [reflexivity|done].
  - intros a b ea eb Ha Hb _.
    change (runningApps Demo.running)
      with ({[ 1 := mkEntry 0%nat 1 ]} : gmap Z RunningAppEntry) in Ha, Hb.
    apply lookup_singleton_Some in Ha as [<- _].
    by apply lookup_singleton_Some in Hb as [<- _].
Qed.

Lemma registry_invariant_witness :
  registry_ok (runAppService (env := Demo.env) 1 Demo.running).2
  ∧ registry_ok (stopAppService (env := Demo.env) 1 Demo.running).2
  ∧ registry_ok (restartAppService (env := Demo.env) 1 true Demo.running).2.
Proof.
  exact (registry_invariant (env := Demo.env) 1 true Demo.running
           registry_ok_running).
Defined.

Lemma run_registers_witness :
  runningApps (runAppService (env := Demo.env) 1 Demo.idle).2
  = {[ 1 := mkEntry 0%nat 1 ]}
  ∧ processCounter (runAppService (env := Demo.env) 1 Demo.idle).2 = 1.
Proof.
  destruct (run_registers (env := Demo.env) 1 Demo.idle
              (runAppService (env := Demo.env) 1 Demo.idle).2
              (mkResult true None) eq_refl)
    as (_ & _ & Hcounter & _).
  - vm_compute. reflexivity.
  - split; [vm_compute; reflexivity|exact Hcounter].
Defined.

Lemma stop_terminates_witness :
  (stopAppService (env := Demo.env) 1 Demo.running).1 = Ok (mkResult true None)
  ∧ busy_ports (stopAppService (env := Demo.env) 1 Demo.running).2
    = {[ 32100 ]} ∖ {[ 32100 ]}
  ∧ outputs (stopAppService (env := Demo.env) 1 Demo.running).2
    = [mkOutput info "App process closed with code null, signal SIGTERM."
         1 1700000000000].
Proof.
  destruct (stop_terminates (env := Demo.env) 1 Demo.running (mkEntry 0%nat 1)
              (mkProc (Some 4242) None None EmptyString None (Some 1))
              eq_refl eq_refl eq_refl eq_refl eq_refl eq_refl)
    as [_ Hstop].
  rewrite Hstop. split; [reflexivity|]. split; reflexivity.
Defined.

Lemma stop_kill_failure_witness :
  stopAppService (env := Demo.env) 1 Demo.stubborn
  = (Err "Failed to stop app 1: kill EPERM",
     set_runningApps (delete 1 (runningApps Demo.stubborn)) Demo.stubborn).
Proof.
  exact (stop_kill_failure (env := Demo.env) 1 Demo.stubborn (mkEntry 0%nat 1)
           (mkProc (Some 4242) None None EmptyString (Some "kill EPERM") (Some 1))
           "kill EPERM" eq_refl eq_refl eq_refl eq_refl eq_refl).
Defined.

Lemma restart_starts_witness :
  processCounter (restartAppService (env := Demo.env) 1 true Demo.running).2 = 2
  ∧ (32100 ∉ busy_ports (restartAppService (env := Demo.env) 1 true Demo.running).2)
  ∧ ∃ p, os_procs (restartAppService (env := Demo.env) 1 true Demo.running).2
           !! 0%nat = Some p
         ∧ signalCode p = Some "SIGTERM".
Proof.
  destruct (restart_starts (env := Demo.env) 1 true Demo.running
              (restartAppService (env := Demo.env) 1 true Demo.running).2
              (mkResult true None))
    as (_ & _ & Hcounter & Hport & Hold).
  - vm_compute. reflexivity.
  - split; [exact Hcounter|]. split; [exact Hport|].
    destruct (Hold (mkEntry 0%nat 1) eq_refl)
      as (old & p & Hwas & Hnow & _ & Hsignal & _).
    injection Hwas as <-. exists p. split; [exact Hnow|exact Hsignal].
Defined.

Lemma restart_survives_stale_events_witness :
  runningApps
    (closeListener 1 0%nat None (Some "SIGTERM")
       (restartAppService (env := Demo.env) 1 false Demo.running).2).2
  = runningApps (restartAppService (env := Demo.env) 1 false Demo.running).2.
Proof.
  refine (proj1 (restart_survives_stale_events (env := Demo.env) 1 false
                   Demo.running _ (mkResult true None) 0%nat None
                   (Some "SIGTERM") EmptyString _ _)).
  - vm_compute. reflexivity.
  - eexists. reflexivity.
Defined.

Lemma restart_failure_witness :
  last (outputs (restartAppService (env := Demo.env) 1 false Demo.stubborn).2)
  = Some (mkOutput client_error "Failed to restart app: kill EPERM" 1
            1700000000000)
  ∧ is_Some (runningApps (restartAppService (env := Demo.env) 1 false
                            Demo.stubborn).2 !! 1).
Proof.
  destruct (restart_failure (env := Demo.env) 1 false Demo.stubborn
              (restartAppService (env := Demo.env) 1 false Demo.stubborn).2
              "kill EPERM")
    as (Hlast & _ & _).
  - vm_compute. reflexivity.
  - split; [exact Hlast|]. eexists. vm_compute. reflexivity.
Defined.

Lemma restart_cleans_node_modules_witness :
  nothing_at (restartAppService (env := Demo.env) 1 true Scenes.installed).2
    "/home/user/dyad-apps/demo/node_modules/react/index.js"
  ∧ same_at Scenes.installed
      (restartAppService (env := Demo.env) 1 true Scenes.installed).2
      "/home/user/dyad-apps/demo/package.json".
Proof.
  destruct (restart_cleans_node_modules (env := Demo.env) 1 true Scenes.installed
              (restartAppService (env := Demo.env) 1 true Scenes.installed).2
              (mkResult true None))
    as (app & Happ & Hkept & Hgone).
  - vm_compute. reflexivity.
  - injection Happ as <-. split.
    + apply Hgone; [reflexivity| |]; vm_compute; reflexivity.
    + apply Hkept. right. vm_compute. reflexivity.
Defined.

Lemma stop_then_run_is_restart_witness :
  (stopAppService (env := Demo.env) 1 >> runAppService (env := Demo.env) 1) Demo.running
  = restartAppService (env := Demo.env) 1 false Demo.running.
Proof.
  pose proof (proj2 (stop_then_run_is_restart (env := Demo.env) 1 Demo.running
                (restartAppService (env := Demo.env) 1 false Demo.running).2
                (mkResult true None)
                ltac:(intros entry [= <-]; vm_compute; reflexivity))) as Hrun.
  rewrite Hrun; vm_compute; reflexivity.
Defined.

Lemma delete_removes_app_witness :
  let w' := (deleteAppService (env := Demo.env) 1 Scenes.installed).2 in
  db_apps w' = []
  ∧ nothing_at w' "/home/user/dyad-apps/demo/.git"
  ∧ nothing_at w' "/home/user/dyad-apps/demo/package.json"
  ∧ same_at Scenes.installed w' "/home/user/dyad-apps"
  ∧ is_Some (runningApps w' !! 1).
Proof.
  intros w'.
  destruct (delete_removes_app (env := Demo.env) 1 Scenes.installed w'
              (mkResult true None) Demo.app1)
    as (_ & Hdb & _ & _ & Hkept & Hgone & _ & Hreg & _).
  - vm_compute. reflexivity.
  - reflexivity.
  - vm_compute. reflexivity.
  - split; [exact Hdb|].
    split; [apply Hgone; vm_compute; reflexivity|].
    split; [apply Hgone; vm_compute; reflexivity|].
    split; [apply Hkept; vm_compute; reflexivity|].
    rewrite Hreg. eexists. vm_compute. reflexivity.
Defined.

Lemma rename_failure_frame_witness :
  db_apps (renameAppService (env := Demo.env) 1 "other" "demo" Scenes.two_apps).2
  = [Demo.app1; Scenes.app2]
  ∧ fs_files (renameAppService (env := Demo.env) 1 "other" "demo"
                Scenes.two_apps).2
    = fs_files Scenes.two_apps.
Proof.
  destruct (rename_failure_frame (env := Demo.env) 1 "other" "demo"
              Scenes.two_apps
              (renameAppService (env := Demo.env) 1 "other" "demo"
                 Scenes.two_apps).2
              "An app with the name 'other' already exists")
    as (Hdb & Hfiles & _).
  - vm_compute. reflexivity.
  - split; [exact Hdb|exact Hfiles].
Defined.

Lemma rename_updates_row_witness :
  db_apps (renameAppService (env := Demo.env) 1 "shop" "shop" Scenes.two_apps).2
  = [mkApp 1 "shop" "shop"; Scenes.app2]
  ∧ Db.findApp 1
      (renameAppService (env := Demo.env) 1 "shop" "shop" Scenes.two_apps).2
    = (Ok (Some (mkApp 1 "shop" "shop")),
       (renameAppService (env := Demo.env) 1 "shop" "shop" Scenes.two_apps).2).
Proof.
  destruct (rename_updates_row (env := Demo.env) 1 "shop" "shop" Scenes.two_apps
              (renameAppService (env := Demo.env) 1 "shop" "shop"
                 Scenes.two_apps).2
              (mkRenameResult true (Some (mkApp 1 "shop" "shop"))))
    as (_ & Hfind & Hdb & _).
  - vm_compute. reflexivity.
  - split; [exact Hdb|exact Hfind].
Defined.

Lemma two_apps_unique : apps_unique Scenes.two_apps.
Proof.
  repeat split; apply (bool_decide_unpack _); vm_compute; exact I.
Qed.

Lemma rename_keeps_unique_witness :
  apps_unique
    (renameAppService (env := Demo.env) 1 "shop" "shop" Scenes.two_apps).2
  ∧ apps_unique
      (renameAppService (env := Demo.env) 1 "other" "demo" Scenes.two_apps).2.
Proof.
  split.
  - exact (rename_keeps_unique (env := Demo.env) 1 "shop" "shop" Scenes.two_apps
             two_apps_unique).
  - exact (rename_keeps_unique (env := Demo.env) 1 "other" "demo"
             Scenes.two_apps two_apps_unique).
Defined.




Lemma revert_failure_frame_witness :
  db_messages (revertVersionService (env := Demo.env) 1 "no-such-version"
                 Demo.versioned).2
  = Demo.messages1
  ∧ history_kept Demo.versioned
      (revertVersionService (env := Demo.env) 1 "no-such-version"
         Demo.versioned).2.
Proof.
  destruct (revert_failure_frame (env := Demo.env) 1 "no-such-version"
              Demo.versioned
              (revertVersionService (env := Demo.env) 1 "no-such-version"
                 Demo.versioned).2
              "Failed to revert version: NotFoundError: Could not find no-such-version")
    as (_ & Hmsgs & Hkept).
  - vm_compute. reflexivity.
  - split; [exact Hmsgs|exact Hkept].
Defined.

Lemma preview_then_main_witness :
  (listVersionsService (env := Demo.env) 1
     (checkoutVersionService (env := Demo.env) 1 "main"
        (checkoutVersionService (env := Demo.env) 1 Demo.v1 Demo.versioned).2).2).1
  = (listVersionsService (env := Demo.env) 1 Demo.versioned).1.
Proof.
  destruct (preview_then_main (env := Demo.env) 1 Demo.v1 Demo.versioned
              (checkoutVersionService (env := Demo.env) 1 Demo.v1 Demo.versioned).2
              (checkoutVersionService (env := Demo.env) 1 "main"
                 (checkoutVersionService (env := Demo.env) 1 Demo.v1
                    Demo.versioned).2).2
              (mkResult true None) (mkResult true None) Demo.app1 Demo.repo1)
    as (tip & r2 & _ & Hlist & _).
  - reflexivity.
  - reflexivity.
  - reflexivity.
  - vm_compute. reflexivity.
  - vm_compute. reflexivity.
  - exact Hlist.
Defined.

Lemma unknown_app_witness :
  listVersionsService (env := Demo.env) 7 Demo.running
  = (Err "App not found", Demo.running)
  ∧ deleteAppService (env := Demo.env) 7 Demo.running
    = (Err "App not found", Demo.running)
  ∧ busy_ports (restartAppService (env := Demo.env) 7 false Demo.running).2
    = {[ 32100 ]} ∖ {[ 32100 ]}.
Proof.
  destruct (unknown_app (env := Demo.env) 7 "main" "a.ts" "A" "n" "p" false
              Demo.running eq_refl)
    as (Hlist & _ & _ & _ & _ & Hdelete & _ & Hexec).
  split; [exact Hlist|]. split; [exact Hdelete|].
  destruct (Hexec eq_refl) as [_ Hrestart]. rewrite Hrestart. reflexivity.
Defined.

Lemma rename_moves_tree_witness :
  fs_files (renameAppService (env := Demo.env) 1 "shop" "shop" Scenes.two_apps).2
    !! "/home/user/dyad-apps/shop/node_modules/react/index.js"
  = Some "module.exports = {}"
  ∧ nothing_at
      (renameAppService (env := Demo.env) 1 "shop" "shop" Scenes.two_apps).2
      "/home/user/dyad-apps/demo/package.json".
Proof.
  destruct (rename_moves_tree (env := Demo.env) 1 "shop" "shop" Scenes.two_apps
              (renameAppService (env := Demo.env) 1 "shop" "shop"
                 Scenes.two_apps).2
              (mkRenameResult true (Some (mkApp 1 "shop" "shop"))) Demo.app1)
    as (Hmoved & _ & Hleft).
  - vm_compute. reflexivity.
  - reflexivity.
  - vm_compute. discriminate.
  - vm_compute. reflexivity.
  - vm_compute. reflexivity.
  - vm_compute. reflexivity.
  - split.
    + destruct (Hmoved "/home/user/dyad-apps/demo/node_modules/react/index.js")
        as (Hfile & _); [vm_compute; reflexivity|].
      exact Hfile.
    + apply Hleft; vm_compute; reflexivity.
Defined.

Lemma rename_keeps_history_witness :
  (listVersionsService (env := Demo.env) 1
     (renameAppService (env := Demo.env) 1 "shop" "shop" Scenes.two_apps).2).1
  = Ok (map toVersion [Demo.c3; Demo.c2; Demo.c1]).
Proof.
  destruct (rename_keeps_history (env := Demo.env) 1 "shop" "shop" Scenes.two_apps
              (renameAppService (env := Demo.env) 1 "shop" "shop"
                 Scenes.two_apps).2
              (mkRenameResult true (Some (mkApp 1 "shop" "shop"))) Demo.app1
              Demo.repo1)
    as (_ & Hlist).
  - vm_compute. reflexivity.
  - reflexivity.
  - reflexivity.
  - vm_compute. reflexivity.
  - vm_compute. reflexivity.
  - vm_compute. reflexivity.
  - rewrite Hlist. vm_compute. reflexivity.
Defined.

Lemma demo_trees_plain :
  plain Demo.appPath1 Demo.tree3 ∧ plain Demo.appPath1 Demo.tree1.
Proof.
  split; apply (bool_decide_unpack _); vm_compute; exact I.
Qed.

Lemma revert_restores_tree_witness :
  let w' := (revertVersionService (env := Demo.env) 1 Demo.v1 Demo.versioned).2 in
  Git.worktree Demo.appPath1 w' !! "src/a.ts" = Some "A1"
  ∧ Git.worktree Demo.appPath1 w' !! "scratch.txt" = None
  ∧ ∃ r' c,
      git_repos w' !! "/home/user/dyad-apps/demo/.git" = Some r'
      ∧ Git.resolveHead r' = Some c
      ∧ c_parent c = Some Demo.c3
      ∧ c_tree c = Demo.tree1.
Proof.
  intros w'.
  destruct (revert_restores_tree (env := Demo.env) 1 Demo.v1 Demo.versioned w'
              (mkResult true None) Demo.app1 Demo.repo1 Demo.c3 Demo.c1)
    as (Htaken & _ & r' & c & Hrepo & Hhead & Hparent & _ & Hsame).
  - vm_compute. reflexivity.
  - reflexivity.
  - reflexivity.
  - reflexivity.
  - vm_compute. reflexivity.
  - reflexivity.
  - exact (proj1 demo_trees_plain).
  - exact (proj2 demo_trees_plain).
  - split; [rewrite Htaken; [reflexivity|vm_compute; reflexivity]|].
    split; [rewrite Htaken; [reflexivity|vm_compute; reflexivity]|].
    exists r', c. split; [exact Hrepo|]. split; [exact Hhead|].
    split; [exact Hparent|]. apply Hsame.
    + intros p [x Hp]. revert p x Hp. apply (bool_decide_unpack _).
      vm_compute. exact I.
    + intros p [x Hp]. revert p x Hp. apply (bool_decide_unpack _).
      vm_compute. exact I.
Defined.

Lemma preview_shows_version_witness :
  Git.worktree Demo.appPath1
    (checkoutVersionService (env := Demo.env) 1 Demo.v1 Demo.versioned).2
    !! "src/a.ts" = Some "A1"
  ∧ Git.worktree Demo.appPath1
      (checkoutVersionService (env := Demo.env) 1 Demo.v1 Demo.versioned).2
      !! "src/b.ts" = None.
Proof.
  destruct (preview_shows_version (env := Demo.env) 1 Demo.v1 Demo.versioned
              (checkoutVersionService (env := Demo.env) 1 Demo.v1
                 Demo.versioned).2
              (mkResult true None) Demo.app1 Demo.repo1 Demo.c1)
    as (Hshown & _).
  - vm_compute. reflexivity.
  - reflexivity.
  - reflexivity.
  - vm_compute. reflexivity.
  - exact (proj1 demo_trees_plain).
  - exact (proj2 demo_trees_plain).
  - split.
    + rewrite Hshown; [reflexivity|]. right. eexists. reflexivity.
    + rewrite Hshown; [reflexivity|]. left. eexists. reflexivity.
Defined.

Lemma run_then_stop_witness :
  ∃ w2,
    stopAppService (env := Demo.env) 1
      (runAppService (env := Demo.env) 1 Demo.idle).2
    = (Ok (mkResult true None), w2)
    ∧ runningApps w2 = runningApps Demo.idle
    ∧ outputs w2
      = [mkOutput info "App process closed with code null, signal SIGTERM."
           1 1700000000000].
Proof.
  destruct (run_then_stop (env := Demo.env) 1 Demo.idle
              (runAppService (env := Demo.env) 1 Demo.idle).2
              (mkResult true None) eq_refl eq_refl)
    as (w2 & started & Hstarted & Hstop & Hreg & Hout & _).
  - vm_compute. reflexivity.
  - exists w2. split; [exact Hstop|]. split; [exact Hreg|].
    vm_compute in Hstarted. injection Hstarted as <-. exact Hout.
Defined.

(** The installed world, whose registry holds app 1. *)
Lemma reset_stops_all_witness :
  ∃ w', stopAllBeforeReset (env := Demo.env) [1] Scenes.installed = (Ok tt, w')
        ∧ runningApps w' = ∅
        ∧ winds_down Scenes.installed w'.
Proof.
  apply (reset_stops_all (env := Demo.env) [1] Scenes.installed).
  intros appId [entry Hentry]. simpl in Hentry.
  apply lookup_singleton_Some in Hentry as [<- _]. apply elem_of_cons. by left.
Defined.
